(** * A buddy allocator over a fixed arena: model of [buddy.c]

    The arena [g_memory] has [2^MAX_ORDER] bytes, cut into pages of
    [2^MIN_ORDER] bytes.  [g_pages] holds one descriptor per page and
    [free_area] one intrusive list of free block heads per order.  The C
    globals become one [state] record that every operation threads
    explicitly; an operation that would dereference a null pointer, index
    outside [g_pages], shift by an invalid amount or corrupt a list yields
    [None].  On the states the allocator reaches under well-behaved calls
    every operation is shown to return. *)

From Stdlib Require Import ZArith Lia.
From stdpp Require Import base list numbers option.

Local Open Scope Z_scope.

(** ** Constants and macros *)

Definition MIN_ORDER : Z := 12.
Definition MAX_ORDER : Z := 20.

Definition PAGE_SIZE : Z := Z.shiftl 1 MIN_ORDER.

(** [(1 << MAX_ORDER) / PAGE_SIZE], the length of [g_pages]. *)
Definition N_PAGES : Z := Z.shiftl 1 MAX_ORDER / PAGE_SIZE.

(** A [void *] is either null or points [off] bytes past the start of
    [g_memory]; the absolute address of the arena never matters because
    every macro subtracts [g_memory] before computing. *)
Inductive ptr : Type :=
| NULL
| Mem (off : Z).

Global Instance ptr_eq_dec : EqDecision ptr.
Proof. solve_decision. Defined.

(** Conversion to [unsigned long] (64 bits) and to [int] (32 bits). *)
Definition ulong (z : Z) : Z := z mod 2 ^ 64.
Definition to_int (z : Z) : Z := (z + 2 ^ 31) mod 2 ^ 32 - 2 ^ 31.

(** [1 << o] on [int]: defined only for a shift count in [0, 31). *)
Definition shl1 (o : Z) : option Z :=
  if decide (0 <= o < 31) then Some (Z.shiftl 1 o) else None.

(** [PAGE_TO_ADDR(page_idx)] *)
Definition PAGE_TO_ADDR (page_idx : Z) : ptr := Mem (page_idx * PAGE_SIZE).

(** [ADDR_TO_PAGE(addr)]: the difference to [g_memory] as [unsigned long],
    divided by the page size.  The offset of a null pointer from the arena
    is not known to the model. *)
Definition ADDR_TO_PAGE (addr : ptr) : option Z :=
  match addr with
  | Mem off => Some (ulong off / PAGE_SIZE)
  | NULL => None
  end.

(** [BUDDY_ADDR(addr, o)]: flip bit [o] of the offset. *)
Definition BUDDY_ADDR (addr : ptr) (o : Z) : option ptr :=
  match addr with
  | Mem off => b ← shl1 o; Some (Mem (Z.lxor (ulong off) b))
  | NULL => None
  end.

(** ** Page descriptors and allocator state *)

(** Modelled from the spec: [list.h] (the intrusive circular doubly linked
    list the source includes) is not among the sources.  A [struct
    list_head] embedded in a descriptor is in one of three conditions:
    both pointers null (static storage that was never initialised),
    pointing at itself (after [INIT_LIST_HEAD] or [list_del_init]), or
    linked into one of the free lists. *)
Inductive list_head : Type :=
| LH_null
| LH_self
| LH_linked.

Global Instance list_head_eq_dec : EqDecision list_head.
Proof. solve_decision. Defined.

(** [page_t]; the field [list] is called [pg_list] here, and the other
    fields carry the same prefix. *)
Record page_t : Type := mk_page {
  pg_list : list_head;
  pg_order : Z;
  pg_index : Z;
  pg_mem : ptr
}.

(** The globals.  [free_area !! k] is the sequence of page indices linked
    from the head [free_area[k]], first entry first.  The bytes of
    [g_memory] belong to the callers and are not modelled. *)
Record state : Type := mk_state {
  free_area : list (list Z);
  g_pages : list page_t
}.

(** [g_pages[i]], undefined outside the array. *)
Definition page_at (s : state) (i : Z) : option page_t :=
  if decide (0 <= i < N_PAGES) then g_pages s !! Z.to_nat i else None.

(** [free_area[k]], undefined outside the array. *)
Definition free_list (s : state) (k : Z) : option (list Z) :=
  if decide (0 <= k <= MAX_ORDER) then free_area s !! Z.to_nat k else None.

Definition with_list (l : list_head) (pg : page_t) : page_t :=
  {| pg_list := l; pg_order := pg_order pg;
     pg_index := pg_index pg; pg_mem := pg_mem pg |}.

Definition with_order (o : Z) (pg : page_t) : page_t :=
  {| pg_list := pg_list pg; pg_order := o;
     pg_index := pg_index pg; pg_mem := pg_mem pg |}.

(** [g_pages[page].order = o] *)
Definition set_order (page o : Z) (s : state) : option state :=
  _ ← page_at s page;
  Some (mk_state (free_area s) (alter (with_order o) (Z.to_nat page) (g_pages s))).

(** ** The list library *)

(** Modelled from the spec: [list_empty(&page->list)] of [list.h] compares
    the entry's [next] pointer with the entry itself, so it holds exactly
    for a self-linked entry; a null entry and a linked entry both report
    "not empty". *)
Definition list_empty (pg : page_t) : bool :=
  match pg_list pg with
  | LH_self => true
  | _ => false
  end.

(** Modelled from the spec: [list_add(&g_pages[page].list, &free_area[k])]
    of [list.h] links the entry right after the head.  Adding an entry
    that is still on a list would corrupt both lists, which the sequence
    model cannot express. *)
Definition list_add (page k : Z) (s : state) : option state :=
  l ← free_list s k;
  _ ← page_at s page;
  if decide (page ∈ concat (free_area s)) then None
  else Some (mk_state (<[Z.to_nat k := page :: l]> (free_area s))
                      (alter (with_list LH_linked) (Z.to_nat page) (g_pages s))).

(** Modelled from the spec: [list_del_init(&g_pages[page].list)] of
    [list.h] unlinks the entry from its neighbours and makes it point at
    itself.  On a null entry it dereferences null; on a self-linked entry
    it changes nothing. *)
Definition list_del_init (page : Z) (s : state) : option state :=
  pg ← page_at s page;
  match pg_list pg with
  | LH_null => None
  | LH_self => Some s
  | LH_linked =>
      if decide (page ∈ concat (free_area s)) then
        Some (mk_state (filter (λ x, x ≠ page) <$> free_area s)
                       (alter (with_list LH_self) (Z.to_nat page) (g_pages s)))
      else None
  end.

(** ** Local functions *)

(** [orderFor]: the [for] loop over the constant range
    [MIN_ORDER .. MAX_ORDER] returns the first order that fits. *)
Definition orderFor (size : Z) : Z :=
  match list_find (λ order, Z.shiftl 1 order >= size)
                  (seqZ MIN_ORDER (MAX_ORDER - MIN_ORDER + 1)) with
  | Some (_, order) => order
  | None => -1
  end.

(** The [while] loop of [split]; [fuel] bounds the iterations. *)
Fixpoint split_loop (fuel : nat) (page current_order target_order : Z)
    (s : state) : option state :=
  if decide (current_order > target_order) then
    match fuel with
    | O => None
    | S fuel' =>
        let current_order := current_order - 1 in
        pg ← page_at s page;
        baddr ← BUDDY_ADDR (pg_mem pg) current_order;
        bidx ← ADDR_TO_PAGE baddr;
        let buddy_index := to_int bidx in
        s1 ← set_order buddy_index current_order s;
        s2 ← list_add buddy_index current_order s1;
        split_loop fuel' page current_order target_order s2
    end
  else Some s.

Definition split (page current_order target_order : Z) (s : state)
    : option state :=
  split_loop (Z.to_nat (current_order - target_order))
             page current_order target_order s.

(** The static storage before [buddy_init] runs: all bits zero. *)
Definition zero_page : page_t :=
  {| pg_list := LH_null; pg_order := 0; pg_index := 0; pg_mem := NULL |}.

Definition boot : state :=
  {| free_area := replicate (Z.to_nat (MAX_ORDER + 1)) [];
     g_pages := replicate (Z.to_nat N_PAGES) zero_page |}.

Definition init_page (i : Z) (pg : page_t) : page_t :=
  {| pg_list := pg_list pg; pg_order := -1;
     pg_index := i; pg_mem := PAGE_TO_ADDR i |}.

(** [buddy_init]: the first loop rewrites every descriptor except for its
    list entry, the second empties the heads [MIN_ORDER .. MAX_ORDER]
    ([INIT_LIST_HEAD] leaves a head with no entries), and page 0 goes on
    the list of the largest order. *)
Definition buddy_init (s : state) : option state :=
  let pages := imap (λ i pg, init_page (Z.of_nat i) pg) (g_pages s) in
  let heads := imap (λ k l, if decide (MIN_ORDER <= Z.of_nat k <= MAX_ORDER)
                            then [] else l) (free_area s) in
  list_add 0 MAX_ORDER (mk_state heads pages).

(** [buddy_alloc]: the [for] loop walks the orders from the requested one
    up to [MAX_ORDER], given as the list [orders].  [list_empty] of a head
    holds when its sequence has no entry, and
    [list_entry(free_area[i].next, page_t, list)] is the descriptor of the
    first entry.  Both branches of the source are kept as they are
    written. *)
Fixpoint alloc_scan (orders : list Z) (order : Z) (s : state)
    : option (state * ptr) :=
  match orders with
  | [] => Some (s, NULL)
  | i :: orders' =>
      l ← free_list s i;
      match l with
      | [] => alloc_scan orders' order s
      | page :: _ =>
          if decide (i = order) then
            s1 ← list_del_init page s;
            s2 ← set_order page order s1;
            pg ← page_at s2 page;
            Some (s2, pg_mem pg)
          else
            s1 ← list_del_init page s;
            s2 ← split page i order s1;
            s3 ← set_order page order s2;
            pg ← page_at s3 page;
            Some (s3, pg_mem pg)
      end
  end.

Definition buddy_alloc (size : Z) (s : state) : option (state * ptr) :=
  let order := orderFor size in
  if decide (order = -1) then Some (s, NULL)
  else alloc_scan (seqZ order (MAX_ORDER - order + 1)) order s.

(** The [while] loop of [buddy_free]; it yields the state together with
    the surviving [page] and its [order]. *)
Fixpoint free_loop (fuel : nat) (page order : Z) (s : state)
    : option (state * Z * Z) :=
  if decide (order < MAX_ORDER) then
    match fuel with
    | O => None
    | S fuel' =>
        pg ← page_at s page;
        baddr ← BUDDY_ADDR (pg_mem pg) order;
        bidx ← ADDR_TO_PAGE baddr;
        let buddy_index := to_int bidx in
        buddy ← page_at s buddy_index;
        if bool_decide (pg_order buddy ≠ order) || list_empty buddy then
          Some (s, page, order)
        else
          s1 ← list_del_init buddy_index s;
          free_loop fuel' (if decide (buddy_index < page) then buddy_index else page)
                    (order + 1) s1
    end
  else Some (s, page, order).

Definition buddy_free (addr : ptr) (s : state) : option state :=
  idx ← ADDR_TO_PAGE addr;
  pg ← page_at s idx;
  '(s1, page, order) ← free_loop (Z.to_nat (MAX_ORDER - pg_order pg))
                                 idx (pg_order pg) s;
  s2 ← set_order page order s1;
  list_add page order s2.

(** [buddy_dump] prints, for each order, the number of entries on its free
    list; the counts are what the model keeps of it. *)
Definition buddy_dump (s : state) : list Z :=
  (λ o, Z.of_nat (length (default [] (free_list s o))))
    <$> seqZ MIN_ORDER (MAX_ORDER - MIN_ORDER + 1).

(** ** Blocks *)

(** A block is named by the index of its first page and its order. *)
Abbreviation block_t := (Z * Z)%type.

(** Byte [b] of the arena (an offset from [g_memory]) lies in the block. *)
Definition in_block (b : Z) (blk : block_t) : Prop :=
  blk.1 * PAGE_SIZE <= b < blk.1 * PAGE_SIZE + 2 ^ blk.2.

Global Instance in_block_dec b blk : Decision (in_block b blk).
Proof. unfold in_block. apply _. Defined.

(** How many blocks of [l] contain byte [b]. *)
Definition covers (b : Z) (l : list block_t) : nat :=
  length (filter (in_block b) l).

(** The block lies in the arena, has an order the allocator manages, and
    starts at a multiple of its size. *)
Definition block_ok (p k : Z) : Prop :=
  MIN_ORDER <= k <= MAX_ORDER ∧ 0 <= p < N_PAGES ∧
  (p * PAGE_SIZE) mod 2 ^ k = 0.

(** The page index that [split] and [buddy_free] compute for the buddy of
    the block heading at page [p]:
    [ADDR_TO_PAGE(BUDDY_ADDR(g_pages[p].mem, k))] stored in an [int]. *)
Definition buddy_index (p k : Z) : Z :=
  to_int (ulong (Z.lxor (ulong (p * PAGE_SIZE)) (Z.shiftl 1 k)) / PAGE_SIZE).

(** The blocks on the free lists, each with the order of its list. *)
Fixpoint tag_blocks (k : Z) (ll : list (list Z)) : list block_t :=
  match ll with
  | [] => []
  | l :: ll' => ((λ p, (p, k)) <$> l) ++ tag_blocks (k + 1) ll'
  end.

Definition free_blocks (s : state) : list block_t := tag_blocks 0 (free_area s).

(** The block behind a live address: it starts at the page of the address
    and has the order its descriptor records. *)
Definition live_block (s : state) (a : ptr) : option block_t :=
  idx ← ADDR_TO_PAGE a;
  pg ← page_at s idx;
  Some (idx, pg_order pg).

Definition live_blocks (s : state) (live : list ptr) : list block_t :=
  omap (live_block s) live.

(** Every block the allocator accounts for: free or handed out. *)
Definition blocks (s : state) (live : list ptr) : list block_t :=
  free_blocks s ++ live_blocks s live.

(** ** Reachable states *)

(** [reachable s live]: [s] arises from the initialised allocator by calls
    of [buddy_alloc] and by calls of [buddy_free] on addresses that
    [buddy_alloc] returned and that were not released since; [live] lists
    those addresses. *)
Inductive reachable : state → list ptr → Prop :=
| reach_init s :
    buddy_init boot = Some s →
    reachable s []
| reach_alloc s live size s' a :
    reachable s live →
    buddy_alloc size s = Some (s', a) →
    a ≠ NULL →
    reachable s' (a :: live)
| reach_alloc_fail s live size s' :
    reachable s live →
    buddy_alloc size s = Some (s', NULL) →
    reachable s' live
| reach_free s live1 a live2 s' :
    reachable s (live1 ++ a :: live2) →
    buddy_free a s = Some s' →
    reachable s' (live1 ++ live2).

(** [serving s live]: as [reachable], with every live address recorded
    together with the order that [buddy_alloc] computed for the request
    that returned it, [orderFor size]. *)
Inductive serving : state → list (ptr * Z) → Prop :=
| serve_init s :
    buddy_init boot = Some s →
    serving s []
| serve_alloc s live size s' a :
    serving s live →
    buddy_alloc size s = Some (s', a) →
    a ≠ NULL →
    serving s' ((a, orderFor size) :: live)
| serve_alloc_fail s live size s' :
    serving s live →
    buddy_alloc size s = Some (s', NULL) →
    serving s' live
| serve_free s live1 a o live2 s' :
    serving s (live1 ++ (a, o) :: live2) →
    buddy_free a s = Some s' →
    serving s' (live1 ++ live2).

(** ** The invariant

    [wf s live holes] describes the allocator between two primitive steps:
    [holes] are blocks that are in transit, taken off a free list and not
    yet handed out or put back.  Between two calls there are none. *)
Record wf (s : state) (live : list ptr) (holes : list block_t) : Prop := {
  wf_pages : length (g_pages s) = Z.to_nat N_PAGES;
  wf_heads : length (free_area s) = Z.to_nat (MAX_ORDER + 1);
  wf_fixed : ∀ i pg, page_at s i = Some pg →
    pg_index pg = i ∧ pg_mem pg = PAGE_TO_ADDR i;
  wf_low : ∀ k, 0 <= k < MIN_ORDER → free_list s k = Some [];
  wf_free : ∀ k l p, free_list s k = Some l → p ∈ l →
    block_ok p k ∧
    ∃ pg, page_at s p = Some pg ∧ pg_list pg = LH_linked ∧
          (pg_order pg = k ∨ (k = MAX_ORDER ∧ pg_order pg = -1));
  wf_linked : ∀ p pg, page_at s p = Some pg → pg_list pg = LH_linked →
    p ∈ concat (free_area s);
  wf_null : ∀ p pg, page_at s p = Some pg → pg_list pg = LH_null →
    pg_order pg = -1;
  wf_live : ∀ a, a ∈ live →
    ∃ p pg, a = PAGE_TO_ADDR p ∧ page_at s p = Some pg ∧
            pg_list pg = LH_self ∧ block_ok p (pg_order pg);
  wf_holes : ∀ p k, (p, k) ∈ holes →
    block_ok p k ∧ ∃ pg, page_at s p = Some pg ∧ pg_list pg ≠ LH_linked;
  wf_cover : ∀ b, 0 <= b < 2 ^ MAX_ORDER →
    covers b (blocks s live ++ holes) = 1%nat;
  wf_nobuddy : ∀ k l p, k < MAX_ORDER → free_list s k = Some l → p ∈ l →
    buddy_index p k ∉ l
}.

(** The state [buddy_init] produces from the static storage: every
    descriptor carries order -1, its index and its address; only page 0 is
    linked, on the list of [MAX_ORDER]. *)
Definition init_state : state :=
  {| free_area := replicate (Z.to_nat MAX_ORDER) [] ++ [[0]];
     g_pages :=
       (λ i, {| pg_list := if decide (i = 0) then LH_linked else LH_null;
                pg_order := -1; pg_index := i; pg_mem := PAGE_TO_ADDR i |})
       <$> seqZ 0 N_PAGES |}.

(** The successful path of [buddy_alloc] once the scan has found [page]
    at the head of the free list of order [i]: unlink it, split it down
    to [order] and record the order in its descriptor. *)
Definition alloc_from (s : state) (order i page : Z) : option state :=
  s1 ← list_del_init page s;
  s2 ← split page i order s1;
  set_order page order s2.

(** ** Sample runs

    States reached by short call sequences, used to exercise the theorems
    on concrete inputs. *)

Definition state_after (r : option (state * ptr)) : state :=
  match r with Some (s, _) => s | None => boot end.

(** One page handed out: [buddy_alloc(4096)] on the initial state. *)
Definition one_page : state := state_after (buddy_alloc 4096 init_state).

(** Then a block of two pages: [buddy_alloc(5000)]. *)
Definition two_blocks : state := state_after (buddy_alloc 5000 one_page).

(** The whole arena handed out: [buddy_alloc(1 << MAX_ORDER)] on the
    initial state. *)
Definition exhausted : state :=
  state_after (buddy_alloc (2 ^ MAX_ORDER) init_state).

(** Two pages handed out, then a block of two pages, then the first page
    released: page 0 is free at order 12 while its neighbour, page 1, and
    the block of pages 2 and 3 are still handed out. *)
Definition two_pages : state := state_after (buddy_alloc 4096 one_page).
Definition three_blocks : state := state_after (buddy_alloc 8192 two_pages).
Definition ragged : state := default boot (buddy_free (Mem 0) three_blocks).

(** ** Inside a release

    [releasing s live p k]: [buddy_free], called on a reachable state for
    a live address, is at the head of its loop in state [s], holding the
    block of page [p] and order [k]; [live] are the other live addresses.
    The loop starts with the block of the address and the order its
    descriptor records; a turn that finds the buddy on the free list of
    the current order unlinks it and goes on with the merged block. *)
Inductive releasing : state → list ptr → Z → Z → Prop :=
| rel_start s live1 a live2 p pg :
    reachable s (live1 ++ a :: live2) →
    ADDR_TO_PAGE a = Some p →
    page_at s p = Some pg →
    releasing s (live1 ++ live2) p (pg_order pg)
| rel_merge s live p k l s1 :
    releasing s live p k →
    k < MAX_ORDER →
    free_list s k = Some l →
    buddy_index p k ∈ l →
    list_del_init (buddy_index p k) s = Some s1 →
    releasing s1 live (Z.min p (buddy_index p k)) (k + 1).

(** ** Initialised states

    [buddy_init] writes into every descriptor the address of its page, and
    no operation writes that field again. *)
Definition initialised (s : state) : Prop :=
  ∀ i pg, page_at s i = Some pg → pg_mem pg = PAGE_TO_ADDR i.

(** [keeps_mem s s']: every descriptor of [s'] has the address it has in
    [s]. *)
Definition keeps_mem (s s' : state) : Prop :=
  ∀ i pg', page_at s' i = Some pg' →
  ∃ pg, page_at s i = Some pg ∧ pg_mem pg' = pg_mem pg.

(** ** Sizes

    The number of bytes of a block and of a list of blocks. *)
Definition block_bytes (blk : block_t) : Z := 2 ^ blk.2.

Definition total_bytes (l : list block_t) : Z :=
  foldr (λ blk n, block_bytes blk + n) 0 l.

(** How often the bytes [0 .. n-1] of the arena occur in the blocks of
    [l], counted with multiplicity. *)
Fixpoint byte_count (n : nat) (l : list block_t) : Z :=
  match n with
  | O => 0
  | S n' => Z.of_nat (covers (Z.of_nat n') l) + byte_count n' l
  end.

(** ** The output of [buddy_dump]

    The line [buddy_dump] prints: for every order from [MIN_ORDER] to
    [MAX_ORDER] the two numbers its format ["%d:%dK "] takes, the count
    of [buddy_dump] and the block size [(1 << o) / 1024]. *)
Definition buddy_dump_line (s : state) : list (Z * Z) :=
  zip (buddy_dump s)
      ((λ o, Z.shiftl 1 o / 1024) <$> seqZ MIN_ORDER (MAX_ORDER - MIN_ORDER + 1)).

(** The memory a printed line accounts for, in KiB. *)
Definition line_kib (line : list (Z * Z)) : Z :=
  foldr (λ e n, e.1 * e.2 + n) 0 line.

(** Everything released again: [buddy_free] of the page that [one_page]
    has handed out. *)
Definition released : state := default boot (buddy_free (Mem 0) one_page).

(** ** Arithmetic of buddies *)

Lemma lxor_pow2_clear (a k : Z) :
  0 <= k → a mod 2 ^ (k + 1) = 0 → Z.lxor a (2 ^ k) = a + 2 ^ k.
Proof.
  intros Hk Ha. symmetry. apply Z.add_nocarry_lxor.
  apply Z.bits_inj'. intros n Hn.
  rewrite Z.land_spec, Z.bits_0, Z.pow2_bits_eqb by lia.
  destruct (Z.eqb_spec k n) as [<-|]; [|apply andb_false_r].
  rewrite andb_true_r.
  apply Z.mod_divide in Ha; [|lia]. destruct Ha as [q ->].
  apply Z.mul_pow2_bits_low. lia.
Qed.

Lemma pow2_succ (k : Z) : 0 <= k → 2 ^ (k + 1) = 2 * 2 ^ k.
Proof. intros. rewrite Z.pow_add_r by lia. lia. Qed.

Lemma pow2_pos (k : Z) : 0 <= k → 0 < 2 ^ k.
Proof. intros. apply Z.pow_pos_nonneg; lia. Qed.

Lemma lxor_pow2_set (a k : Z) :
  0 <= k → a mod 2 ^ k = 0 → a mod 2 ^ (k + 1) ≠ 0 →
  Z.lxor a (2 ^ k) = a - 2 ^ k ∧ (a - 2 ^ k) mod 2 ^ (k + 1) = 0.
Proof.
  intros Hk Ha Hn.
  pose proof (pow2_succ k Hk) as H2. pose proof (pow2_pos k Hk) as Hp.
  assert (Hm : (a - 2 ^ k) mod 2 ^ (k + 1) = 0).
  { rewrite H2 in *. apply Z.mod_divide in Ha; [|lia]. destruct Ha as [q ->].
    assert (q mod 2 = 1).
    { destruct (Z.mod_pos_bound q 2 ltac:(lia)).
      assert (q mod 2 ≠ 0); [|lia]. intros Hq. apply Hn.
      apply Z.mod_divide in Hq; [|lia]. destruct Hq as [r ->].
      apply Z.mod_divide; [lia|]. exists r. lia. }
    apply Z.mod_divide; [lia|]. exists (q / 2).
    pose proof (Z.div_mod q 2 ltac:(lia)). nia. }
  split; [|done].
  pose proof (lxor_pow2_clear _ _ Hk Hm) as E.
  replace (a - 2 ^ k + 2 ^ k) with a in E by lia.
  rewrite <- E at 1. rewrite Z.lxor_assoc, Z.lxor_nilpotent, Z.lxor_0_r. lia.
Qed.

Ltac consts :=
  change PAGE_SIZE with 4096 in *; change N_PAGES with 256 in *;
  change MAX_ORDER with 20 in *; change MIN_ORDER with 12 in *.

Lemma order_facts (k : Z) :
  MIN_ORDER <= k <= MAX_ORDER →
  ∃ d e, 2 ^ k = PAGE_SIZE * d ∧ 1 <= d ∧ 2 ^ MAX_ORDER = 2 ^ k * e ∧ 1 <= e.
Proof.
  intros Hk. exists (2 ^ (k - 12)), (2 ^ (20 - k)). consts.
  pose proof (pow2_pos (k - 12)). pose proof (pow2_pos (20 - k)).
  assert (2 ^ k = 2 ^ 12 * 2 ^ (k - 12)) as E1.
  { rewrite <- Z.pow_add_r by lia. f_equal. lia. }
  assert (2 ^ 20 = 2 ^ k * 2 ^ (20 - k)) as E2.
  { rewrite <- Z.pow_add_r by lia. f_equal. lia. }
  lia.
Qed.

Lemma ulong_small (z : Z) : 0 <= z < 2 ^ MAX_ORDER → ulong z = z.
Proof. intros H. unfold ulong. apply Z.mod_small. consts. lia. Qed.

Lemma to_int_small (z : Z) : 0 <= z < N_PAGES → to_int z = z.
Proof.
  intros H. unfold to_int. consts.
  rewrite Z.mod_small; lia.
Qed.

Lemma buddy_index_spec (p k : Z) :
  block_ok p k → k < MAX_ORDER →
  ∃ d, 2 ^ k = PAGE_SIZE * d ∧ 1 <= d ∧
    ((p * PAGE_SIZE) mod 2 ^ (k + 1) = 0 ∧ buddy_index p k = p + d ∧ p + d < N_PAGES ∨
     ((p - d) * PAGE_SIZE) mod 2 ^ (k + 1) = 0 ∧ buddy_index p k = p - d ∧ 0 <= p - d).
Proof.
  intros (Hk & Hp & Ha) Hlt.
  destruct (order_facts k Hk) as (d & e & Hd & Hd1 & He & He1).
  destruct (order_facts (k + 1) ltac:(lia)) as (d' & e' & Hd' & Hd1' & He' & He1').
  exists d. split; [done|]. split; [done|].
  unfold buddy_index. rewrite Z.shiftl_1_l. consts.
  assert (H2 := pow2_succ k ltac:(lia)).
  rewrite (ulong_small (p * 4096)) by (consts; lia).
  destruct (decide ((p * 4096) mod 2 ^ (k + 1) = 0)) as [Hc|Hs].
  - left. rewrite lxor_pow2_clear by (lia || done).
    apply Z.mod_divide in Hc; [|lia]. destruct Hc as [q Hq].
    assert (p = 2 * q * d) by lia. assert (d * e' = 128) by lia.
    assert (q < e') by nia. assert (p + d < 256) by nia.
    rewrite ulong_small by (consts; nia).
    replace (p * 4096 + 2 ^ k) with ((p + d) * 4096) by lia.
    rewrite Z.div_mul by lia. rewrite to_int_small by (consts; lia).
    split; [|done]. apply Z.mod_divide; [lia|]. by exists q.
  - right. destruct (lxor_pow2_set (p * 4096) k) as [-> Hm]; [lia|done..|].
    replace (p * 4096 - 2 ^ k) with ((p - d) * 4096) in * by lia.
    assert (0 <= p - d).
    { apply Z.mod_divide in Ha; [|lia]. destruct Ha as [q Hq].
      assert (q ≠ 0); [|assert (0 <= q) by nia; nia]. intros ->. apply Hs. replace (p * 4096) with 0 by lia. done. }
    rewrite ulong_small by (consts; nia). rewrite Z.div_mul by lia.
    rewrite to_int_small by (consts; lia). done.
Qed.

Lemma mod_pow2_child (a k : Z) : 0 <= k → a mod 2 ^ (k + 1) = 0 → a mod 2 ^ k = 0.
Proof.
  intros Hk H. pose proof (pow2_pos k Hk). rewrite pow2_succ in H by done.
  apply Z.mod_divide in H; [|lia]. destruct H as [q ->].
  apply Z.mod_divide; [lia|]. exists (q * 2). lia.
Qed.

Lemma mod_pow2_shift (a k : Z) :
  0 <= k → a mod 2 ^ (k + 1) = 0 → (a + 2 ^ k) mod 2 ^ (k + 1) ≠ 0.
Proof.
  intros Hk H. pose proof (pow2_pos k Hk). rewrite pow2_succ in * by done.
  apply Z.mod_divide in H; [|lia]. destruct H as [q ->]. intros H'.
  apply Z.mod_divide in H'; [|lia]. destruct H' as [r Hr].
  assert (2 ^ k * (2 * (r - q) - 1) = 0) as E by lia.
  apply Z.mul_eq_0 in E. lia.
Qed.

Lemma buddy_ok (p k : Z) :
  block_ok p k → k < MAX_ORDER → block_ok (buddy_index p k) k.
Proof.
  intros Hb Hlt. destruct (buddy_index_spec p k Hb Hlt) as (d & Hd & Hd1 & H).
  destruct Hb as (Hk & Hp & Ha). unfold block_ok.
  destruct H as [(Hc & -> & Hr)|(Hc & -> & Hr)].
  - split; [done|]. split; [lia|].
    replace ((p + d) * PAGE_SIZE) with (p * PAGE_SIZE + 1 * 2 ^ k) by lia.
    by rewrite Z.mod_add by (consts; pose proof (pow2_pos k); lia).
  - split; [done|]. split; [lia|]. apply mod_pow2_child; [consts; lia|done].
Qed.

Lemma buddy_involutive (p k : Z) :
  block_ok p k → k < MAX_ORDER → buddy_index (buddy_index p k) k = p.
Proof.
  intros Hb Hlt. pose proof (buddy_ok p k Hb Hlt) as Hb'.
  destruct (buddy_index_spec p k Hb Hlt) as (d & Hd & Hd1 & H).
  destruct (buddy_index_spec _ k Hb' Hlt) as (d' & Hd' & Hd1' & H').
  assert (d' = d) as -> by (consts; lia).
  assert (0 <= k) by (destruct Hb as (? & _); consts; lia).
  destruct H as [(Hc & E & Hr)|(Hc & E & Hr)]; rewrite E in *;
    destruct H' as [(Hc' & E' & Hr')|(Hc' & E' & Hr')]; rewrite E'; try lia.
  - exfalso. apply (mod_pow2_shift (p * PAGE_SIZE) k); [done..|].
    by replace (p * PAGE_SIZE + 2 ^ k) with ((p + d) * PAGE_SIZE) by lia.
  - exfalso. apply (mod_pow2_shift ((p - d - d) * PAGE_SIZE) k); [done..|].
    by replace ((p - d - d) * PAGE_SIZE + 2 ^ k) with ((p - d) * PAGE_SIZE) by lia.
Qed.

Lemma buddy_ne (p k : Z) :
  block_ok p k → k < MAX_ORDER → buddy_index p k ≠ p.
Proof.
  intros Hb Hlt. destruct (buddy_index_spec p k Hb Hlt) as (d & Hd & Hd1 & H).
  destruct H as [(_ & -> & _)|(_ & -> & _)]; lia.
Qed.

Lemma block_ok_pos (p k : Z) : block_ok p k → 0 < 2 ^ k.
Proof. intros (Hk & _). apply pow2_pos. consts. lia. Qed.

Lemma block_start_in (p k : Z) : block_ok p k → in_block (p * PAGE_SIZE) (p, k).
Proof. intros H. apply block_ok_pos in H. unfold in_block. simpl. lia. Qed.

Lemma block_in_arena (p k b : Z) :
  block_ok p k → in_block b (p, k) → 0 <= b < 2 ^ MAX_ORDER.
Proof.
  intros (Hk & Hp & Ha) Hb. unfold in_block in Hb. simpl in Hb.
  destruct (order_facts k Hk) as (d & e & Hd & Hd1 & He & He1).
  apply Z.mod_divide in Ha; [|lia]. destruct Ha as [q Hq].
  consts. assert (q < e) by nia. nia.
Qed.

Lemma parent_ok (p k : Z) :
  block_ok p k → k < MAX_ORDER →
  block_ok (Z.min p (buddy_index p k)) (k + 1).
Proof.
  intros Hb Hlt. destruct (buddy_index_spec p k Hb Hlt) as (d & Hd & Hd1 & H).
  destruct Hb as (Hk & Hp & Ha). unfold block_ok.
  split; [lia|].
  destruct H as [(Hc & -> & Hr)|(Hc & -> & Hr)].
  - rewrite Z.min_l by lia. done.
  - rewrite Z.min_r by lia. split; [lia|done].
Qed.

Lemma covers_one (b : Z) (blk : block_t) :
  covers b [blk] = if decide (in_block b blk) then 1%nat else 0%nat.
Proof. unfold covers. rewrite filter_cons, filter_nil. by case_decide. Qed.

Lemma covers_cons (b : Z) (blk : block_t) (l : list block_t) :
  covers b (blk :: l) = (covers b [blk] + covers b l)%nat.
Proof. unfold covers. rewrite !filter_cons, filter_nil. by case_decide. Qed.

Lemma covers_app (b : Z) (l1 l2 : list block_t) :
  covers b (l1 ++ l2) = (covers b l1 + covers b l2)%nat.
Proof. unfold covers. by rewrite list.filter_app, length_app. Qed.

Lemma covers_merge (p k b : Z) :
  block_ok p k → k < MAX_ORDER →
  covers b [(Z.min p (buddy_index p k), k + 1)] =
  (covers b [(p, k)] + covers b [(buddy_index p k, k)])%nat.
Proof.
  intros Hb Hlt. destruct (buddy_index_spec p k Hb Hlt) as (d & Hd & Hd1 & H).
  destruct Hb as (Hk & Hp & Ha).
  assert (H2 := pow2_succ k ltac:(consts; lia)).
  rewrite !covers_one. unfold in_block. simpl.
  destruct H as [(Hc & -> & Hr)|(Hc & -> & Hr)].
  - rewrite Z.min_l by lia. repeat case_decide; lia.
  - rewrite Z.min_r by lia. repeat case_decide; lia.
Qed.

Lemma child_ok (p k : Z) :
  block_ok p (k + 1) → MIN_ORDER <= k →
  block_ok p k ∧ Z.min p (buddy_index p k) = p.
Proof.
  intros (Hk & Hp & Ha) Hm.
  assert (Hb : block_ok p k).
  { split; [lia|]. split; [done|]. apply mod_pow2_child; [consts; lia|done]. }
  split; [done|].
  destruct (buddy_index_spec p k Hb ltac:(lia)) as (d & Hd & Hd1 & H).
  destruct H as [(Hc & -> & Hr)|(Hc & E & Hr)]; [lia|].
  exfalso. apply (mod_pow2_shift ((p - d) * PAGE_SIZE) k); [consts; lia|done|].
  by replace ((p - d) * PAGE_SIZE + 2 ^ k) with (p * PAGE_SIZE) by lia.
Qed.

(** ** Reading the arrays *)

Lemma page_at_Some (s : state) (i : Z) (pg : page_t) :
  page_at s i = Some pg → 0 <= i < N_PAGES.
Proof. unfold page_at. by case_decide. Qed.

Lemma page_at_is_Some (s : state) (i : Z) :
  length (g_pages s) = Z.to_nat N_PAGES → 0 <= i < N_PAGES →
  is_Some (page_at s i).
Proof.
  intros Hl Hi. unfold page_at. rewrite decide_True by done.
  apply lookup_lt_is_Some. lia.
Qed.

Lemma page_at_alter (s : state) (fa : list (list Z)) (f : page_t → page_t)
    (p i : Z) :
  0 <= p →
  page_at (mk_state fa (alter f (Z.to_nat p) (g_pages s))) i =
  if decide (i = p) then f <$> page_at s i else page_at s i.
Proof.
  intros Hp. unfold page_at. simpl.
  destruct (decide (i = p)) as [->|Hne].
  - case_decide; [|done]. apply list_lookup_alter_eq.
  - case_decide; [|done]. apply list_lookup_alter_ne. lia.
Qed.

Lemma free_list_Some (s : state) (k : Z) (l : list Z) :
  free_list s k = Some l → 0 <= k <= MAX_ORDER.
Proof. unfold free_list. by case_decide. Qed.

Lemma free_list_is_Some (s : state) (k : Z) :
  length (free_area s) = Z.to_nat (MAX_ORDER + 1) → 0 <= k <= MAX_ORDER →
  is_Some (free_list s k).
Proof.
  intros Hl Hk. unfold free_list. rewrite decide_True by done.
  apply lookup_lt_is_Some. lia.
Qed.

Lemma free_list_insert (s : state) (pgs : list page_t) (k k' : Z)
    (l l' : list Z) :
  free_list s k = Some l →
  free_list (mk_state (<[Z.to_nat k := l']> (free_area s)) pgs) k' =
  if decide (k' = k) then Some l' else free_list s k'.
Proof.
  unfold free_list. simpl. intros Hk.
  destruct (decide (0 <= k <= MAX_ORDER)) as [Hb|]; [|done].
  destruct (decide (k' = k)) as [->|Hne].
  - rewrite decide_True by done. apply list_lookup_insert_eq.
    by eapply lookup_lt_Some.
  - case_decide; [|done]. apply list_lookup_insert_ne. lia.
Qed.

Lemma free_list_filter (s : state) (pgs : list page_t) (P : Z → Prop)
    `{∀ x, Decision (P x)} (k : Z) :
  free_list (mk_state (filter P <$> free_area s) pgs) k =
  filter P <$> free_list s k.
Proof.
  unfold free_list. simpl. case_decide; [|done]. apply list_lookup_fmap.
Qed.

Lemma elem_of_concat (x : Z) (ll : list (list Z)) :
  x ∈ concat ll ↔ ∃ (n : nat) l, ll !! n = Some l ∧ x ∈ l.
Proof.
  induction ll as [|l ll IH]; simpl.
  - split; [by intros ?%elem_of_nil|by intros (n & l & ? & _)].
  - rewrite elem_of_app, IH. split.
    + intros [H|(n & l' & H1 & H2)]; [by exists 0%nat, l|by exists (S n), l'].
    + intros ([|n] & l' & H1 & H2); simpl in *; [left; congruence|right; eauto].
Qed.

Lemma listed_free_list (s : state) (x : Z) :
  length (free_area s) = Z.to_nat (MAX_ORDER + 1) →
  x ∈ concat (free_area s) ↔ ∃ k l, free_list s k = Some l ∧ x ∈ l.
Proof.
  intros Hl. rewrite elem_of_concat. split.
  - intros (n & l & H1 & H2). exists (Z.of_nat n), l. split; [|done].
    unfold free_list. apply lookup_lt_Some in H1 as Hlt.
    rewrite decide_True by lia. by rewrite Nat2Z.id.
  - intros (k & l & H1 & H2). exists (Z.to_nat k), l. split; [|done].
    unfold free_list in H1. by case_decide.
Qed.

(** ** The blocks on the free lists *)

Lemma elem_of_tag_blocks (p k k0 : Z) (ll : list (list Z)) :
  (p, k) ∈ tag_blocks k0 ll ↔
  ∃ (n : nat) l, ll !! n = Some l ∧ k = k0 + Z.of_nat n ∧ p ∈ l.
Proof.
  revert k0. induction ll as [|l ll IH]; intros k0; simpl.
  - split; [by intros ?%elem_of_nil|by intros (n & l & ? & _)].
  - rewrite elem_of_app, IH, list_elem_of_fmap. split.
    + intros [(y & [= -> ->] & Hy)|(n & l' & H1 & -> & H2)].
      * exists 0%nat, l. split; [done|]. split; [lia|done].
      * exists (S n), l'. split; [done|]. split; [lia|done].
    + intros ([|n] & l' & H1 & -> & H2); simpl in *.
      * left. exists p. split; [f_equal; lia|congruence].
      * right. exists n, l'. split; [done|]. split; [lia|done].
Qed.

Lemma elem_of_free_blocks (s : state) (p k : Z) :
  length (free_area s) = Z.to_nat (MAX_ORDER + 1) →
  (p, k) ∈ free_blocks s ↔ ∃ l, free_list s k = Some l ∧ p ∈ l.
Proof.
  intros Hl. unfold free_blocks. rewrite elem_of_tag_blocks. split.
  - intros (n & l & H1 & -> & H2). exists l. split; [|done].
    unfold free_list. apply lookup_lt_Some in H1 as Hlt.
    rewrite decide_True by lia. by rewrite Z.add_0_l, Nat2Z.id.
  - intros (l & H1 & H2). exists (Z.to_nat k), l.
    unfold free_list in H1. case_decide; [|done]. split; [done|]. split; [lia|done].
Qed.

Lemma tag_blocks_filter (p k0 : Z) (ll : list (list Z)) :
  tag_blocks k0 (filter (λ x, x ≠ p) <$> ll) =
  filter (λ blk : block_t, blk.1 ≠ p) (tag_blocks k0 ll).
Proof.
  revert k0. induction ll as [|l ll IH]; intros k0; simpl; [done|].
  rewrite list.filter_app, IH. f_equal.
  induction l as [|x l IHl]; [done|].
  rewrite fmap_cons, !filter_cons. simpl.
  destruct (decide (x ≠ p)); [rewrite fmap_cons|]; by rewrite IHl.
Qed.

Lemma covers_tag_insert (b p k0 : Z) (n : nat) (l : list Z)
    (ll : list (list Z)) :
  ll !! n = Some l →
  covers b (tag_blocks k0 (<[n := p :: l]> ll)) =
  (covers b [(p, (k0 + Z.of_nat n)%Z)] + covers b (tag_blocks k0 ll))%nat.
Proof.
  revert k0 n. induction ll as [|l0 ll IH]; intros k0 n Hn; [done|].
  destruct n as [|n].
  - injection Hn as ->.
    change (<[0%nat := p :: l]> (l :: ll)) with ((p :: l) :: ll).
    cbn [tag_blocks]. rewrite Z.add_0_r, fmap_cons, !covers_app.
    rewrite (covers_cons b (p, k0) (_ <$> l)). by rewrite Nat.add_assoc.
  - change (<[S n := p :: l]> (l0 :: ll)) with (l0 :: <[n := p :: l]> ll).
    cbn [tag_blocks]. rewrite !covers_app, (IH (k0 + 1) n Hn).
    replace (k0 + 1 + Z.of_nat n) with (k0 + Z.of_nat (S n)) by lia. lia.
Qed.

Lemma covers_zero (b : Z) (l : list block_t) (blk : block_t) :
  covers b l = 0%nat → blk ∈ l → ¬ in_block b blk.
Proof.
  unfold covers. intros H%length_zero_iff_nil Hin Hb.
  by eapply filter_nil_not_elem_of.
Qed.

Lemma covers_elem (b : Z) (l : list block_t) (blk : block_t) :
  blk ∈ l → in_block b blk → (1 <= covers b l)%nat.
Proof.
  intros Hin Hb. destruct (covers b l) eqn:E; [|lia].
  by destruct (covers_zero _ _ _ E Hin).
Qed.

Lemma covers_filter_head (F : list block_t) (p k b : Z) :
  (p, k) ∈ F → (covers (p * PAGE_SIZE) F <= 1)%nat →
  (∀ k', (p, k') ∈ F → 0 < 2 ^ k') →
  covers b F =
  (covers b [(p, k)] + covers b (filter (λ blk : block_t, blk.1 ≠ p) F))%nat.
Proof.
  induction F as [|[p' k'] F IH]; intros Hin Hc Hpos; [by apply elem_of_nil in Hin|].
  rewrite covers_cons in Hc. rewrite filter_cons. simpl.
  destruct (decide (p' ≠ p)) as [Hne|Heq].
  - rewrite (covers_cons b (p', k')), (covers_cons b (p', k') (filter _ _)).
    rewrite IH; [lia| |lia|].
    + apply elem_of_cons in Hin as [[= ? ?]|?]; [congruence|done].
    + intros k'' ?. apply Hpos. by right.
  - assert (p' = p) as -> by (destruct (decide (p' = p)); [done|by destruct Heq]).
    assert (in_block (p * PAGE_SIZE) (p, k')) as Hb0.
    { unfold in_block. simpl. pose proof (Hpos k' ltac:(left)). lia. }
    rewrite covers_one, decide_True in Hc by done.
    assert (covers (p * PAGE_SIZE) F = 0%nat) as Hz by lia.
    assert (∀ k'', (p, k'') ∉ F) as Hnot.
    { intros k'' Hk''. eapply covers_zero; [done..|].
      unfold in_block. simpl. pose proof (Hpos k'' ltac:(by right)). lia. }
    apply elem_of_cons in Hin as [[= ->]|?]; [|by destruct (Hnot k)].
    rewrite (covers_cons b (p, k')). f_equal. f_equal.
    clear -Hnot. induction F as [|[q j] F IH]; [done|].
    rewrite filter_cons. simpl.
    rewrite decide_True.
    + f_equal. apply IH. intros k'' ?. apply (Hnot k''). by right.
    + intros ->. apply (Hnot j). by left.
Qed.

(** ** Consequences of the invariant *)

Lemma ADDR_TO_PAGE_page (p : Z) :
  0 <= p < N_PAGES → ADDR_TO_PAGE (PAGE_TO_ADDR p) = Some p.
Proof.
  intros Hp. unfold ADDR_TO_PAGE, PAGE_TO_ADDR.
  rewrite ulong_small by (consts; lia). by rewrite Z.div_mul.
Qed.

Lemma PAGE_TO_ADDR_inj (p q : Z) : PAGE_TO_ADDR p = PAGE_TO_ADDR q → p = q.
Proof. unfold PAGE_TO_ADDR. intros [= H]. consts. lia. Qed.

Lemma live_block_page (s : state) (p : Z) (pg : page_t) :
  page_at s p = Some pg →
  live_block s (PAGE_TO_ADDR p) = Some (p, pg_order pg).
Proof.
  intros H. unfold live_block.
  rewrite ADDR_TO_PAGE_page by (by eapply page_at_Some). simpl.
  by rewrite H.
Qed.

Lemma covers_blocks (s : state) (live : list ptr) (holes : list block_t) (b : Z) :
  covers b (blocks s live ++ holes) =
  (covers b (free_blocks s) + covers b (live_blocks s live) + covers b holes)%nat.
Proof. unfold blocks. by rewrite !covers_app. Qed.

Section invariant.
Context (s : state) (live : list ptr) (holes : list block_t).
Context (Hwf : wf s live holes).

Lemma wf_listed (x : Z) :
  x ∈ concat (free_area s) →
  ∃ k pg, (x, k) ∈ free_blocks s ∧ block_ok x k ∧
          page_at s x = Some pg ∧ pg_list pg = LH_linked.
Proof.
  intros (k & l & Hl & Hx)%listed_free_list; [|by apply Hwf].
  destruct (wf_free _ _ _ Hwf k l x Hl Hx) as (Hok & pg & Hpg & Hlk & _).
  exists k, pg. split; [|done].
  apply elem_of_free_blocks; [by apply Hwf|eauto].
Qed.

Lemma wf_live_block (a : ptr) :
  a ∈ live →
  ∃ p pg, a = PAGE_TO_ADDR p ∧ page_at s p = Some pg ∧
          pg_list pg = LH_self ∧ block_ok p (pg_order pg) ∧
          (p, pg_order pg) ∈ live_blocks s live.
Proof.
  intros Ha. destruct (wf_live _ _ _ Hwf a Ha) as (p & pg & -> & Hpg & Hl & Hok).
  exists p, pg. split_and!; try done.
  unfold live_blocks. apply list_elem_of_omap. exists (PAGE_TO_ADDR p).
  split; [done|]. by apply live_block_page.
Qed.

Lemma wf_hole_unlisted (p k : Z) :
  (p, k) ∈ holes → p ∉ concat (free_area s).
Proof.
  intros Hh (k' & pg & _ & _ & Hpg & Hlk)%wf_listed.
  destruct (wf_holes _ _ _ Hwf p k Hh) as (_ & pg' & Hpg' & Hn). congruence.
Qed.

Lemma wf_hole_not_live (p k : Z) :
  (p, k) ∈ holes → PAGE_TO_ADDR p ∉ live.
Proof.
  intros Hh (p' & pg & E & Hpg & _ & Hok & Hin)%wf_live_block.
  apply PAGE_TO_ADDR_inj in E as <-.
  destruct (wf_holes _ _ _ Hwf p k Hh) as (Hokh & _).
  pose proof (wf_cover _ _ _ Hwf (p * PAGE_SIZE)
    (block_in_arena _ _ _ Hok (block_start_in _ _ Hok))) as Hc.
  rewrite covers_blocks in Hc.
  pose proof (covers_elem _ _ _ Hin (block_start_in _ _ Hok)).
  pose proof (covers_elem _ _ _ Hh (block_start_in _ _ Hokh)). lia.
Qed.

Lemma wf_listed_not_hole_byte (x p j : Z) :
  (p, j) ∈ holes → x ∈ concat (free_area s) →
  ¬ in_block (x * PAGE_SIZE) (p, j).
Proof.
  intros Hh (k' & pg & Hin & Hok & _)%wf_listed Hb.
  pose proof (wf_cover _ _ _ Hwf (x * PAGE_SIZE)
    (block_in_arena _ _ _ Hok (block_start_in _ _ Hok))) as Hc.
  rewrite covers_blocks in Hc.
  pose proof (covers_elem _ _ _ Hin (block_start_in _ _ Hok)).
  pose proof (covers_elem _ _ _ Hh Hb). lia.
Qed.

Lemma wf_free_head_once (p : Z) :
  0 <= p < N_PAGES → (covers (p * PAGE_SIZE) (free_blocks s) <= 1)%nat.
Proof.
  intros Hp.
  assert (0 <= p * PAGE_SIZE < 2 ^ MAX_ORDER) as Hb by (consts; lia).
  pose proof (wf_cover _ _ _ Hwf _ Hb) as Hc.
  rewrite covers_blocks in Hc. lia.
Qed.
End invariant.

Lemma live_blocks_ext (s s' : state) (live : list ptr) :
  (∀ a, a ∈ live → live_block s' a = live_block s a) →
  live_blocks s' live = live_blocks s live.
Proof.
  unfold live_blocks. intros H. apply list_omap_ext.
  induction live as [|a live IH]; constructor.
  - apply H. by left.
  - apply IH. intros a' ?. apply H. by right.
Qed.

Lemma live_blocks_cons (s : state) (a : ptr) (live : list ptr) (blk : block_t) :
  live_block s a = Some blk →
  live_blocks s (a :: live) = blk :: live_blocks s live.
Proof. intros H. unfold live_blocks. csimpl. by rewrite H. Qed.

(** ** The primitive steps preserve the invariant *)

Lemma elem_of_concat_filter (x p : Z) (ll : list (list Z)) :
  x ∈ concat (filter (λ y, y ≠ p) <$> ll) ↔ x ≠ p ∧ x ∈ concat ll.
Proof.
  rewrite !elem_of_concat. split.
  - intros (n & l & H1 & H2). rewrite list_lookup_fmap in H1.
    destruct (ll !! n) as [l0|] eqn:E; [|done]. injection H1 as <-.
    apply list_elem_of_filter in H2 as [? ?]. eauto.
  - intros (Hne & n & l & H1 & H2). exists n, (filter (λ y, y ≠ p) l).
    rewrite list_lookup_fmap, H1. split; [done|]. by apply list_elem_of_filter.
Qed.

(** Taking a block off its free list leaves it in transit. *)
Lemma take_free (s : state) (live : list ptr) (holes : list block_t)
    (p k : Z) (l : list Z) :
  wf s live holes → free_list s k = Some l → p ∈ l →
  ∃ s', list_del_init p s = Some s' ∧ wf s' live ((p, k) :: holes) ∧
    free_area s' = filter (λ x, x ≠ p) <$> free_area s ∧
    (∀ i, page_at s' i =
          if decide (i = p) then with_list LH_self <$> page_at s i
          else page_at s i) ∧
    ∀ a, live_block s' a = live_block s a.
Proof.
  intros Hwf Hl Hp.
  destruct (wf_free _ _ _ Hwf k l p Hl Hp) as (Hok & pg & Hpg & Hlk & Hord).
  assert (p ∈ concat (free_area s)) as Hlisted.
  { apply listed_free_list; [by apply Hwf|eauto]. }
  pose proof (page_at_Some _ _ _ Hpg) as Hrange.
  eexists. split.
  { unfold list_del_init. rewrite Hpg. simpl. rewrite Hlk.
    by rewrite decide_True. }
  set (s' := mk_state _ _).
  assert (Hpages : ∀ i, page_at s' i =
    if decide (i = p) then with_list LH_self <$> page_at s i else page_at s i).
  { intros i. apply page_at_alter. lia. }
  assert (Hlists : ∀ j, free_list s' j = filter (λ x, x ≠ p) <$> free_list s j).
  { intros j. apply free_list_filter. }
  assert (Hlive : ∀ a, live_block s' a = live_block s a).
  { intros a. unfold live_block. destruct (ADDR_TO_PAGE a) as [i|]; [simpl|done].
    rewrite Hpages. case_decide; [|done]. by destruct (page_at s i). }
  split; [|done].
  split.
  - simpl. rewrite length_alter. apply Hwf.
  - simpl. rewrite length_fmap. apply Hwf.
  - intros i pgi. rewrite Hpages. case_decide as Hi.
    + subst i. rewrite Hpg. intros [= <-]. simpl. by apply (wf_fixed _ _ _ Hwf).
    + apply Hwf.
  - intros j Hj. rewrite Hlists, (wf_low _ _ _ Hwf j Hj). done.
  - intros j l' x. rewrite Hlists. intros Hj Hx.
    destruct (free_list s j) as [l0|] eqn:E; [|done]. injection Hj as <-.
    apply list_elem_of_filter in Hx as [Hne Hx].
    destruct (wf_free _ _ _ Hwf j l0 x E Hx) as (? & pgx & ? & ? & ?).
    split; [done|]. exists pgx. by rewrite Hpages, decide_False.
  - intros x pgx. rewrite Hpages. case_decide as Hx.
    + subst x. rewrite Hpg. by intros [= <-].
    + intros H1 H2. apply elem_of_concat_filter. split; [done|].
      by eapply wf_linked.
  - intros x pgx. rewrite Hpages. case_decide as Hx.
    + subst x. rewrite Hpg. by intros [= <-].
    + apply Hwf.
  - intros a Ha. destruct (wf_live _ _ _ Hwf a Ha) as (q & pgq & -> & Hq & Hself & Hokq).
    exists q, pgq. split_and!; try done.
    rewrite Hpages, decide_False; [done|]. intros ->. congruence.
  - intros q j [[= -> ->]|Hh]%elem_of_cons.
    + split; [done|]. eexists. rewrite Hpages, decide_True, Hpg by done. done.
    + destruct (wf_holes _ _ _ Hwf q j Hh) as (? & pgq & Hq & Hn).
      split; [done|]. exists pgq. rewrite Hpages, decide_False; [done|].
      intros ->. congruence.
  - intros b Hb. rewrite covers_blocks, covers_cons.
    rewrite (live_blocks_ext s s') by done.
    pose proof (wf_cover _ _ _ Hwf b Hb) as Hc. rewrite covers_blocks in Hc.
    unfold free_blocks at 1. simpl. rewrite tag_blocks_filter.
    change (tag_blocks 0 (free_area s)) with (free_blocks s).
    rewrite (covers_filter_head (free_blocks s) p k b) in Hc; [lia| | |].
    + apply elem_of_free_blocks; [apply Hwf|eauto].
    + by eapply wf_free_head_once.
    + intros k' (l' & Hl' & Hp')%elem_of_free_blocks; [|apply Hwf].
      eapply block_ok_pos, (wf_free _ _ _ Hwf); done.
  - intros j l' x Hlt. rewrite Hlists. intros Hj Hx.
    destruct (free_list s j) as [l0|] eqn:E; [|done]. injection Hj as <-.
    apply list_elem_of_filter in Hx as [Hne Hx].
    intros [_ Hb]%list_elem_of_filter.
    exact (wf_nobuddy _ _ _ Hwf j l0 x Hlt E Hx Hb).
Qed.

(** Putting a block in transit on the free list of its order. *)
Lemma put_free (s : state) (live : list ptr) (holes : list block_t) (p k : Z) :
  wf s live ((p, k) :: holes) →
  (k < MAX_ORDER → ∀ l, free_list s k = Some l → buddy_index p k ∉ l) →
  ∃ s1 s2 l, set_order p k s = Some s1 ∧ list_add p k s1 = Some s2 ∧
    wf s2 live holes ∧ free_list s k = Some l ∧
    free_area s2 = <[Z.to_nat k := p :: l]> (free_area s) ∧
    (∀ i, page_at s2 i =
          if decide (i = p)
          then with_list LH_linked <$> (with_order k <$> page_at s i)
          else page_at s i) ∧
    ∀ a, a ∈ live → live_block s2 a = live_block s a.
Proof.
  intros Hwf Hbud.
  destruct (wf_holes _ _ _ Hwf p k ltac:(left)) as (Hok & pg & Hpg & Hnl).
  pose proof (page_at_Some _ _ _ Hpg) as Hrange.
  destruct Hok as (Hk & _ & Hal). pose proof (conj Hk (conj Hrange Hal)) as Hok.
  destruct (free_list_is_Some s k) as [l Hl]; [apply Hwf|consts; lia|].
  pose proof (wf_hole_unlisted _ _ _ Hwf p k ltac:(left)) as Hunl.
  set (s1 := mk_state (free_area s) (alter (with_order k) (Z.to_nat p) (g_pages s))).
  set (s2 := mk_state (<[Z.to_nat k := p :: l]> (free_area s))
               (alter (with_list LH_linked) (Z.to_nat p) (g_pages s1))).
  assert (Hp1 : ∀ i, page_at s1 i =
    if decide (i = p) then with_order k <$> page_at s i else page_at s i).
  { intros i. apply page_at_alter. lia. }
  assert (Hpages : ∀ i, page_at s2 i =
    if decide (i = p) then with_list LH_linked <$> (with_order k <$> page_at s i)
    else page_at s i).
  { intros i. unfold s2. rewrite page_at_alter by lia. rewrite Hp1.
    by case_decide. }
  assert (Hlists : ∀ j, free_list s2 j =
    if decide (j = k) then Some (p :: l) else free_list s j).
  { intros j. exact (free_list_insert s _ k j l (p :: l) Hl). }
  exists s1, s2, l. split.
  { unfold set_order. by rewrite Hpg. }
  split.
  { unfold list_add. change (free_list s1 k) with (free_list s k). rewrite Hl. simpl.
    rewrite Hp1. destruct (decide (p = p)); [|done]. rewrite Hpg. simpl.
    by rewrite decide_False. }
  assert (Hlive : ∀ a, a ∈ live → live_block s2 a = live_block s a).
  { intros a Ha.
    destruct (wf_live _ _ _ Hwf a Ha) as (q & pgq & -> & Hq & _).
    rewrite (live_block_page s q pgq) by done. apply live_block_page.
    rewrite Hpages, decide_False; [done|]. intros ->.
    by apply (wf_hole_not_live _ _ _ Hwf p k ltac:(left)). }
  split; [|done].
  assert (Hlisted : ∀ x, x ∈ concat (free_area s) → x ∈ concat (free_area s2)).
  { intros x (j & l' & Hj & Hx)%listed_free_list; [|apply Hwf].
    apply listed_free_list; [simpl; rewrite length_insert; apply Hwf|].
    destruct (decide (j = k)) as [->|Hne].
    - exists k, (p :: l). rewrite Hlists, decide_True by done.
      split; [done|]. right. congruence.
    - exists j, l'. by rewrite Hlists, decide_False. }
  split.
  - simpl. rewrite !length_alter. apply Hwf.
  - simpl. rewrite length_insert. apply Hwf.
  - intros i pgi. rewrite Hpages. case_decide as Hi.
    + subst i. rewrite Hpg. intros [= <-]. simpl. by apply (wf_fixed _ _ _ Hwf).
    + apply Hwf.
  - intros j Hj. rewrite Hlists, decide_False by (consts; lia). by apply Hwf.
  - intros j l' x. rewrite Hlists. case_decide as Hj.
    + subst j. intros [= <-] [->|Hx]%elem_of_cons.
      * split; [done|]. eexists. rewrite Hpages, decide_True, Hpg by done.
        simpl. split; [done|]. split; [done|]. by left.
      * destruct (wf_free _ _ _ Hwf k l x Hl Hx) as (? & pgx & ? & ? & ?).
        split; [done|]. exists pgx. rewrite Hpages, decide_False; [done|].
        intros ->. congruence.
    + intros Hl' Hx.
      destruct (wf_free _ _ _ Hwf j l' x Hl' Hx) as (? & pgx & ? & ? & ?).
      split; [done|]. exists pgx. rewrite Hpages, decide_False; [done|].
      intros ->. congruence.
  - intros x pgx. rewrite Hpages. case_decide as Hx.
    + subst x. intros _ _. apply listed_free_list.
      { simpl. rewrite length_insert. apply Hwf. }
      exists k, (p :: l). rewrite Hlists, decide_True by done. split; [done|]. by left.
    + intros H1 H2. apply Hlisted. by eapply wf_linked.
  - intros x pgx. rewrite Hpages. case_decide as Hx.
    + subst x. rewrite Hpg. by intros [= <-].
    + apply Hwf.
  - intros a Ha. destruct (wf_live _ _ _ Hwf a Ha) as (q & pgq & -> & Hq & Hself & Hokq).
    exists q, pgq. split_and!; try done.
    rewrite Hpages, decide_False; [done|]. intros ->.
    by apply (wf_hole_not_live _ _ _ Hwf p k ltac:(left)).
  - intros q j Hh.
    destruct (wf_holes _ _ _ Hwf q j ltac:(by right)) as (Hokq & pgq & Hq & Hn).
    split; [done|]. exists pgq. rewrite Hpages, decide_False; [done|].
    intros ->.
    pose proof (wf_cover _ _ _ Hwf (p * PAGE_SIZE)
      (block_in_arena _ _ _ Hok (block_start_in _ _ Hok))) as Hc.
    rewrite covers_blocks, covers_cons, covers_one in Hc.
    rewrite decide_True in Hc by (by apply block_start_in).
    pose proof (covers_elem _ _ _ Hh (block_start_in _ _ Hokq)). lia.
  - intros b Hb. rewrite covers_blocks.
    rewrite (live_blocks_ext s s2) by done.
    pose proof (wf_cover _ _ _ Hwf b Hb) as Hc.
    rewrite covers_blocks, covers_cons in Hc.
    unfold free_blocks at 1. simpl.
    assert (free_area s !! Z.to_nat k = Some l) as Hl'.
    { unfold free_list in Hl. by case_decide. }
    rewrite (covers_tag_insert _ _ _ _ _ _ Hl').
    rewrite Z.add_0_l, Z2Nat.id by (consts; lia).
    change (tag_blocks 0 (free_area s)) with (free_blocks s). lia.
  - intros j l' x Hlt. rewrite Hlists. case_decide as Hj.
    + subst j. intros [= <-] Hx.
      apply elem_of_cons in Hx as [->|Hx].
      * intros [E|Hb]%elem_of_cons.
        -- by apply (buddy_ne p k).
        -- by apply (Hbud Hlt l).
      * destruct (wf_free _ _ _ Hwf k l x Hl Hx) as (Hokx & _).
        intros [E|Hb]%elem_of_cons.
        -- apply (Hbud Hlt l Hl). rewrite <- E.
           by rewrite buddy_involutive.
        -- exact (wf_nobuddy _ _ _ Hwf k l x Hlt Hl Hx Hb).
    + intros Hl' Hx. by eapply (wf_nobuddy _ _ _ Hwf).
Qed.

(** Handing a block in transit to the caller. *)
Lemma hand_out (s : state) (live : list ptr) (holes : list block_t)
    (p k : Z) (pg : page_t) :
  wf s live ((p, k) :: holes) → page_at s p = Some pg → pg_list pg = LH_self →
  ∃ s', set_order p k s = Some s' ∧ wf s' (PAGE_TO_ADDR p :: live) holes ∧
    free_area s' = free_area s ∧
    (∀ i, page_at s' i =
          if decide (i = p) then with_order k <$> page_at s i else page_at s i) ∧
    ∀ a, a ∈ live → live_block s' a = live_block s a.
Proof.
  intros Hwf Hpg Hself.
  destruct (wf_holes _ _ _ Hwf p k ltac:(left)) as (Hok & _).
  pose proof (page_at_Some _ _ _ Hpg) as Hrange.
  set (s' := mk_state (free_area s) (alter (with_order k) (Z.to_nat p) (g_pages s))).
  assert (Hpages : ∀ i, page_at s' i =
    if decide (i = p) then with_order k <$> page_at s i else page_at s i).
  { intros i. apply page_at_alter. lia. }
  exists s'. split.
  { unfold set_order. by rewrite Hpg. }
  assert (Hlive : ∀ a, a ∈ live → live_block s' a = live_block s a).
  { intros a Ha.
    destruct (wf_live _ _ _ Hwf a Ha) as (q & pgq & -> & Hq & _).
    rewrite (live_block_page s q pgq) by done. apply live_block_page.
    rewrite Hpages, decide_False; [done|]. intros ->.
    by apply (wf_hole_not_live _ _ _ Hwf p k ltac:(left)). }
  split; [|done].
  assert (Hkeep : ∀ x pgx, page_at s x = Some pgx →
    ∃ pgx', page_at s' x = Some pgx' ∧ pg_list pgx' = pg_list pgx ∧
            (x ≠ p → pgx' = pgx)).
  { intros x pgx Hx. rewrite Hpages. case_decide as Hxp.
    - subst x. rewrite Hx. simpl. eexists. split; [done|]. split; [done|]. done.
    - eauto. }
  split.
  - simpl. rewrite !length_alter. apply Hwf.
  - apply Hwf.
  - intros i pgi. rewrite Hpages. case_decide as Hi.
    + subst i. rewrite Hpg. intros [= <-]. simpl. by apply (wf_fixed _ _ _ Hwf).
    + apply Hwf.
  - apply Hwf.
  - intros j l' x Hl' Hx.
    destruct (wf_free _ _ _ Hwf j l' x Hl' Hx) as (? & pgx & ? & ? & ?).
    split; [done|]. exists pgx. rewrite Hpages, decide_False; [done|].
    intros ->. congruence.
  - intros x pgx. rewrite Hpages. case_decide as Hx.
    + subst x. rewrite Hpg. intros [= <-]. simpl. congruence.
    + apply Hwf.
  - intros x pgx. rewrite Hpages. case_decide as Hx.
    + subst x. rewrite Hpg. intros [= <-]. simpl. congruence.
    + apply Hwf.
  - intros a [->|Ha]%elem_of_cons.
    + exists p, (with_order k pg). rewrite Hpages, decide_True, Hpg by done. done.
    + destruct (wf_live _ _ _ Hwf a Ha) as (q & pgq & -> & Hq & Hs & Hokq).
      exists q, pgq. split_and!; try done.
      rewrite Hpages, decide_False; [done|]. intros ->.
      by apply (wf_hole_not_live _ _ _ Hwf p k ltac:(left)).
  - intros q j Hh.
    destruct (wf_holes _ _ _ Hwf q j ltac:(by right)) as (Hokq & pgq & Hq & Hn).
    split; [done|]. destruct (Hkeep _ _ Hq) as (pgx' & ? & E & _).
    exists pgx'. split; [done|]. congruence.
  - intros b Hb. rewrite covers_blocks.
    pose proof (wf_cover _ _ _ Hwf b Hb) as Hc.
    rewrite covers_blocks, covers_cons in Hc.
    rewrite (live_blocks_cons s' _ _ (p, k)).
    2:{ rewrite (live_block_page s' p (with_order k pg)); [done|].
        by rewrite Hpages, decide_True, Hpg. }
    rewrite covers_cons, (live_blocks_ext s s') by done.
    change (free_blocks s') with (free_blocks s). lia.
  - apply Hwf.
Qed.

(** Taking a block back from the caller. *)
Lemma take_live (s : state) (live1 live2 : list ptr) (a : ptr)
    (holes : list block_t) :
  wf s (live1 ++ a :: live2) holes →
  ∃ p pg, a = PAGE_TO_ADDR p ∧ page_at s p = Some pg ∧
          pg_list pg = LH_self ∧
          wf s (live1 ++ live2) ((p, pg_order pg) :: holes).
Proof.
  intros Hwf.
  destruct (wf_live _ _ _ Hwf a) as (p & pg & -> & Hpg & Hself & Hok).
  { apply elem_of_app. right. by left. }
  exists p, pg. split_and!; try done.
  split; try apply Hwf.
  - intros a Ha. apply (wf_live _ _ _ Hwf).
    apply elem_of_app in Ha as [?|?]; apply elem_of_app; [by left|right; by right].
  - intros q j [[= -> ->]|Hh]%elem_of_cons.
    + split; [done|]. exists pg. split; [done|]. congruence.
    + by apply (wf_holes _ _ _ Hwf).
  - intros b Hb. pose proof (wf_cover _ _ _ Hwf b Hb) as Hc.
    rewrite covers_blocks in *. unfold live_blocks in *.
    rewrite omap_app in *.
    change (omap (live_block s) (PAGE_TO_ADDR p :: live2))
      with (live_blocks s (PAGE_TO_ADDR p :: live2)) in Hc.
    rewrite (live_blocks_cons s _ _ (p, pg_order pg)) in Hc
      by (by apply live_block_page).
    rewrite covers_app in *. rewrite covers_cons in Hc. rewrite covers_cons.
    unfold live_blocks in Hc. lia.
Qed.

(** Cutting a block in transit into its two halves. *)
Lemma split_hole (s : state) (live : list ptr) (holes : list block_t) (p k : Z) :
  wf s live ((p, k + 1) :: holes) → MIN_ORDER <= k →
  wf s live ((buddy_index p k, k) :: (p, k) :: holes).
Proof.
  intros Hwf Hk.
  destruct (wf_holes _ _ _ Hwf p (k + 1) ltac:(left)) as (Hok1 & pg & Hpg & Hnl).
  destruct (child_ok p k Hok1 Hk) as (Hok & Hmin).
  assert (k < MAX_ORDER) as Hlt by (destruct Hok1 as (? & _); lia).
  pose proof (buddy_ok p k Hok Hlt) as Hokb.
  assert (Hsum : ∀ b, covers b [(p, k + 1)] =
    (covers b [(p, k)] + covers b [(buddy_index p k, k)])%nat).
  { intros b. rewrite <- covers_merge by done. by rewrite Hmin. }
  split; try apply Hwf.
  - intros q j [[= -> ->]|[[= -> ->]|Hh]%elem_of_cons]%elem_of_cons.
    + split; [done|].
      destruct (page_at_is_Some s (buddy_index p k)) as [pgb Hb];
        [apply Hwf|apply Hokb|].
      exists pgb. split; [done|]. intros Hlk.
      apply (wf_listed_not_hole_byte _ _ _ Hwf (buddy_index p k) p (k + 1)).
      * by left.
      * by eapply wf_linked.
      * pose proof (Hsum (buddy_index p k * PAGE_SIZE)) as E.
        rewrite !covers_one in E.
        rewrite (decide_True (P := in_block _ (buddy_index p k, k))) in E
          by (by apply block_start_in).
        destruct (decide (in_block (buddy_index p k * PAGE_SIZE) (p, k + 1)));
          [done|]. case_decide; lia.
    + split; [done|]. eauto.
    + apply (wf_holes _ _ _ Hwf). by right.
  - intros b Hb. pose proof (wf_cover _ _ _ Hwf b Hb) as Hc.
    rewrite covers_blocks in *.
    rewrite covers_cons, Hsum in Hc.
    rewrite (covers_cons _ (buddy_index p k, k)), (covers_cons _ (p, k)). lia.
Qed.

(** Joining a block in transit with its buddy, also in transit. *)
Lemma merge_holes (s : state) (live : list ptr) (holes : list block_t) (p k : Z) :
  wf s live ((buddy_index p k, k) :: (p, k) :: holes) → k < MAX_ORDER →
  wf s live ((Z.min p (buddy_index p k), k + 1) :: holes).
Proof.
  intros Hwf Hlt.
  destruct (wf_holes _ _ _ Hwf p k) as (Hok & pg & Hpg & Hnl);
    [right; by left|].
  destruct (wf_holes _ _ _ Hwf (buddy_index p k) k ltac:(left))
    as (Hokb & pgb & Hpgb & Hnlb).
  split; try apply Hwf.
  - intros q j [[= -> ->]|Hh]%elem_of_cons.
    + split; [by apply parent_ok|].
      destruct (Z.min_spec p (buddy_index p k)) as [[_ ->]|[_ ->]]; eauto.
    + apply (wf_holes _ _ _ Hwf). right. by right.
  - intros b Hb. pose proof (wf_cover _ _ _ Hwf b Hb) as Hc.
    rewrite covers_blocks in *.
    rewrite (covers_cons _ (buddy_index p k, k)), (covers_cons _ (p, k)) in Hc.
    rewrite covers_cons, covers_merge by done. lia.
Qed.

(** ** The initial state *)

Lemma buddy_init_boot : buddy_init boot = Some init_state.
Proof. vm_compute. reflexivity. Qed.

Lemma init_page_at (i : Z) (pg : page_t) :
  page_at init_state i = Some pg →
  pg = {| pg_list := if decide (i = 0) then LH_linked else LH_null;
          pg_order := -1; pg_index := i; pg_mem := PAGE_TO_ADDR i |}.
Proof.
  unfold page_at. case_decide as Hi; [|done]. unfold init_state. cbn [g_pages].
  rewrite list_lookup_fmap, lookup_seqZ_lt by lia. cbn [fmap option_fmap option_map].
  rewrite Z2Nat.id by lia. by intros [= <-].
Qed.

Lemma init_free_list (k p : Z) (l : list Z) :
  free_list init_state k = Some l → p ∈ l → k = MAX_ORDER ∧ p = 0.
Proof.
  unfold free_list. case_decide as Hk; [|done]. unfold init_state. cbn [free_area].
  intros Hl Hp. apply lookup_app_Some in Hl as [Hl|[Hlen Hl]].
  - apply lookup_replicate in Hl as [-> _]. by apply elem_of_nil in Hp.
  - rewrite length_replicate in *.
    destruct (Z.to_nat k - Z.to_nat MAX_ORDER)%nat as [|n] eqn:E; [|done].
    injection Hl as <-. apply list_elem_of_singleton in Hp. lia.
Qed.

Lemma wf_init : wf init_state [] [].
Proof.
  split.
  - done.
  - done.
  - intros i pg ->%init_page_at. done.
  - intros k Hk. unfold free_list. rewrite decide_True by (consts; lia).
    unfold init_state. cbn [free_area].
    rewrite lookup_app_l by (rewrite length_replicate; consts; lia).
    apply lookup_replicate. split; [done|]. consts. lia.
  - intros k l p Hl Hp. destruct (init_free_list _ _ _ Hl Hp) as [-> ->].
    split; [done|]. eexists. split; [done|]. split; [done|]. by right.
  - intros p pg Hpg. pose proof (init_page_at _ _ Hpg) as ->. simpl.
    case_decide as Hp; [|done]. subst p. intros _. vm_compute.
    repeat (apply elem_of_cons; (by left) || right). 
  - intros p pg ->%init_page_at. done.
  - intros a Ha. by apply elem_of_nil in Ha.
  - intros p k Hh. by apply elem_of_nil in Hh.
  - intros b Hb. change (blocks init_state [] ++ []) with [(0, MAX_ORDER)].
    rewrite covers_one, decide_True; [done|]. unfold in_block. simpl. lia.
  - intros k l p Hlt Hl Hp. destruct (init_free_list _ _ _ Hl Hp) as [-> ->]. lia.
Qed.

(** ** Each free block is listed once *)

Lemma block_ok_lower (p i k : Z) :
  block_ok p i → MIN_ORDER <= k <= i → block_ok p k.
Proof.
  intros (Hi & Hp & Ha) Hk. split; [lia|]. split; [done|].
  assert (0 < 2 ^ k) by (apply pow2_pos; consts; lia).
  assert (0 < 2 ^ i) by (apply pow2_pos; consts; lia).
  apply Z.mod_divide in Ha; [|lia]. apply Z.mod_divide; [lia|].
  etrans; [|exact Ha]. exists (2 ^ (i - k)).
  rewrite <- Z.pow_add_r by (consts; lia). f_equal. lia.
Qed.

Lemma buddy_upper (p i k : Z) :
  block_ok p i → MIN_ORDER <= k < i →
  buddy_index p k * PAGE_SIZE = p * PAGE_SIZE + 2 ^ k ∧
  Z.min p (buddy_index p k) = p.
Proof.
  intros Hok Hk.
  pose proof (block_ok_lower p i (k + 1) Hok ltac:(lia)) as Hok1.
  destruct (child_ok p k Hok1 ltac:(lia)) as (Hokk & Hmin).
  split; [|done].
  destruct (buddy_index_spec p k Hokk) as (d & Hd & Hd1 & H).
  { destruct Hok as ((_ & ?) & _). lia. }
  destruct H as [(_ & E & _)|(_ & E & _)]; rewrite E in *; lia.
Qed.

Lemma covers_fmap (b k : Z) (l : list Z) :
  covers b ((λ q, (q, k)) <$> l) = length (filter (λ q, in_block b (q, k)) l).
Proof.
  induction l as [|x l IH]; [done|].
  rewrite fmap_cons, covers_cons, covers_one, filter_cons, IH.
  by case_decide.
Qed.

Lemma covers_tag_ge (b k0 : Z) (n : nat) (l : list Z) (ll : list (list Z)) :
  ll !! n = Some l →
  (covers b ((λ q : Z, (q, (k0 + Z.of_nat n)%Z)) <$> l) <= covers b (tag_blocks k0 ll))%nat.
Proof.
  revert k0 n. induction ll as [|l0 ll IH]; intros k0 n Hn; [done|].
  cbn [tag_blocks]. rewrite covers_app. destruct n as [|n].
  - injection Hn as ->. rewrite Z.add_0_r. lia.
  - specialize (IH (k0 + 1) n Hn).
    replace (k0 + 1 + Z.of_nat n) with (k0 + Z.of_nat (S n)) in IH by lia. lia.
Qed.

Lemma NoDup_filter_le1 (l : list Z) (Q : Z → Z → Prop)
    `{∀ x y, Decision (Q x y)} :
  (∀ x, x ∈ l → Q x x) →
  (∀ x, x ∈ l → (length (filter (Q x) l) <= 1)%nat) →
  NoDup l.
Proof.
  induction l as [|a l IH]; intros Hrefl Hle; [constructor|].
  constructor.
  - intros Ha. pose proof (Hle a ltac:(left)) as Hc.
    rewrite filter_cons, decide_True in Hc by (apply Hrefl; by left).
    simpl in Hc.
    assert (a ∈ filter (Q a) l) as Hin.
    { apply list_elem_of_filter. split; [|done]. apply Hrefl. by right. }
    destruct (filter (Q a) l); [by apply elem_of_nil in Hin|simpl in Hc; lia].
  - apply IH.
    + intros x Hx. apply Hrefl. by right.
    + intros x Hx. pose proof (Hle x ltac:(by right)) as Hc.
      rewrite filter_cons in Hc. case_decide; simpl in Hc; lia.
Qed.

Section listed_once.
Context (s : state) (live : list ptr) (holes : list block_t).
Context (Hwf : wf s live holes).

Lemma wf_free_same_list (j j' p : Z) (l l' : list Z) :
  free_list s j = Some l → p ∈ l → free_list s j' = Some l' → p ∈ l' → j = j'.
Proof.
  intros Hl Hp Hl' Hp'.
  destruct (wf_free _ _ _ Hwf j l p Hl Hp) as (((Hj & _) & _) & pg & Hpg & _ & Ho).
  destruct (wf_free _ _ _ Hwf j' l' p Hl' Hp')
    as (((Hj' & _) & _) & pg' & Hpg' & _ & Ho').
  assert (pg' = pg) as -> by congruence.
  destruct Ho as [?|[? ?]], Ho' as [?|[? ?]]; consts; lia.
Qed.

Lemma wf_free_NoDup (k : Z) (l : list Z) : free_list s k = Some l → NoDup l.
Proof.
  intros Hl.
  apply (NoDup_filter_le1 l (λ x q, in_block (x * PAGE_SIZE) (q, k))).
  - intros x Hx. apply block_start_in. by apply (wf_free _ _ _ Hwf k l x).
  - intros x Hx.
    destruct (wf_free _ _ _ Hwf k l x Hl Hx) as ((_ & Hrange & _) & _).
    pose proof (wf_free_head_once _ _ _ Hwf x Hrange) as Hc.
    rewrite <- covers_fmap.
    assert (free_area s !! Z.to_nat k = Some l) as Hn.
    { unfold free_list in Hl. by case_decide. }
    pose proof (covers_tag_ge (x * PAGE_SIZE) 0 _ _ _ Hn) as Hge.
    rewrite Z.add_0_l, Z2Nat.id in Hge by (apply free_list_Some in Hl; lia).
    unfold free_blocks in Hc. lia.
Qed.

Lemma filter_ne_id (p : Z) (l : list Z) : p ∉ l → filter (λ x, x ≠ p) l = l.
Proof.
  induction l as [|a l IH]; intros Hp; [done|].
  rewrite filter_cons, decide_True.
  - f_equal. apply IH. intros ?. apply Hp. by right.
  - intros ->. apply Hp. by left.
Qed.

(** What unlinking [p] from the list of order [k] leaves on each list. *)
Lemma take_free_lists (k p : Z) (l : list Z) (j : Z) :
  free_list s k = Some l → p ∈ l →
  filter (λ x, x ≠ p) <$> free_list s j =
  if decide (j = k) then Some (filter (λ x, x ≠ p) l) else free_list s j.
Proof.
  intros Hl Hp. case_decide as Hj.
  - subst j. by rewrite Hl.
  - destruct (free_list s j) as [l'|] eqn:Hl'; [|done]. simpl. f_equal.
    apply filter_ne_id. intros Hp'. apply Hj.
    by apply (wf_free_same_list j k p l' l).
Qed.

Lemma take_free_head (k p : Z) (rest : list Z) :
  free_list s k = Some (p :: rest) → filter (λ x, x ≠ p) (p :: rest) = rest.
Proof.
  intros Hl. apply wf_free_NoDup in Hl. apply NoDup_cons_1_1 in Hl as Hp.
  rewrite filter_cons, decide_False by (intros H; by apply H).
  by apply filter_ne_id.
Qed.
End listed_once.

Lemma free_area_ext (s1 s2 : state) :
  length (free_area s1) = Z.to_nat (MAX_ORDER + 1) →
  length (free_area s2) = Z.to_nat (MAX_ORDER + 1) →
  (∀ j, free_list s1 j = free_list s2 j) → free_area s1 = free_area s2.
Proof.
  intros H1 H2 Hj. apply list_eq. intros n.
  destruct (decide (n < Z.to_nat (MAX_ORDER + 1))%nat) as [Hn|Hn].
  - specialize (Hj (Z.of_nat n)). unfold free_list in Hj.
    rewrite !decide_True, Nat2Z.id in Hj by lia. done.
  - rewrite !lookup_ge_None_2 by lia. done.
Qed.

Lemma length_concat_insert (ll : list (list Z)) (n : nat) (l : list Z) (x : Z) :
  ll !! n = Some l →
  length (concat (<[n := x :: l]> ll)) = S (length (concat ll)).
Proof.
  revert n. induction ll as [|l0 ll IH]; intros n Hn; [done|].
  destruct n as [|n]; simpl in *.
  - injection Hn as ->. simpl. done.
  - rewrite !length_app, (IH n Hn). lia.
Qed.

(** ** The loops *)

(** One iteration of either loop finds the buddy descriptor. *)
Ltac find_buddy p k Hmem :=
  rewrite Hmem; unfold BUDDY_ADDR, PAGE_TO_ADDR, shl1;
  rewrite (decide_True (P := 0 <= k < 31)) by (consts; lia);
  cbn [mbind option_bind ADDR_TO_PAGE];
  change (to_int (ulong (Z.lxor (ulong (p * PAGE_SIZE)) (Z.shiftl 1 k)) / PAGE_SIZE))
    with (buddy_index p k).

Lemma split_loop_spec (fuel : nat) :
  ∀ (s : state) (live : list ptr) (holes : list block_t) (p c t : Z),
  wf s live ((p, c) :: holes) → MIN_ORDER <= t <= c →
  (Z.to_nat (c - t) <= fuel)%nat →
  ∃ s', split_loop fuel p c t s = Some s' ∧ wf s' live ((p, t) :: holes) ∧
    page_at s' p = page_at s p ∧
    (∀ j, free_list s' j =
          if decide (t <= j < c) then (buddy_index p j ::.) <$> free_list s j
          else free_list s j) ∧
    (∀ a, a ∈ live → live_block s' a = live_block s a) ∧
    length (concat (free_area s')) =
    (length (concat (free_area s)) + Z.to_nat (c - t))%nat.
Proof.
  induction fuel as [|fuel IH]; intros s live holes p c t Hwf Ht Hfuel.
  - assert (c = t) as -> by lia. exists s. simpl.
    rewrite decide_False by lia. split_and!; try done; [|lia].
    intros j. by rewrite decide_False by lia.
  - simpl. case_decide as Hc.
    2:{ assert (c = t) as -> by lia. exists s. split_and!; try done; [|lia].
        intros j. by rewrite decide_False by lia. }
    destruct (wf_holes _ _ _ Hwf p c ltac:(left)) as (Hok & pg & Hpg & Hnl).
    destruct (wf_fixed _ _ _ Hwf p pg Hpg) as (_ & Hmem).
    assert (c <= MAX_ORDER) as Hcm by (by destruct Hok as ((_ & ?) & _)).
    rewrite Hpg. cbn [mbind option_bind].
    find_buddy p (c - 1) Hmem.
    replace c with (c - 1 + 1) in Hwf by lia.
    apply split_hole in Hwf; [|lia].
    destruct (wf_holes _ _ _ Hwf p (c - 1)) as (Hokp & _); [right; by left|].
    destruct (put_free _ _ _ _ _ Hwf)
      as (s1 & s2 & l & Hs1 & Hs2 & Hwf2 & Hl & Hfa & Hpages & Hlive2).
    { intros Hlt l Hl. rewrite buddy_involutive by (done || lia).
      intros Hin. apply (wf_hole_unlisted _ _ _ Hwf p (c - 1)); [right; by left|].
      apply listed_free_list; [apply Hwf|eauto]. }
    rewrite Hs1. cbn [mbind option_bind]. rewrite Hs2. cbn [mbind option_bind].
    destruct (IH s2 live holes p (c - 1) t Hwf2 ltac:(lia) ltac:(lia))
      as (s' & Hs' & Hwf' & Hp' & Hl' & Hlive' & Hlen').
    exists s'. split_and!; try done.
    + rewrite Hp', Hpages, decide_False; [done|].
      intros E. symmetry in E. revert E. apply buddy_ne; [done|lia].
    + intros j. rewrite Hl'.
      assert (∀ j', free_list s2 j' =
        if decide (j' = c - 1) then Some (buddy_index p (c - 1) :: l)
        else free_list s j') as Hl2.
      { intros j'. unfold free_list. rewrite Hfa.
        pose proof (free_list_insert s (g_pages s2) (c - 1) j' l
                      (buddy_index p (c - 1) :: l) Hl) as E.
        unfold free_list in E. simpl in E. exact E. }
      rewrite Hl2.
      destruct (decide (j = c - 1)) as [->|Hne].
      * rewrite decide_False, decide_True by lia. by rewrite Hl.
      * destruct (decide (t <= j < c - 1)).
        -- by rewrite decide_True by lia.
        -- by rewrite decide_False by lia.
    + intros a Ha. rewrite Hlive' by done. by apply Hlive2.
    + rewrite Hlen', Hfa.
      rewrite (length_concat_insert _ _ l).
      * lia.
      * unfold free_list in Hl. by case_decide.
Qed.

(** The loop of [buddy_free] stops where the buddy is not on the free
    list of the current order. *)
Lemma free_loop_stop (s : state) (live : list ptr) (holes : list block_t)
    (p k : Z) (fuel : nat) :
  wf s live ((p, k) :: holes) → k < MAX_ORDER →
  (∀ l, free_list s k = Some l → buddy_index p k ∉ l) →
  free_loop (S fuel) p k s = Some (s, p, k).
Proof.
  intros Hwf Hk Hnot. simpl. rewrite decide_True by done.
  destruct (wf_holes _ _ _ Hwf p k ltac:(left)) as (Hok & pg & Hpg & Hnl).
  destruct (wf_fixed _ _ _ Hwf p pg Hpg) as (_ & Hmem).
  assert (MIN_ORDER <= k) as Hkm by (by destruct Hok as ((? & _) & _)).
  rewrite Hpg. cbn [mbind option_bind].
  find_buddy p k Hmem.
  pose proof (buddy_ok p k Hok Hk) as Hokb.
  destruct (page_at_is_Some s (buddy_index p k)) as [pgb Hb];
    [apply Hwf|apply Hokb|].
  rewrite Hb. cbn [mbind option_bind].
  destruct (bool_decide (pg_order pgb ≠ k) || list_empty pgb) eqn:Hchk; [done|].
  exfalso.
  apply orb_false_iff in Hchk as [Ho%bool_decide_eq_false He].
  assert (pg_order pgb = k) as Hord
    by (by destruct (decide (pg_order pgb = k)); [|destruct Ho]).
  assert (pg_list pgb = LH_linked) as Hlk.
  { unfold list_empty in He. destruct (pg_list pgb) eqn:E; [|done..].
    pose proof (wf_null _ _ _ Hwf _ _ Hb E). consts. lia. }
  pose proof (wf_linked _ _ _ Hwf _ _ Hb Hlk) as Hlisted.
  apply listed_free_list in Hlisted as (j & l & Hl & Hin); [|apply Hwf].
  destruct (wf_free _ _ _ Hwf j l _ Hl Hin) as (_ & pgb' & Hb' & _ & Hord').
  assert (pgb' = pgb) as -> by congruence.
  assert (j = k) as -> by (destruct Hord' as [?|[? ?]]; consts; lia).
  by apply (Hnot l).
Qed.

(** It merges where the buddy is on the free list of the current order. *)
Lemma free_loop_merge (s : state) (live : list ptr) (holes : list block_t)
    (p k : Z) (l : list Z) (fuel : nat) :
  wf s live ((p, k) :: holes) → k < MAX_ORDER →
  free_list s k = Some l → buddy_index p k ∈ l →
  ∃ s1, list_del_init (buddy_index p k) s = Some s1 ∧
    free_loop (S fuel) p k s =
      free_loop fuel (Z.min p (buddy_index p k)) (k + 1) s1 ∧
    wf s1 live ((Z.min p (buddy_index p k), k + 1) :: holes) ∧
    free_area s1 = filter (λ x, x ≠ buddy_index p k) <$> free_area s ∧
    ∀ a, live_block s1 a = live_block s a.
Proof.
  intros Hwf Hk Hl Hin.
  destruct (wf_holes _ _ _ Hwf p k ltac:(left)) as (Hok & pg & Hpg & Hnl).
  destruct (wf_fixed _ _ _ Hwf p pg Hpg) as (_ & Hmem).
  assert (MIN_ORDER <= k) as Hkm by (by destruct Hok as ((? & _) & _)).
  destruct (wf_free _ _ _ Hwf k l _ Hl Hin) as (_ & pgb & Hb & Hlk & Hord).
  destruct (take_free _ _ _ _ _ _ Hwf Hl Hin)
    as (s1 & Hs1 & Hwf1 & Hfa & _ & Hlive1).
  exists s1. split; [done|]. split.
  { simpl. rewrite decide_True by done.
    rewrite Hpg. cbn [mbind option_bind].
    find_buddy p k Hmem. rewrite Hb. cbn [mbind option_bind].
    rewrite bool_decide_eq_false_2 by (destruct Hord as [?|[? _]]; [tauto|lia]).
    unfold list_empty. rewrite Hlk. cbn [orb].
    rewrite Hs1. cbn [mbind option_bind].
    pose proof (buddy_ne p k Hok Hk). f_equal. case_decide; lia. }
  split; [by apply merge_holes|done].
Qed.

Lemma free_loop_spec (fuel : nat) :
  ∀ (s : state) (live : list ptr) (holes : list block_t) (p k : Z),
  wf s live ((p, k) :: holes) → (Z.to_nat (MAX_ORDER - k) <= fuel)%nat →
  ∃ s' p' k', free_loop fuel p k s = Some (s', p', k') ∧
    wf s' live ((p', k') :: holes) ∧
    (k' < MAX_ORDER → ∀ l, free_list s' k' = Some l → buddy_index p' k' ∉ l) ∧
    ∀ a, live_block s' a = live_block s a.
Proof.
  induction fuel as [|fuel IH]; intros s live holes p k Hwf Hfuel.
  - exists s, p, k. simpl. rewrite decide_False by lia.
    split_and!; (done || lia).
  - destruct (decide (k < MAX_ORDER)) as [Hk|Hk].
    2:{ exists s, p, k. simpl. rewrite decide_False by done.
        split_and!; (done || lia). }
    destruct (free_list_is_Some s k) as [l Hl]; [apply Hwf| |].
    { destruct (wf_holes _ _ _ Hwf p k ltac:(left)) as (((? & ?) & _) & _).
      consts. lia. }
    destruct (decide (buddy_index p k ∈ l)) as [Hin|Hnin].
    + destruct (free_loop_merge s live holes p k l fuel Hwf Hk Hl Hin)
        as (s1 & _ & Hstep & Hwf1 & _ & Hlive1).
      destruct (IH s1 live holes _ (k + 1) Hwf1 ltac:(lia))
        as (s' & p' & k' & Hloop & Hwf' & Hbud' & Hlive').
      exists s', p', k'. rewrite Hstep. split_and!; try done.
      intros a. by rewrite Hlive'.
    + exists s, p, k. split_and!; try done.
      * apply (free_loop_stop s live holes); [done..|]. congruence.
      * intros _ l' Hl'. congruence.
Qed.

(** ** [orderFor] *)

Lemma orderFor_cases (size : Z) :
  (orderFor size = -1 ∧ ∀ o, MIN_ORDER <= o <= MAX_ORDER → 2 ^ o < size) ∨
  (MIN_ORDER <= orderFor size <= MAX_ORDER ∧ size <= 2 ^ orderFor size ∧
   ∀ o, MIN_ORDER <= o < orderFor size → 2 ^ o < size).
Proof.
  unfold orderFor.
  destruct (list_find _ _) as [[i o]|] eqn:E.
  - right. apply list_find_Some in E as (Hi & Ho & Hmin).
    apply lookup_seqZ in Hi as [-> Hi].
    rewrite Z.shiftl_1_l in Ho. split; [consts; lia|]. split; [lia|].
    intros o' Ho'.
    pose proof (Hmin (Z.to_nat (o' - MIN_ORDER)) o') as H.
    rewrite lookup_seqZ_lt in H by (consts; lia).
    rewrite Z.shiftl_1_l in H.
    assert (¬ 2 ^ o' >= size); [|lia].
    apply H; [f_equal; lia|consts; lia].
  - left. split; [done|]. intros o Ho.
    pose proof (proj1 (list_find_None _ _) E) as H.
    rewrite Forall_forall in H.
    specialize (H o). rewrite Z.shiftl_1_l in H.
    assert (¬ 2 ^ o >= size); [|lia].
    apply H. apply list_elem_of_In, elem_of_seqZ. consts. lia.
Qed.

Lemma orderFor_too_big (size : Z) :
  2 ^ MAX_ORDER < size → orderFor size = -1.
Proof.
  intros Hbig. destruct (orderFor_cases size) as [[E _]|(Ho & Hfit & _)]; [done|].
  exfalso. assert (2 ^ orderFor size <= 2 ^ MAX_ORDER); [|lia].
  apply Z.pow_le_mono_r; lia.
Qed.

(** ** [buddy_alloc] and [buddy_free] preserve the invariant *)

Lemma split_same (p o : Z) (s : state) : split p o o s = Some s.
Proof.
  unfold split. rewrite Z.sub_diag. simpl. by rewrite decide_False by lia.
Qed.

Lemma alloc_from_spec (s : state) (live : list ptr) (o i p : Z) (rest : list Z) :
  wf s live [] → MIN_ORDER <= o <= i → free_list s i = Some (p :: rest) →
  ∃ s1 s' pg, list_del_init p s = Some s1 ∧ alloc_from s o i p = Some s' ∧
    wf s' (PAGE_TO_ADDR p :: live) [] ∧
    page_at s' p = Some pg ∧ pg_mem pg = PAGE_TO_ADDR p ∧ pg_order pg = o ∧
    pg_list pg = LH_self ∧ block_ok p o ∧
    free_area s1 = filter (λ x, x ≠ p) <$> free_area s ∧
    (∀ j, free_list s' j =
          if decide (o <= j < i) then (buddy_index p j ::.) <$> free_list s1 j
          else free_list s1 j) ∧
    ∀ a, a ∈ live → live_block s' a = live_block s a.
Proof.
  intros Hwf Ho Hl.
  destruct (take_free _ _ _ p i _ Hwf Hl ltac:(left))
    as (s1 & Hs1 & Hwf1 & Hfa1 & Hp1 & Hlive1).
  destruct (split_loop_spec (Z.to_nat (i - o)) s1 live [] p i o Hwf1 Ho ltac:(lia))
    as (s2 & Hs2 & Hwf2 & Hp2 & Hl2 & Hlive2 & _).
  destruct (wf_free _ _ _ Hwf i _ p Hl ltac:(left)) as (Hoki & pg & Hpg & Hlk & _).
  assert (page_at s2 p = Some (with_list LH_self pg)) as Hpg2.
  { by rewrite Hp2, Hp1, decide_True, Hpg. }
  destruct (hand_out _ _ _ _ _ _ Hwf2 Hpg2 eq_refl)
    as (s3 & Hs3 & Hwf3 & Hfa3 & Hp3 & Hlive3).
  destruct (wf_holes _ _ _ Hwf2 p o ltac:(left)) as (Hoko & _).
  destruct (wf_fixed _ _ _ Hwf p pg Hpg) as (_ & Hmem).
  exists s1, s3, (with_order o (with_list LH_self pg)).
  split; [done|]. split.
  { unfold alloc_from. rewrite Hs1. cbn [mbind option_bind].
    fold (split p i o s1) in Hs2. rewrite Hs2. done. }
  split; [done|]. split.
  { by rewrite Hp3, decide_True, Hpg2. }
  split_and!; try done.
  - intros j. rewrite <- Hl2. unfold free_list. by rewrite Hfa3.
  - intros a Ha. by rewrite Hlive3, Hlive2, Hlive1.
Qed.

Lemma seqZ_succ (m : Z) (n : nat) :
  seqZ m (Z.of_nat (S n)) = m :: seqZ (m + 1) (Z.of_nat n).
Proof.
  rewrite seqZ_cons by lia. f_equal. f_equal; lia.
Qed.

Lemma alloc_scan_spec (n : nat) :
  ∀ (c : Z) (s : state) (live : list ptr) (o : Z),
  wf s live [] → MIN_ORDER <= o <= c → c + Z.of_nat n = MAX_ORDER + 1 →
  (alloc_scan (seqZ c (Z.of_nat n)) o s = Some (s, NULL) ∧
   ∀ j, c <= j <= MAX_ORDER → free_list s j = Some []) ∨
  (∃ i p rest s', c <= i <= MAX_ORDER ∧
     (∀ j, c <= j < i → free_list s j = Some []) ∧
     free_list s i = Some (p :: rest) ∧
     alloc_from s o i p = Some s' ∧
     alloc_scan (seqZ c (Z.of_nat n)) o s = Some (s', PAGE_TO_ADDR p)).
Proof.
  induction n as [|n IH]; intros c s live o Hwf Ho Hn.
  - left. split; [done|]. intros j Hj. lia.
  - rewrite seqZ_succ. cbn [alloc_scan].
    destruct (free_list_is_Some s c) as [l Hl]; [apply Hwf|consts; lia|].
    rewrite Hl. cbn [mbind option_bind].
    destruct l as [|p rest].
    + destruct (IH (c + 1) s live o Hwf ltac:(lia) ltac:(lia))
        as [[Hr Hall]|(i & p & rest & s' & Hi & Hbef & Hli & Hfrom & Hr)].
      * left. split; [done|]. intros j Hj.
        destruct (decide (j = c)) as [->|]; [done|]. apply Hall. lia.
      * right. exists i, p, rest, s'. split_and!; try done; try lia.
        intros j Hj. destruct (decide (j = c)) as [->|]; [done|]. apply Hbef. lia.
    + right.
      destruct (alloc_from_spec s live o c p rest Hwf Ho Hl)
        as (s1 & s' & pg & Hs1 & Hfrom & _ & Hpg & Hmem & _).
      exists c, p, rest, s'. split_and!; try done; try lia.
      unfold alloc_from in Hfrom. rewrite Hs1 in *. cbn [mbind option_bind] in *.
      case_decide as Hc.
      * subst c. rewrite split_same in Hfrom. cbn [mbind option_bind] in Hfrom.
        rewrite Hfrom. cbn [mbind option_bind]. rewrite Hpg.
        cbn [mbind option_bind]. by rewrite Hmem.
      * destruct (split p c o s1) as [s2|]; [|done]. cbn [mbind option_bind] in *.
        rewrite Hfrom. cbn [mbind option_bind]. rewrite Hpg.
        cbn [mbind option_bind]. by rewrite Hmem.
Qed.

Lemma buddy_alloc_spec (s : state) (live : list ptr) (size : Z) :
  wf s live [] →
  (buddy_alloc size s = Some (s, NULL) ∧
   (orderFor size = -1 ∨
    MIN_ORDER <= orderFor size <= MAX_ORDER ∧
    ∀ j, orderFor size <= j <= MAX_ORDER → free_list s j = Some [])) ∨
  (∃ i p rest s', MIN_ORDER <= orderFor size <= i ∧ i <= MAX_ORDER ∧
     (∀ j, orderFor size <= j < i → free_list s j = Some []) ∧
     free_list s i = Some (p :: rest) ∧
     alloc_from s (orderFor size) i p = Some s' ∧
     buddy_alloc size s = Some (s', PAGE_TO_ADDR p)).
Proof.
  intros Hwf. unfold buddy_alloc.
  destruct (orderFor_cases size) as [[E _]|(Ho & _)].
  - left. rewrite E. rewrite decide_True by done. split; [done|]. by left.
  - rewrite decide_False by (consts; lia).
    replace (MAX_ORDER - orderFor size + 1)
      with (Z.of_nat (Z.to_nat (MAX_ORDER - orderFor size + 1))) by lia.
    destruct (alloc_scan_spec (Z.to_nat (MAX_ORDER - orderFor size + 1))
                (orderFor size) s live (orderFor size) Hwf ltac:(lia) ltac:(lia))
      as [[Hr Hall]|(i & p & rest & s' & Hi & Hbef & Hli & Hfrom & Hr)].
    + left. split; [done|]. right. done.
    + right. exists i, p, rest, s'. split_and!; try done; lia.
Qed.

Lemma buddy_free_spec (s : state) (live1 live2 : list ptr) (a : ptr) :
  wf s (live1 ++ a :: live2) [] →
  ∃ s', buddy_free a s = Some s' ∧ wf s' (live1 ++ live2) [] ∧
    ∀ a', a' ∈ live1 ++ live2 → live_block s' a' = live_block s a'.
Proof.
  intros Hwf.
  destruct (take_live _ _ _ _ _ Hwf) as (p & pg & -> & Hpg & Hself & Hwf0).
  destruct (free_loop_spec (Z.to_nat (MAX_ORDER - pg_order pg)) s _ _ p _ Hwf0
              ltac:(lia)) as (s1 & p' & k' & Hloop & Hwf1 & Hbud & Hlive1).
  destruct (put_free _ _ _ _ _ Hwf1 Hbud)
    as (s2 & s3 & l & Hs2 & Hs3 & Hwf3 & _ & _ & _ & Hlive3).
  exists s3. split_and!; try done.
  2:{ intros a' Ha'. by rewrite Hlive3, Hlive1. }
  unfold buddy_free.
  rewrite ADDR_TO_PAGE_page by (by eapply page_at_Some).
  cbn [mbind option_bind]. rewrite Hpg. cbn [mbind option_bind].
  rewrite Hloop. cbn [mbind option_bind]. rewrite Hs2. done.
Qed.

Theorem reachable_wf (s : state) (live : list ptr) :
  reachable s live → wf s live [].
Proof.
  induction 1 as [s Hs|s live size s' a _ IH Ha Hnn|s live size s' _ IH Ha
                  |s live1 a live2 s' _ IH Hf].
  - rewrite buddy_init_boot in Hs. injection Hs as <-. apply wf_init.
  - destruct (buddy_alloc_spec s live size IH)
      as [[Hr _]|(i & p & rest & s'' & Ho & Hi & _ & Hl & Hfrom & Hr)].
    + congruence.
    + rewrite Hr in Ha. injection Ha as <- <-.
      destruct (alloc_from_spec s live _ i p rest IH Ho Hl)
        as (s1 & s2 & pg & _ & Hfrom' & Hwf' & _).
      congruence.
  - destruct (buddy_alloc_spec s live size IH)
      as [[Hr _]|(i & p & rest & s'' & _ & _ & _ & _ & _ & Hr)].
    + congruence.
    + rewrite Hr in Ha. discriminate.
  - destruct (buddy_free_spec s live1 live2 a IH) as (s'' & Hs'' & Hwf'' & _).
    congruence.
Qed.

(** ** The addresses in the descriptors never change *)

Lemma keeps_mem_refl (s : state) : keeps_mem s s.
Proof. intros i pg H. eauto. Qed.

Lemma keeps_mem_trans (s1 s2 s3 : state) :
  keeps_mem s1 s2 → keeps_mem s2 s3 → keeps_mem s1 s3.
Proof.
  intros H12 H23 i pg3 H3. destruct (H23 i pg3 H3) as (pg2 & H2 & E2).
  destruct (H12 i pg2 H2) as (pg1 & H1 & E1). exists pg1. split; [done|congruence].
Qed.

Lemma keeps_mem_alter (s : state) (fa : list (list Z)) (f : page_t → page_t)
    (p : Z) :
  0 <= p → (∀ pg, pg_mem (f pg) = pg_mem pg) →
  keeps_mem s (mk_state fa (alter f (Z.to_nat p) (g_pages s))).
Proof.
  intros Hp Hf i pg'. rewrite page_at_alter by done. case_decide.
  - destruct (page_at s i) as [pg|]; [|done]. intros [= <-]. eauto.
  - eauto.
Qed.

Lemma set_order_keeps_mem (p o : Z) (s s' : state) :
  set_order p o s = Some s' → keeps_mem s s'.
Proof.
  unfold set_order. destruct (page_at s p) as [pg|] eqn:Hp; [|done].
  intros [= <-]. apply keeps_mem_alter; [|done].
  apply page_at_Some in Hp. lia.
Qed.

Lemma list_add_keeps_mem (p k : Z) (s s' : state) :
  list_add p k s = Some s' → keeps_mem s s'.
Proof.
  unfold list_add. destruct (free_list s k); [|done].
  destruct (page_at s p) as [pg|] eqn:Hp; [|done]. simpl.
  case_decide; [done|]. intros [= <-]. apply keeps_mem_alter; [|done].
  apply page_at_Some in Hp. lia.
Qed.

Lemma list_del_init_keeps_mem (p : Z) (s s' : state) :
  list_del_init p s = Some s' → keeps_mem s s'.
Proof.
  unfold list_del_init. destruct (page_at s p) as [pg|] eqn:Hp; [|done]. simpl.
  destruct (pg_list pg); [done| |].
  - intros [= <-]. apply keeps_mem_refl.
  - case_decide; [|done]. intros [= <-]. apply keeps_mem_alter; [|done].
    apply page_at_Some in Hp. lia.
Qed.

Lemma split_loop_keeps_mem (fuel : nat) :
  ∀ (p c t : Z) (s s' : state),
  split_loop fuel p c t s = Some s' → keeps_mem s s'.
Proof.
  induction fuel as [|fuel IH]; intros p c t s s'; simpl.
  - case_decide; [done|]. intros [= <-]. apply keeps_mem_refl.
  - case_decide; [|intros [= <-]; apply keeps_mem_refl].
    destruct (page_at s p) as [pg|]; [|done]. cbn [mbind option_bind].
    destruct (BUDDY_ADDR _ _) as [baddr|]; [|done]. cbn [mbind option_bind].
    destruct (ADDR_TO_PAGE baddr) as [bidx|]; [|done]. cbn [mbind option_bind].
    destruct (set_order _ _ s) as [s1|] eqn:H1; [|done]. cbn [mbind option_bind].
    destruct (list_add _ _ s1) as [s2|] eqn:H2; [|done]. cbn [mbind option_bind].
    intros H3. eapply keeps_mem_trans; [|by eapply IH].
    eapply keeps_mem_trans; [by eapply set_order_keeps_mem|].
    by eapply list_add_keeps_mem.
Qed.

Lemma initialised_keeps (s s' : state) :
  initialised s → keeps_mem s s' → initialised s'.
Proof.
  intros Hi Hk i pg' H'. destruct (Hk i pg' H') as (pg & H & E).
  rewrite E. by apply Hi.
Qed.

(** A scan that returns [NULL] found every list empty and returns the
    state it was given. *)
Lemma alloc_scan_null (orders : list Z) (o : Z) (s s' : state) :
  initialised s → alloc_scan orders o s = Some (s', NULL) → s' = s.
Proof.
  intros Hi. induction orders as [|i orders IH]; simpl; [by intros [= <-]|].
  destruct (free_list s i) as [[|p l]|]; [|intros Hr; exfalso|done]; [done|].
  cbn [mbind option_bind] in Hr.
  assert (∀ s3 pg, keeps_mem s s3 → page_at s3 p = Some pg →
                   pg_mem pg ≠ NULL) as Hnn.
  { intros s3 pg Hk Hp. by rewrite (initialised_keeps s s3 Hi Hk p pg Hp). }
  destruct (list_del_init p s) as [s1|] eqn:H1; [|by case_decide].
  cbn [mbind option_bind] in Hr.
  pose proof (list_del_init_keeps_mem _ _ _ H1) as K1.
  case_decide.
  - destruct (set_order p o s1) as [s2|] eqn:H2; [|done].
    cbn [mbind option_bind] in Hr.
    destruct (page_at s2 p) as [pg|] eqn:Hp; [|done]. injection Hr as _ Hr.
    revert Hr. apply (Hnn s2); [|done].
    eapply keeps_mem_trans; [done|]. by eapply set_order_keeps_mem.
  - destruct (split p i o s1) as [s2|] eqn:H2; [|done].
    cbn [mbind option_bind] in Hr.
    destruct (set_order p o s2) as [s3|] eqn:H3; [|done].
    cbn [mbind option_bind] in Hr.
    destruct (page_at s3 p) as [pg|] eqn:Hp; [|done]. injection Hr as _ Hr.
    revert Hr. apply (Hnn s3); [|done].
    eapply keeps_mem_trans; [done|].
    eapply keeps_mem_trans; [by eapply split_loop_keeps_mem|].
    by eapply set_order_keeps_mem.
Qed.

Lemma buddy_init_initialised (s0 s : state) :
  buddy_init s0 = Some s → initialised s.
Proof.
  unfold buddy_init. intros H%list_add_keeps_mem i pg Hpg.
  destruct (H i pg Hpg) as (pg0 & H0 & ->). clear H Hpg.
  unfold page_at in H0. case_decide; [|done]. simpl in H0.
  rewrite list_lookup_imap in H0.
  destruct (g_pages s0 !! Z.to_nat i); [|done]. injection H0 as <-. simpl.
  by rewrite Z2Nat.id by lia.
Qed.

Lemma reachable_initialised (s : state) (live : list ptr) :
  reachable s live → initialised s.
Proof. intros Hr%reachable_wf i pg H. by apply (wf_fixed _ _ _ Hr). Qed.

Lemma alloc_scan_keeps_mem (orders : list Z) (o : Z) (s s' : state) (r : ptr) :
  alloc_scan orders o s = Some (s', r) → keeps_mem s s'.
Proof.
  induction orders as [|i orders IH]; simpl.
  { intros [= <- _]. apply keeps_mem_refl. }
  destruct (free_list s i) as [[|p l]|]; [done| |done].
  cbn [mbind option_bind]. intros Hr.
  destruct (list_del_init p s) as [s1|] eqn:H1; [|by case_decide].
  cbn [mbind option_bind] in Hr.
  pose proof (list_del_init_keeps_mem _ _ _ H1) as K1.
  case_decide.
  - destruct (set_order p o s1) as [s2|] eqn:H2; [|done].
    cbn [mbind option_bind] in Hr.
    destruct (page_at s2 p) as [pg|]; [|done]. injection Hr as <- _.
    eapply keeps_mem_trans; [done|]. by eapply set_order_keeps_mem.
  - destruct (split p i o s1) as [s2|] eqn:H2; [|done].
    cbn [mbind option_bind] in Hr.
    destruct (set_order p o s2) as [s3|] eqn:H3; [|done].
    cbn [mbind option_bind] in Hr.
    destruct (page_at s3 p) as [pg|]; [|done]. injection Hr as <- _.
    eapply keeps_mem_trans; [done|].
    eapply keeps_mem_trans; [by eapply split_loop_keeps_mem|].
    by eapply set_order_keeps_mem.
Qed.

Lemma buddy_alloc_keeps_mem (size : Z) (s s' : state) (r : ptr) :
  buddy_alloc size s = Some (s', r) → keeps_mem s s'.
Proof.
  unfold buddy_alloc. case_decide.
  - intros [= <- _]. apply keeps_mem_refl.
  - apply alloc_scan_keeps_mem.
Qed.

Lemma free_loop_keeps_mem (fuel : nat) :
  ∀ (p k : Z) (s s' : state) (p' k' : Z),
  free_loop fuel p k s = Some (s', p', k') → keeps_mem s s'.
Proof.
  induction fuel as [|fuel IH]; intros p k s s' p' k'; simpl.
  - case_decide; [done|]. intros [= <- _ _]. apply keeps_mem_refl.
  - case_decide; [|intros [= <- _ _]; apply keeps_mem_refl].
    destruct (page_at s p) as [pg|]; [|done]. cbn [mbind option_bind].
    destruct (BUDDY_ADDR _ _) as [baddr|]; [|done]. cbn [mbind option_bind].
    destruct (ADDR_TO_PAGE baddr) as [bidx|]; [|done]. cbn [mbind option_bind].
    destruct (page_at s (to_int bidx)) as [buddy|]; [|done].
    cbn [mbind option_bind].
    destruct (_ || _).
    + intros [= <- _ _]. apply keeps_mem_refl.
    + destruct (list_del_init _ s) as [s1|] eqn:H1; [|done].
      cbn [mbind option_bind]. intros H2.
      eapply keeps_mem_trans; [by eapply list_del_init_keeps_mem|by eapply IH].
Qed.

Lemma buddy_free_keeps_mem (a : ptr) (s s' : state) :
  buddy_free a s = Some s' → keeps_mem s s'.
Proof.
  unfold buddy_free.
  destruct (ADDR_TO_PAGE a) as [idx|]; [|done]. cbn [mbind option_bind].
  destruct (page_at s idx) as [pg|]; [|done]. cbn [mbind option_bind].
  destruct (free_loop _ _ _ s) as [[[s1 p] k]|] eqn:H1; [|done].
  cbn [mbind option_bind].
  destruct (set_order p k s1) as [s2|] eqn:H2; [|done].
  cbn [mbind option_bind]. intros H3.
  eapply keeps_mem_trans; [by eapply free_loop_keeps_mem|].
  eapply keeps_mem_trans; [by eapply set_order_keeps_mem|].
  by eapply list_add_keeps_mem.
Qed.

(** ** Sample runs are reachable *)

Example dump_init_state : buddy_dump init_state = [0; 0; 0; 0; 0; 0; 0; 0; 1].
Proof. vm_compute. reflexivity. Qed.

Example dump_one_page : buddy_dump one_page = [1; 1; 1; 1; 1; 1; 1; 1; 0].
Proof. vm_compute. reflexivity. Qed.

Example dump_exhausted : buddy_dump exhausted = [0; 0; 0; 0; 0; 0; 0; 0; 0].
Proof. vm_compute. reflexivity. Qed.

Lemma reachable_init : reachable init_state [].
Proof. apply reach_init, buddy_init_boot. Qed.

Lemma alloc_one_page : buddy_alloc 4096 init_state = Some (one_page, Mem 0).
Proof. vm_compute. reflexivity. Qed.

Lemma alloc_two_blocks : buddy_alloc 5000 one_page = Some (two_blocks, Mem 8192).
Proof. vm_compute. reflexivity. Qed.

Lemma alloc_exhausted :
  buddy_alloc (2 ^ MAX_ORDER) init_state = Some (exhausted, Mem 0).
Proof. vm_compute. reflexivity. Qed.

Lemma reachable_one_page : reachable one_page [Mem 0].
Proof.
  eapply reach_alloc; [apply reachable_init|apply alloc_one_page|done].
Qed.

Lemma reachable_two_blocks : reachable two_blocks [Mem 8192; Mem 0].
Proof.
  eapply reach_alloc; [apply reachable_one_page|apply alloc_two_blocks|done].
Qed.

Lemma reachable_exhausted : reachable exhausted [Mem 0].
Proof.
  eapply reach_alloc; [apply reachable_init|apply alloc_exhausted|done].
Qed.

(** ** The claims *)

(** C4. Order computation: for a size between 1 and [2^MAX_ORDER],
    [orderFor] returns the smallest order in [MIN_ORDER, MAX_ORDER] whose
    block holds the size; for a larger size it returns -1.  [orderFor] is
    a function of the size alone: it neither reads nor changes the
    allocator state. *)
Theorem orderFor_spec (size : Z) :
  (1 <= size <= 2 ^ MAX_ORDER →
   MIN_ORDER <= orderFor size <= MAX_ORDER ∧ size <= 2 ^ orderFor size ∧
   ∀ o, MIN_ORDER <= o <= MAX_ORDER → size <= 2 ^ o → orderFor size <= o) ∧
  (2 ^ MAX_ORDER < size → orderFor size = -1).
Proof.
  destruct (orderFor_cases size) as [[E Hall]|(Ho & Hfit & Hmin)].
  - split; [|done]. intros Hs.
    specialize (Hall MAX_ORDER ltac:(consts; lia)). lia.
  - split.
    + intros _. split_and!; try done; try lia.
      intros o Ho' Hfit'. destruct (decide (orderFor size <= o)); [done|].
      specialize (Hmin o ltac:(lia)). lia.
    + intros Hbig. by apply orderFor_too_big.
Qed.

Lemma orderFor_spec_witness :
  1 <= 5000 <= 2 ^ MAX_ORDER ∧
  (MIN_ORDER <= orderFor 5000 <= MAX_ORDER ∧ 5000 <= 2 ^ orderFor 5000 ∧
   ∀ o, MIN_ORDER <= o <= MAX_ORDER → 5000 <= 2 ^ o → orderFor 5000 <= o) ∧
  2 ^ MAX_ORDER < 2 ^ MAX_ORDER + 1 ∧ orderFor (2 ^ MAX_ORDER + 1) = -1.
Proof.
  assert (H1 : 1 <= 5000 <= 2 ^ MAX_ORDER) by (vm_compute; split; discriminate).
  assert (H2 : 2 ^ MAX_ORDER < 2 ^ MAX_ORDER + 1) by (vm_compute; reflexivity).
  split; [exact H1|]. split; [exact (proj1 (orderFor_spec 5000) H1)|].
  split; [exact H2|]. exact (proj2 (orderFor_spec (2 ^ MAX_ORDER + 1)) H2).
Defined.

(** C10. A size that is zero or negative is rounded up like a size of one
    byte: [orderFor] returns [MIN_ORDER], and on a reachable state that
    still has a free block [buddy_alloc] succeeds and hands out a block of
    [2^MIN_ORDER] bytes. *)
Theorem alloc_nonpositive_size (s : state) (live : list ptr) (size k : Z)
    (l : list Z) :
  reachable s live → size <= 0 →
  MIN_ORDER <= k <= MAX_ORDER → free_list s k = Some l → l ≠ [] →
  orderFor size = MIN_ORDER ∧
  ∃ s' p, buddy_alloc size s = Some (s', PAGE_TO_ADDR p) ∧
          live_block s' (PAGE_TO_ADDR p) = Some (p, MIN_ORDER) ∧
          block_ok p MIN_ORDER.
Proof.
  intros Hr Hsize Hk Hl Hne. apply reachable_wf in Hr.
  assert (orderFor size = MIN_ORDER) as Ho.
  { destruct (orderFor_cases size) as [[_ Hall]|(Ho & _ & Hmin)].
    - specialize (Hall MIN_ORDER ltac:(consts; lia)).
      pose proof (pow2_pos MIN_ORDER ltac:(consts; lia)). lia.
    - destruct (decide (orderFor size = MIN_ORDER)); [done|].
      specialize (Hmin MIN_ORDER ltac:(lia)).
      pose proof (pow2_pos MIN_ORDER ltac:(consts; lia)). lia. }
  split; [done|].
  destruct (buddy_alloc_spec s live size Hr)
    as [[_ [E|[_ Hall]]]|(i & p & rest & s' & Hoi & Hi & _ & Hli & Hfrom & Hres)].
  - rewrite Ho in E. consts. lia.
  - rewrite Hall in Hl by lia. by injection Hl as <-.
  - destruct (alloc_from_spec s live _ i p rest Hr Hoi Hli)
      as (s1 & s'' & pg & _ & Hfrom' & _ & Hpg & _ & Hord & _ & Hok & _).
    assert (s'' = s') as -> by congruence.
    exists s', p. split; [done|]. rewrite Ho in *.
    split; [|done]. rewrite <- Hord. by apply live_block_page.
Qed.

Lemma alloc_nonpositive_size_witness :
  reachable one_page [Mem 0] ∧ -5 <= 0 ∧ MIN_ORDER <= 13 <= MAX_ORDER ∧
  free_list one_page 13 = Some [2] ∧
  orderFor (-5) = MIN_ORDER ∧
  ∃ s' p, buddy_alloc (-5) one_page = Some (s', PAGE_TO_ADDR p) ∧
          live_block s' (PAGE_TO_ADDR p) = Some (p, MIN_ORDER) ∧
          block_ok p MIN_ORDER.
Proof.
  assert (H1 : -5 <= 0) by (vm_compute; discriminate).
  assert (H2 : MIN_ORDER <= 13 <= MAX_ORDER) by (vm_compute; split; discriminate).
  assert (H3 : free_list one_page 13 = Some [2]) by (vm_compute; reflexivity).
  split; [exact reachable_one_page|]. split; [exact H1|]. split; [exact H2|].
  split; [exact H3|].
  refine (alloc_nonpositive_size one_page [Mem 0] (-5) 13 [2]
            reachable_one_page H1 H2 H3 _).
  discriminate.
Defined.

(** C7. Single failure channel: on a reachable state [buddy_alloc] always
    returns (it never aborts).  Its result is [NULL] exactly in two cases,
    which the result does not tell apart: the size has no order
    ([orderFor] gives -1, as for every size above [2^MAX_ORDER]), or every
    free list from the computed order up to [MAX_ORDER] is empty. *)
Theorem alloc_failure_channel (s : state) (live : list ptr) (size : Z) :
  reachable s live →
  ∃ s' r, buddy_alloc size s = Some (s', r) ∧
    (r = NULL ↔
     orderFor size = -1 ∨
     ∀ j, orderFor size <= j <= MAX_ORDER → free_list s j = Some []) ∧
    (2 ^ MAX_ORDER < size → r = NULL).
Proof.
  intros Hr. apply reachable_wf in Hr.
  destruct (buddy_alloc_spec s live size Hr)
    as [[Hres Hwhy]|(i & p & rest & s' & Hoi & Hi & _ & Hli & _ & Hres)].
  - exists s, NULL. split; [done|]. split; [|done].
    split; [|done]. intros _. destruct Hwhy as [?|[_ ?]]; [by left|by right].
  - exists s', (PAGE_TO_ADDR p). split; [done|]. split; [split; [done|]|].
    + intros [E|Hall]; [consts; lia|].
      rewrite Hall in Hli by lia. done.
    + intros Hbig. pose proof (orderFor_too_big size Hbig). consts. lia.
Qed.

Example alloc_too_big :
  buddy_alloc (2 ^ MAX_ORDER + 1) init_state = Some (init_state, NULL).
Proof. vm_compute. reflexivity. Qed.

Example alloc_when_exhausted :
  buddy_alloc 4096 exhausted = Some (exhausted, NULL).
Proof. vm_compute. reflexivity. Qed.

Lemma alloc_failure_channel_witness :
  reachable exhausted [Mem 0] ∧
  ∃ s' r, buddy_alloc 4096 exhausted = Some (s', r) ∧
    (r = NULL ↔
     orderFor 4096 = -1 ∨
     ∀ j, orderFor 4096 <= j <= MAX_ORDER → free_list exhausted j = Some []) ∧
    (2 ^ MAX_ORDER < 4096 → r = NULL).
Proof.
  split; [exact reachable_exhausted|].
  exact (alloc_failure_channel exhausted [Mem 0] 4096 reachable_exhausted).
Defined.

(** C1. Partition invariant: in every reachable state each live address
    stands for one block, every block on a free list or handed out lies
    in the arena at an order the allocator manages, and every byte of the
    arena lies in exactly one of these blocks. *)
Theorem partition_invariant (s : state) (live : list ptr) :
  reachable s live →
  length (live_blocks s live) = length live ∧
  (∀ p k, (p, k) ∈ blocks s live → block_ok p k) ∧
  (∀ blk b, blk ∈ blocks s live → in_block b blk → 0 <= b < 2 ^ MAX_ORDER) ∧
  (∀ b, 0 <= b < 2 ^ MAX_ORDER → covers b (blocks s live) = 1%nat).
Proof.
  intros Hr. apply reachable_wf in Hr.
  assert (Hok : ∀ p k, (p, k) ∈ blocks s live → block_ok p k).
  { intros p k [Hf|Hl]%elem_of_app.
    - apply elem_of_free_blocks in Hf as (l & Hl & Hp); [|apply Hr].
      by apply (wf_free _ _ _ Hr k l p).
    - apply list_elem_of_omap in Hl as (a & Ha & Hb).
      destruct (wf_live _ _ _ Hr a Ha) as (q & pg & -> & Hq & _ & Hokq).
      rewrite (live_block_page s q pg) in Hb by done. by injection Hb as <- <-. }
  split_and!.
  - unfold live_blocks. clear Hok.
    assert (∀ a, a ∈ live → is_Some (live_block s a)) as Hsome.
    { intros a Ha. destruct (wf_live _ _ _ Hr a Ha) as (q & pg & -> & Hq & _).
      rewrite (live_block_page s q pg) by done. by eexists. }
    clear Hr. induction live as [|a live IH]; [done|]. csimpl.
    destruct (Hsome a ltac:(left)) as [blk ->]. simpl. f_equal.
    apply IH. intros a' ?. apply Hsome. by right.
  - done.
  - intros [p k] b Hin Hb. by apply (block_in_arena p k b); [apply Hok|].
  - intros b Hb. pose proof (wf_cover _ _ _ Hr b Hb) as Hc.
    by rewrite app_nil_r in Hc.
Qed.

Lemma partition_invariant_witness :
  reachable two_blocks [Mem 8192; Mem 0] ∧
  length (live_blocks two_blocks [Mem 8192; Mem 0]) = 2%nat ∧
  (∀ p k, (p, k) ∈ blocks two_blocks [Mem 8192; Mem 0] → block_ok p k) ∧
  (∀ blk b, blk ∈ blocks two_blocks [Mem 8192; Mem 0] → in_block b blk →
            0 <= b < 2 ^ MAX_ORDER) ∧
  (∀ b, 0 <= b < 2 ^ MAX_ORDER →
        covers b (blocks two_blocks [Mem 8192; Mem 0]) = 1%nat).
Proof.
  split; [exact reachable_two_blocks|].
  exact (partition_invariant two_blocks [Mem 8192; Mem 0] reachable_two_blocks).
Defined.

(** C3. Allocation guarantee: when [buddy_alloc] succeeds on a reachable
    state, the address it returns is the start of a page [p] whose
    descriptor now records the order computed for the size; the block of
    that order fits the request, lies in the arena, starts at a multiple
    of its size, and shares no byte with the block of any allocation that
    was live before, whose blocks are unchanged. *)
Theorem alloc_guarantee (s : state) (live : list ptr) (size : Z)
    (s' : state) (a : ptr) :
  reachable s live → buddy_alloc size s = Some (s', a) → a ≠ NULL →
  ∃ p, a = Mem (p * PAGE_SIZE) ∧
    live_block s' a = Some (p, orderFor size) ∧
    MIN_ORDER <= orderFor size <= MAX_ORDER ∧ size <= 2 ^ orderFor size ∧
    0 <= p * PAGE_SIZE ∧ p * PAGE_SIZE + 2 ^ orderFor size <= 2 ^ MAX_ORDER ∧
    (p * PAGE_SIZE) mod 2 ^ orderFor size = 0 ∧
    ∀ a', a' ∈ live →
      live_block s' a' = live_block s a' ∧
      ∀ blk b, live_block s' a' = Some blk →
               in_block b (p, orderFor size) → ¬ in_block b blk.
Proof.
  intros Hr Ha Hnn. apply reachable_wf in Hr.
  destruct (buddy_alloc_spec s live size Hr)
    as [[Hres _]|(i & p & rest & s1 & Hoi & Hi & _ & Hli & Hfrom & Hres)];
    [congruence|].
  rewrite Hres in Ha. injection Ha as <- <-.
  destruct (alloc_from_spec s live _ i p rest Hr Hoi Hli)
    as (s0 & s2 & pg & _ & Hfrom' & Hwf' & Hpg & _ & Hord & _ & Hok & _ & _ & Hlive).
  assert (s2 = s1) as -> by congruence.
  exists p. split; [done|].
  assert (live_block s1 (PAGE_TO_ADDR p) = Some (p, orderFor size)) as Hblk.
  { rewrite <- Hord. by apply live_block_page. }
  split; [done|]. split; [lia|].
  split.
  { destruct (orderFor_cases size) as [[E _]|(_ & ? & _)]; [consts; lia|done]. }
  pose proof (block_start_in _ _ Hok) as Hstart.
  pose proof (block_in_arena _ _ _ Hok Hstart) as Hlo.
  split; [lia|]. split.
  { destruct (decide (p * PAGE_SIZE + 2 ^ orderFor size <= 2 ^ MAX_ORDER));
      [done|].
    pose proof (block_ok_pos _ _ Hok).
    assert (in_block (2 ^ MAX_ORDER) (p, orderFor size)) as Hin
      by (unfold in_block; simpl; lia).
    pose proof (block_in_arena _ _ _ Hok Hin). lia. }
  split; [by destruct Hok as (_ & _ & ?)|].
  intros a' Ha'. split; [by apply Hlive|].
  intros blk b Hb' Hin Hin'.
  assert (0 <= b < 2 ^ MAX_ORDER) as Hb by (by eapply block_in_arena).
  pose proof (wf_cover _ _ _ Hwf' b Hb) as Hc.
  rewrite covers_blocks in Hc.
  rewrite (live_blocks_cons s1 _ _ _ Hblk), covers_cons, covers_one in Hc.
  rewrite decide_True in Hc by done.
  assert (blk ∈ live_blocks s1 live) as Hmem.
  { apply list_elem_of_omap. eauto. }
  pose proof (covers_elem _ _ _ Hmem Hin'). lia.
Qed.

Lemma alloc_guarantee_witness :
  reachable one_page [Mem 0] ∧
  buddy_alloc 5000 one_page = Some (two_blocks, Mem 8192) ∧ Mem 8192 ≠ NULL ∧
  ∃ p, Mem 8192 = Mem (p * PAGE_SIZE) ∧
    live_block two_blocks (Mem 8192) = Some (p, orderFor 5000) ∧
    MIN_ORDER <= orderFor 5000 <= MAX_ORDER ∧ 5000 <= 2 ^ orderFor 5000 ∧
    0 <= p * PAGE_SIZE ∧ p * PAGE_SIZE + 2 ^ orderFor 5000 <= 2 ^ MAX_ORDER ∧
    (p * PAGE_SIZE) mod 2 ^ orderFor 5000 = 0 ∧
    ∀ a', a' ∈ [Mem 0] →
      live_block two_blocks a' = live_block one_page a' ∧
      ∀ blk b, live_block two_blocks a' = Some blk →
               in_block b (p, orderFor 5000) → ¬ in_block b blk.
Proof.
  assert (H : Mem 8192 ≠ NULL) by discriminate.
  split; [exact reachable_one_page|]. split; [exact alloc_two_blocks|].
  split; [exact H|].
  exact (alloc_guarantee one_page [Mem 0] 5000 two_blocks (Mem 8192)
           reachable_one_page alloc_two_blocks H).
Defined.

(** C9, as the spec states it, fails: after [buddy_alloc(4096)] on the
    initial state the block at offset 0 is handed out, and its descriptor
    carries the order 12, not the value -1 that [buddy_init] wrote. *)
Lemma descriptor_sentinel_counterexample :
  reachable one_page [Mem 0] ∧ Mem 0 ∈ [Mem 0] ∧
  ADDR_TO_PAGE (Mem 0) = Some 0 ∧
  pg_order <$> page_at one_page 0 = Some 12 ∧ (12 : Z) ≠ -1.
Proof.
  split; [exact reachable_one_page|]. split; [by left|].
  split; [vm_compute; reflexivity|]. split; [vm_compute; reflexivity|].
  discriminate.
Qed.

Lemma serving_reachable (s : state) (live : list (ptr * Z)) :
  serving s live → reachable s live.*1.
Proof.
  induction 1 as [s Hs|s live size s' a _ IH Ha Hnn|s live size s' _ IH Ha
                  |s live1 a o live2 s' _ IH Hf].
  - by apply reach_init.
  - rewrite fmap_cons. by eapply reach_alloc.
  - by eapply reach_alloc_fail.
  - rewrite fmap_app, fmap_cons in IH. cbn [fst] in IH. rewrite fmap_app.
    by eapply reach_free.
Qed.

(** Every reachable state is served: the orders can be recorded along any
    sequence of calls. *)
Lemma reachable_serving (s : state) (live : list ptr) :
  reachable s live → ∃ served, serving s served ∧ served.*1 = live.
Proof.
  induction 1 as [s Hs|s live size s' a _ IH Ha Hnn|s live size s' _ IH Ha
                  |s live1 a live2 s' _ IH Hf].
  - exists []. split; [by apply serve_init|done].
  - destruct IH as (served & Hs & <-).
    exists ((a, orderFor size) :: served). split; [by eapply serve_alloc|done].
  - destruct IH as (served & Hs & <-).
    exists served. split; [by eapply serve_alloc_fail|done].
  - destruct IH as (served & Hs & E).
    apply fmap_app_inv in E as (s1 & s2' & -> & E & ->). symmetry in E.
    apply fmap_cons_inv in E as ([a' o] & s2 & E' & -> & ->).
    cbn [fst] in E'. subst a'.
    exists (s1 ++ s2). split; [by eapply serve_free|by rewrite fmap_app].
Qed.

(** The descriptor of a live block keeps the order computed for the
    request: [buddy_alloc] writes it, and no later call changes the order
    of a block that is still live. *)
Lemma serving_orders (s : state) (live : list (ptr * Z)) :
  serving s live →
  ∀ a o, (a, o) ∈ live → ∃ p, a = PAGE_TO_ADDR p ∧ live_block s a = Some (p, o).
Proof.
  induction 1 as [s Hs|s live size s' a Hsv IH Ha Hnn|s live size s' Hsv IH Ha
                  |s live1 a o live2 s' Hsv IH Hf].
  - intros a o Hin. by apply elem_of_nil in Hin.
  - pose proof (reachable_wf _ _ (serving_reachable _ _ Hsv)) as Hwf.
    destruct (buddy_alloc_spec s _ size Hwf)
      as [[Hnull _]|(i & p & rest & s'' & Ho & Hi & _ & Hl & Hfrom & Hsome)];
      [congruence|].
    rewrite Hsome in Ha. injection Ha as <- <-.
    destruct (alloc_from_spec s _ _ i p rest Hwf Ho Hl)
      as (s1 & s2 & pg & _ & Hfrom' & _ & Hpg & _ & Hord & _ & _ & _ & _ & Hlive).
    assert (s2 = s'') as -> by congruence.
    intros a o [[= -> ->]|Hin]%elem_of_cons.
    + exists p. split; [done|]. rewrite (live_block_page _ _ _ Hpg). by rewrite Hord.
    + destruct (IH a o Hin) as (q & -> & Hblk). exists q. split; [done|].
      rewrite Hlive; [done|]. apply list_elem_of_fmap. by exists (PAGE_TO_ADDR q, o).
  - pose proof (reachable_wf _ _ (serving_reachable _ _ Hsv)) as Hwf.
    destruct (buddy_alloc_spec s _ size Hwf)
      as [[Hnull _]|(i & p & rest & s'' & _ & _ & _ & _ & _ & Hsome)].
    + assert (s' = s) as -> by congruence. done.
    + rewrite Hsome in Ha. discriminate.
  - pose proof (reachable_wf _ _ (serving_reachable _ _ Hsv)) as Hwf.
    rewrite fmap_app, fmap_cons in Hwf. cbn [fst] in Hwf.
    destruct (buddy_free_spec _ _ _ _ Hwf) as (s'' & Hs'' & _ & Hlive).
    assert (s'' = s') as -> by congruence.
    intros a' o' Hin.
    destruct (IH a' o') as (q & -> & Hblk).
    { apply elem_of_app in Hin as [?|?]; apply elem_of_app; [by left|right; by right]. }
    exists q. split; [done|]. rewrite Hlive; [done|].
    rewrite <- fmap_app. apply list_elem_of_fmap. by exists (PAGE_TO_ADDR q, o').
Qed.

(** C9, amended. In every reachable state a descriptor that heads a block
    carries the order of that block, handed out or free.  For a block
    that is handed out it is the order the block was allocated at, the
    one [buddy_alloc] computed for the request that returned the address,
    whatever calls came in between; that order lies between [MIN_ORDER]
    and [MAX_ORDER] and the block starts at a multiple of its size; that
    the block is not free shows in its list entry, which is self-linked
    ([list_empty] holds) and on no free list.  For a block on the free
    list of order [k] the entry is linked and the order is [k]; only the
    block of the whole arena may still carry the -1 that [buddy_init]
    wrote.  By [reachable_serving] every reachable state is covered. *)
Theorem descriptor_carries_order (s : state) (live : list (ptr * Z)) :
  serving s live →
  reachable s live.*1 ∧
  (∀ a o, (a, o) ∈ live →
     ∃ p pg, a = PAGE_TO_ADDR p ∧ page_at s p = Some pg ∧
       pg_order pg = o ∧
       MIN_ORDER <= o <= MAX_ORDER ∧
       (p * PAGE_SIZE) mod 2 ^ o = 0 ∧
       live_block s a = Some (p, o) ∧
       list_empty pg = true ∧ p ∉ concat (free_area s)) ∧
  (∀ k l p, free_list s k = Some l → p ∈ l →
     ∃ pg, page_at s p = Some pg ∧ list_empty pg = false ∧
       (pg_order pg = k ∨ (k = MAX_ORDER ∧ pg_order pg = -1))).
Proof.
  intros Hsv. pose proof (serving_reachable _ _ Hsv) as Hreach.
  pose proof (reachable_wf _ _ Hreach) as Hr.
  split; [done|]. split.
  - intros a o Hin.
    destruct (serving_orders _ _ Hsv a o Hin) as (q & Ea & Hblk).
    destruct (wf_live _ _ _ Hr a) as (p & pg & -> & Hpg & Hself & Hok).
    { apply list_elem_of_fmap. by exists (a, o). }
    rewrite (live_block_page _ _ _ Hpg) in Hblk. injection Hblk as _ Ho.
    exists p, pg. rewrite <- Ho.
    split; [done|]. split; [done|]. split; [done|].
    split; [by destruct Hok as (? & _)|].
    split; [by destruct Hok as (_ & _ & ?)|].
    split; [by apply live_block_page|].
    split; [unfold list_empty; by rewrite Hself|].
    intros (k & pg' & _ & _ & Hpg' & Hlk)%(wf_listed _ _ _ Hr). congruence.
  - intros k l p Hl Hp.
    destruct (wf_free _ _ _ Hr k l p Hl Hp) as (_ & pg & Hpg & Hlk & Hord).
    exists pg. split; [done|]. split; [|done].
    unfold list_empty. by rewrite Hlk.
Qed.

Lemma serving_two_blocks : serving two_blocks [(Mem 8192, 13); (Mem 0, 12)].
Proof.
  apply (serve_alloc one_page [(Mem 0, 12)] 5000 two_blocks (Mem 8192));
    [|apply alloc_two_blocks|done].
  apply (serve_alloc init_state [] 4096 one_page (Mem 0));
    [|apply alloc_one_page|done].
  apply serve_init, buddy_init_boot.
Qed.

Lemma descriptor_carries_order_witness :
  serving two_blocks [(Mem 8192, 13); (Mem 0, 12)] ∧
  reachable two_blocks [(Mem 8192, 13); (Mem 0, 12)].*1 ∧
  (∀ a o, (a, o) ∈ [(Mem 8192, 13); (Mem 0, 12)] →
     ∃ p pg, a = PAGE_TO_ADDR p ∧ page_at two_blocks p = Some pg ∧
       pg_order pg = o ∧
       MIN_ORDER <= o <= MAX_ORDER ∧
       (p * PAGE_SIZE) mod 2 ^ o = 0 ∧
       live_block two_blocks a = Some (p, o) ∧
       list_empty pg = true ∧ p ∉ concat (free_area two_blocks)) ∧
  (∀ k l p, free_list two_blocks k = Some l → p ∈ l →
     ∃ pg, page_at two_blocks p = Some pg ∧ list_empty pg = false ∧
       (pg_order pg = k ∨ (k = MAX_ORDER ∧ pg_order pg = -1))).
Proof.
  split; [exact serving_two_blocks|].
  exact (descriptor_carries_order two_blocks [(Mem 8192, 13); (Mem 0, 12)]
           serving_two_blocks).
Defined.

(** The descriptors of the two live blocks and of the free page of
    [two_blocks], and the descriptor of the whole arena before any call. *)
Example descriptors_two_blocks :
  pg_order <$> page_at two_blocks 0 = Some 12 ∧
  pg_order <$> page_at two_blocks 2 = Some 13 ∧
  pg_order <$> page_at two_blocks 1 = Some 12 ∧
  free_list two_blocks 12 = Some [1] ∧
  pg_order <$> page_at init_state 0 = Some (-1) ∧
  free_list init_state MAX_ORDER = Some [0].
Proof. vm_compute. repeat split. Qed.

(** ** The free lists after an allocation *)

Lemma free_list_of_area (s s' : state) (ll : list (list Z)) (j : Z) :
  free_area s' = ll → free_list s' j = free_list (mk_state ll (g_pages s)) j.
Proof. intros <-. done. Qed.

Lemma alloc_from_lists (s : state) (live : list ptr) (o i p : Z)
    (rest : list Z) (s' : state) :
  wf s live [] → MIN_ORDER <= o <= i → free_list s i = Some (p :: rest) →
  (∀ j, o <= j < i → free_list s j = Some []) →
  alloc_from s o i p = Some s' →
  ∀ j, free_list s' j =
       if decide (j = i) then Some rest
       else if decide (o <= j < i) then Some [buddy_index p j]
       else free_list s j.
Proof.
  intros Hwf Ho Hl Hempty Hfrom j.
  destruct (alloc_from_spec s live o i p rest Hwf Ho Hl)
    as (s1 & s2 & pg & _ & Hfrom' & _ & _ & _ & _ & _ & _ & Hfa & Hlists & _).
  assert (s2 = s') as -> by congruence.
  assert (free_list s1 j =
    if decide (j = i) then Some rest else free_list s j) as H1.
  { rewrite (free_list_of_area s s1 _ j Hfa), free_list_filter.
    rewrite (take_free_lists _ _ _ Hwf i p (p :: rest) j Hl ltac:(left)).
    case_decide; [|done]. f_equal. by eapply take_free_head. }
  rewrite Hlists, H1.
  destruct (decide (j = i)) as [->|Hne].
  - by rewrite decide_False by lia.
  - case_decide; [|done]. by rewrite Hempty.
Qed.

(** C8. Failure atomicity: on every initialised state, reachable or not,
    a [buddy_alloc] that returns [NULL] returns the state it was given,
    free lists and descriptors alike.  On a reachable state, one that
    succeeds has completed its split chain: the block came off the head
    of the first non-empty free list at or above the requested order,
    every order between the requested one and that list's now holds
    exactly the buddy split off there, the other lists are as before, and
    the descriptor of the block records the requested order. *)
Theorem alloc_atomic :
  (∀ (s : state) (size : Z) (s' : state),
     initialised s → buddy_alloc size s = Some (s', NULL) → s' = s) ∧
  (∀ (s : state) (live : list ptr) (size : Z) (s' : state) (r : ptr),
     reachable s live → buddy_alloc size s = Some (s', r) → r ≠ NULL →
     ∃ i p rest, r = PAGE_TO_ADDR p ∧
       MIN_ORDER <= orderFor size <= i ∧ i <= MAX_ORDER ∧
       free_list s i = Some (p :: rest) ∧
       (∀ j, orderFor size <= j < i → free_list s j = Some []) ∧
       (∀ j, free_list s' j =
             if decide (j = i) then Some rest
             else if decide (orderFor size <= j < i)
                  then Some [buddy_index p j]
                  else free_list s j) ∧
       pg_order <$> page_at s' p = Some (orderFor size)).
Proof.
  split.
  - intros s size s' Hi. unfold buddy_alloc. case_decide.
    + by intros [= <-].
    + by apply alloc_scan_null.
  - intros s live size s' r Hr Ha Hnn. apply reachable_wf in Hr.
    destruct (buddy_alloc_spec s live size Hr)
      as [[Hres _]|(i & p & rest & s1 & Hoi & Hi & Hempty & Hli & Hfrom & Hres)];
      [congruence|].
    rewrite Hres in Ha. injection Ha as <- <-.
    exists i, p, rest. split; [done|]. split; [done|]. split; [done|].
    split; [done|]. split; [done|]. split.
    + by apply (alloc_from_lists s live _ i p rest s1).
    + destruct (alloc_from_spec s live _ i p rest Hr Hoi Hli)
        as (s0 & s2 & pg & _ & Hfrom' & _ & Hpg & _ & Hord & _).
      assert (s2 = s1) as -> by congruence.
      by rewrite Hpg, <- Hord.
Qed.

Lemma alloc_atomic_witness :
  (initialised exhausted ∧
   buddy_alloc 4096 exhausted = Some (exhausted, NULL) ∧
   exhausted = exhausted) ∧
  (reachable init_state [] ∧
   buddy_alloc 4096 init_state = Some (one_page, Mem 0) ∧ Mem 0 ≠ NULL ∧
   ∃ i p rest, Mem 0 = PAGE_TO_ADDR p ∧
     MIN_ORDER <= orderFor 4096 <= i ∧ i <= MAX_ORDER ∧
     free_list init_state i = Some (p :: rest) ∧
     (∀ j, orderFor 4096 <= j < i → free_list init_state j = Some []) ∧
     (∀ j, free_list one_page j =
           if decide (j = i) then Some rest
           else if decide (orderFor 4096 <= j < i) then Some [buddy_index p j]
           else free_list init_state j) ∧
     pg_order <$> page_at one_page p = Some (orderFor 4096)).
Proof.
  assert (Hi : initialised exhausted)
    by exact (reachable_initialised exhausted [Mem 0] reachable_exhausted).
  assert (Hn : Mem 0 ≠ NULL) by discriminate.
  split.
  - split; [exact Hi|]. split; [exact alloc_when_exhausted|].
    exact (proj1 alloc_atomic exhausted 4096 exhausted Hi alloc_when_exhausted).
  - split; [exact reachable_init|]. split; [exact alloc_one_page|].
    split; [exact Hn|].
    exact (proj2 alloc_atomic init_state [] 4096 one_page (Mem 0)
             reachable_init alloc_one_page Hn).
Defined.

(** C5. Split correctness: let a block headed by page [p] be on the free
    list of order [from_order] in a reachable state and let
    [list_del_init] have unlinked it, as [buddy_alloc] does before it
    calls [split].  Then [split] down to [to_order] returns, and at every
    order from [to_order] to [from_order - 1] it has put the buddy of the
    retained lower half, the block starting [2^k] bytes after it, at the
    head of that order's free list with the descriptor marked with that
    order and linked; the other lists are unchanged, so the lists gain
    [from_order - to_order] entries; and the address of the retained block
    is the address of the original one. *)
Theorem split_correct (s0 : state) (live : list ptr) (p from_order to_order : Z)
    (l : list Z) (s : state) :
  reachable s0 live → free_list s0 from_order = Some l → p ∈ l →
  list_del_init p s0 = Some s → MIN_ORDER <= to_order < from_order →
  ∃ s', split p from_order to_order s = Some s' ∧
    (∀ k, to_order <= k < from_order →
       free_list s' k = (buddy_index p k ::.) <$> free_list s k ∧
       buddy_index p k * PAGE_SIZE = p * PAGE_SIZE + 2 ^ k ∧
       ∃ pg, page_at s' (buddy_index p k) = Some pg ∧
             pg_order pg = k ∧ pg_list pg = LH_linked) ∧
    (∀ k, ¬ to_order <= k < from_order → free_list s' k = free_list s k) ∧
    length (concat (free_area s')) =
      (length (concat (free_area s)) + Z.to_nat (from_order - to_order))%nat ∧
    pg_mem <$> page_at s p = Some (PAGE_TO_ADDR p) ∧
    pg_mem <$> page_at s' p = Some (PAGE_TO_ADDR p).
Proof.
  intros Hr Hl Hp Hdel Hto. apply reachable_wf in Hr.
  destruct (take_free _ _ _ p from_order l Hr Hl Hp) as (s1 & Hs1 & Hwf1 & _).
  assert (s1 = s) as -> by congruence.
  destruct (split_loop_spec (Z.to_nat (from_order - to_order)) s live [] p
              from_order to_order Hwf1 ltac:(lia) ltac:(lia))
    as (s' & Hs' & Hwf' & Hpage & Hlists & _ & Hlen).
  destruct (wf_holes _ _ _ Hwf1 p from_order ltac:(left)) as (Hok & pg & Hpg & _).
  destruct (wf_fixed _ _ _ Hwf1 p pg Hpg) as (_ & Hmem).
  exists s'. split; [done|]. split.
  { intros k Hk. specialize (Hlists k). rewrite decide_True in Hlists by done.
    split; [done|]. split; [apply (buddy_upper p from_order k Hok); lia|].
    destruct (free_list_is_Some s k) as [lk Hlk];
      [apply Hwf1|destruct Hok as ((_ & ?) & _); consts; lia|].
    rewrite Hlk in Hlists.
    destruct (wf_free _ _ _ Hwf' k _ (buddy_index p k) Hlists ltac:(left))
      as (_ & pgb & Hb & Hlkd & Hord).
    exists pgb. split; [done|]. split; [|done].
    destruct Hord as [?|[? _]]; [done|].
    destruct Hok as ((_ & ?) & _). lia. }
  split.
  { intros k Hk. specialize (Hlists k). by rewrite decide_False in Hlists. }
  split; [done|]. split; [by rewrite Hpg, <- Hmem|].
  by rewrite Hpage, Hpg, <- Hmem.
Qed.

Lemma split_correct_witness :
  reachable init_state [] ∧ free_list init_state 20 = Some [0] ∧ 0 ∈ [0] ∧
  MIN_ORDER <= 12 < 20 ∧
  ∃ s, list_del_init 0 init_state = Some s ∧
  ∃ s', split 0 20 12 s = Some s' ∧
    (∀ k, 12 <= k < 20 →
       free_list s' k = (buddy_index 0 k ::.) <$> free_list s k ∧
       buddy_index 0 k * PAGE_SIZE = 0 * PAGE_SIZE + 2 ^ k ∧
       ∃ pg, page_at s' (buddy_index 0 k) = Some pg ∧
             pg_order pg = k ∧ pg_list pg = LH_linked) ∧
    (∀ k, ¬ 12 <= k < 20 → free_list s' k = free_list s k) ∧
    length (concat (free_area s')) =
      (length (concat (free_area s)) + Z.to_nat (20 - 12))%nat ∧
    pg_mem <$> page_at s 0 = Some (PAGE_TO_ADDR 0) ∧
    pg_mem <$> page_at s' 0 = Some (PAGE_TO_ADDR 0).
Proof.
  assert (H1 : free_list init_state 20 = Some [0]) by (vm_compute; reflexivity).
  assert (H2 : 0 ∈ [0]) by (by left).
  assert (H3 : MIN_ORDER <= 12 < 20) by (vm_compute; split; [discriminate|reflexivity]).
  split; [exact reachable_init|]. split; [exact H1|]. split; [exact H2|].
  split; [exact H3|].
  destruct (list_del_init 0 init_state) as [s|] eqn:Hdel; [|vm_compute in Hdel; discriminate].
  exists s. split; [reflexivity|].
  exact (split_correct init_state [] 0 20 12 [0] s reachable_init H1 H2 Hdel H3).
Defined.

(** ** Releasing *)

Lemma releasing_wf (s : state) (live : list ptr) (p k : Z) :
  releasing s live p k → wf s live [(p, k)].
Proof.
  induction 1 as [s live1 a live2 p pg Hr Ha Hpg|s live p k l s1 _ IH Hk Hl Hin Hdel].
  - apply reachable_wf in Hr.
    destruct (take_live _ _ _ _ _ Hr) as (p' & pg' & -> & Hpg' & _ & Hwf).
    rewrite ADDR_TO_PAGE_page in Ha by (by eapply page_at_Some).
    injection Ha as <-. by assert (pg' = pg) as -> by congruence.
  - destruct (free_loop_merge s live [] p k l 0 IH Hk Hl Hin)
      as (s1' & Hs1 & _ & Hwf1 & _).
    by assert (s1' = s1) as -> by congruence.
Qed.

Lemma alloc_two_pages : buddy_alloc 4096 one_page = Some (two_pages, Mem 4096).
Proof. vm_compute. reflexivity. Qed.

Lemma alloc_three_blocks :
  buddy_alloc 8192 two_pages = Some (three_blocks, Mem 8192).
Proof. vm_compute. reflexivity. Qed.

Lemma free_ragged : buddy_free (Mem 0) three_blocks = Some ragged.
Proof. vm_compute. reflexivity. Qed.

Lemma reachable_ragged : reachable ragged [Mem 8192; Mem 4096].
Proof.
  apply (reach_free three_blocks [Mem 8192; Mem 4096] (Mem 0) []);
    [|apply free_ragged].
  eapply reach_alloc; [|apply alloc_three_blocks|done].
  eapply reach_alloc; [|apply alloc_two_pages|done].
  apply reachable_one_page.
Qed.

Lemma releasing_ragged : releasing ragged [Mem 4096] 2 13.
Proof.
  refine (rel_start ragged [] (Mem 8192) [Mem 4096] 2
            {| pg_list := LH_self; pg_order := 13; pg_index := 2;
               pg_mem := Mem 8192 |} reachable_ragged _ _).
  - vm_compute. reflexivity.
  - vm_compute. reflexivity.
Qed.

(** C6. No false merge: let [buddy_free] be at the head of its loop,
    holding the block of page [p] and order [k] below [MAX_ORDER].  If the
    buddy page is handed out, or heads a free block of another order, or
    is on no free list, this turn of the loop stops there and changes
    nothing.  It merges exactly when the buddy is on the free list of
    order [k], and then goes on with the merged block.  And a free block
    whose own buddy is free at a different order is never the block this
    turn merges with. *)
Theorem no_false_merge (s : state) (live : list ptr) (p k : Z) (fuel : nat) :
  releasing s live p k → k < MAX_ORDER →
  (PAGE_TO_ADDR (buddy_index p k) ∈ live ∨
   (∃ j l, j ≠ k ∧ free_list s j = Some l ∧ buddy_index p k ∈ l) ∨
   buddy_index p k ∉ concat (free_area s) →
   free_loop (S fuel) p k s = Some (s, p, k)) ∧
  (∀ l, free_list s k = Some l → buddy_index p k ∈ l →
   ∃ s1, list_del_init (buddy_index p k) s = Some s1 ∧
     free_loop (S fuel) p k s =
       free_loop fuel (Z.min p (buddy_index p k)) (k + 1) s1 ∧
     releasing s1 live (Z.min p (buddy_index p k)) (k + 1)) ∧
  (∀ x kx lx j lj,
     free_list s kx = Some lx → x ∈ lx →
     free_list s j = Some lj → buddy_index x kx ∈ lj → j ≠ kx →
     ¬ (kx = k ∧ x = buddy_index p k)).
Proof.
  intros Hrel Hk. pose proof (releasing_wf _ _ _ _ Hrel) as Hwf.
  destruct (wf_holes _ _ _ Hwf p k ltac:(left)) as (Hok & _).
  split; [|split].
  - intros Hcase. apply (free_loop_stop s live []); [done..|].
    intros l Hl Hin.
    destruct (wf_free _ _ _ Hwf k l _ Hl Hin) as (_ & pgb & Hb & Hlk & _).
    destruct Hcase as [Hlive|[(j & l' & Hne & Hl' & Hin')|Hun]].
    + destruct (wf_live _ _ _ Hwf _ Hlive) as (q & pgq & E & Hq & Hself & _).
      apply PAGE_TO_ADDR_inj in E as <-. congruence.
    + apply Hne. by apply (wf_free_same_list _ _ _ Hwf j k (buddy_index p k) l' l).
    + apply Hun. apply listed_free_list; [apply Hwf|eauto].
  - intros l Hl Hin.
    destruct (free_loop_merge s live [] p k l fuel Hwf Hk Hl Hin)
      as (s1 & Hs1 & Hstep & _).
    exists s1. split; [done|]. split; [done|].
    by apply (rel_merge s live p k l s1).
  - intros x kx lx j lj Hlx Hx Hlj Hy Hne [-> ->].
    rewrite buddy_involutive in Hy by done.
    apply (wf_hole_unlisted _ _ _ Hwf p k ltac:(left)).
    apply listed_free_list; [apply Hwf|eauto].
Qed.

Lemma no_false_merge_witness :
  releasing ragged [Mem 4096] 2 13 ∧ 13 < MAX_ORDER ∧
  buddy_index 2 13 = 0 ∧ free_list ragged 12 = Some [0] ∧
  free_loop 7 2 13 ragged = Some (ragged, 2, 13).
Proof.
  assert (H1 : 13 < MAX_ORDER) by (vm_compute; reflexivity).
  assert (H2 : free_list ragged 12 = Some [0]) by (vm_compute; reflexivity).
  split; [exact releasing_ragged|]. split; [exact H1|].
  split; [vm_compute; reflexivity|]. split; [exact H2|].
  refine (proj1 (no_false_merge ragged [Mem 4096] 2 13 6 releasing_ragged H1) _).
  right. left. exists 12, [0]. split; [discriminate|]. split; [exact H2|].
  vm_compute. left.
Defined.

(** ** Releasing what was just allocated *)

(** From the requested order up to the order the block came from, every
    turn of the loop finds the buddy that [split] put on the free list
    and takes it back. *)
Lemma free_loop_chain (p i : Z) (live : list ptr) (n : nat) :
  ∀ (k : Z) (s : state) (fuel : nat),
  wf s live [(p, k)] → k + Z.of_nat n = i → MIN_ORDER <= k → block_ok p i →
  (∀ j, k <= j < i → free_list s j = Some [buddy_index p j]) →
  (i < MAX_ORDER → ∀ l, free_list s i = Some l → buddy_index p i ∉ l) →
  (Z.to_nat (MAX_ORDER - k) <= fuel)%nat →
  ∃ s', free_loop fuel p k s = Some (s', p, i) ∧ wf s' live [(p, i)] ∧
    ∀ j, free_list s' j =
         if decide (k <= j < i) then Some [] else free_list s j.
Proof.
  induction n as [|n IH]; intros k s fuel Hwf Hn Hk Hok Hsplit Hstop Hfuel.
  - assert (k = i) as -> by lia. exists s.
    split; [|split; [done|intros j; by rewrite decide_False by lia]].
    destruct (decide (i < MAX_ORDER)) as [Hi|Hi].
    + destruct fuel as [|fuel]; [lia|].
      by apply (free_loop_stop s live []); [..|apply Hstop].
    + destruct fuel; simpl; by rewrite decide_False.
  - assert (k < i <= MAX_ORDER) as Hki by (destruct Hok as ((_ & ?) & _); lia).
    destruct fuel as [|fuel]; [lia|].
    pose proof (Hsplit k ltac:(lia)) as Hlk.
    destruct (free_loop_merge s live [] p k _ fuel Hwf ltac:(lia) Hlk ltac:(left))
      as (s1 & _ & Hstep & Hwf1 & Hfa & _).
    destruct (buddy_upper p i k Hok ltac:(lia)) as (_ & Hmin).
    rewrite Hmin in *.
    assert (Hl1 : ∀ j, free_list s1 j =
      if decide (j = k) then Some [] else free_list s j).
    { intros j. rewrite (free_list_of_area s s1 _ j Hfa), free_list_filter.
      rewrite (take_free_lists _ _ _ Hwf k _ _ j Hlk ltac:(left)).
      case_decide; [|done]. f_equal.
      rewrite filter_cons, decide_False by (intros Hx; by apply Hx). done. }
    destruct (IH (k + 1) s1 fuel Hwf1 ltac:(lia) ltac:(lia) Hok)
      as (s' & Hloop & Hwf' & Hl').
    + intros j Hj. rewrite Hl1, decide_False by lia. apply Hsplit. lia.
    + intros Hi l. rewrite Hl1, decide_False by lia. by apply Hstop.
    + lia.
    + exists s'. rewrite Hstep. split; [done|]. split; [done|].
      intros j. rewrite Hl', Hl1.
      destruct (decide (j = k)) as [->|Hne].
      * by rewrite decide_False, decide_True by lia.
      * destruct (decide (k + 1 <= j < i)).
        -- by rewrite decide_True by lia.
        -- by rewrite decide_False by lia.
Qed.

(** C2. Round trip with complete coalescing: releasing the address that
    [buddy_alloc] has just returned on a reachable state brings every free
    list back to what it was before the allocation, entry for entry; and
    after any release on a reachable state no free list holds a block
    together with its buddy of the same order. *)
Theorem alloc_free_roundtrip :
  (∀ (s : state) (live : list ptr) (size : Z) (s1 : state) (a : ptr),
     reachable s live → buddy_alloc size s = Some (s1, a) → a ≠ NULL →
     ∃ s2, buddy_free a s1 = Some s2 ∧ free_area s2 = free_area s) ∧
  (∀ (s : state) (live1 live2 : list ptr) (a : ptr),
     reachable s (live1 ++ a :: live2) →
     ∃ s', buddy_free a s = Some s' ∧
       ∀ k l p, k < MAX_ORDER → free_list s' k = Some l → p ∈ l →
                buddy_index p k ∉ l).
Proof.
  split.
  - intros s live size s1 a Hr Ha Hnn. apply reachable_wf in Hr.
    destruct (buddy_alloc_spec s live size Hr)
      as [[Hres _]|(i & p & rest & s1' & Hoi & Hi & Hempty & Hli & Hfrom & Hres)];
      [congruence|].
    rewrite Hres in Ha. injection Ha as <- <-.
    destruct (alloc_from_spec s live _ i p rest Hr Hoi Hli)
      as (s0 & s1 & pg & _ & Hfrom' & Hwf1 & Hpg & _ & Hord & _ & Hoko & _).
    assert (s1 = s1') as -> by congruence.
    pose proof (alloc_from_lists s live _ i p rest s1' Hr Hoi Hli Hempty Hfrom)
      as Hl1.
    destruct (wf_free _ _ _ Hr i _ p Hli ltac:(left)) as (Hoki & _).
    destruct (take_live s1' [] live (PAGE_TO_ADDR p) [] Hwf1)
      as (p' & pg' & E & Hpg' & _ & Hwf0).
    apply PAGE_TO_ADDR_inj in E as <-.
    assert (pg' = pg) as -> by congruence. rewrite Hord in Hwf0.
    simpl in Hwf0.
    destruct (free_loop_chain p i live (Z.to_nat (i - orderFor size))
                (orderFor size) s1' (Z.to_nat (MAX_ORDER - orderFor size)) Hwf0
                ltac:(lia) ltac:(lia) Hoki)
      as (s2 & Hloop & Hwf2 & Hl2).
    { intros j Hj. by rewrite Hl1, decide_False, decide_True by lia. }
    { intros Hlt l. rewrite Hl1, decide_True by done. intros [= <-] Hin.
      apply (wf_nobuddy _ _ _ Hr i _ p Hlt Hli ltac:(left)). by right. }
    { lia. }
    destruct (put_free _ _ _ _ _ Hwf2)
      as (s3 & s4 & l & Hs3 & Hs4 & Hwf4 & Hl & Hfa4 & _).
    { intros Hlt l. rewrite Hl2, decide_False, Hl1, decide_True by lia.
      intros [= <-] Hin.
      apply (wf_nobuddy _ _ _ Hr i _ p Hlt Hli ltac:(left)). by right. }
    exists s4. split.
    + unfold buddy_free.
      rewrite ADDR_TO_PAGE_page by (by eapply page_at_Some).
      cbn [mbind option_bind]. rewrite Hpg. cbn [mbind option_bind].
      rewrite Hord, Hloop. cbn [mbind option_bind]. by rewrite Hs3.
    + apply free_area_ext; [apply Hwf4|apply Hr|]. intros j.
      rewrite (free_list_of_area s2 s4 _ j Hfa4).
      rewrite (free_list_insert s2 _ i j l (p :: l) Hl).
      rewrite Hl2, decide_False, Hl1, decide_True in Hl by lia.
      injection Hl as <-.
      destruct (decide (j = i)) as [->|Hne]; [done|].
      rewrite Hl2, Hl1, (decide_False (P := j = i)) by done.
      destruct (decide (orderFor size <= j < i)); [|done].
      by rewrite Hempty.
  - intros s live1 live2 a Hr. apply reachable_wf in Hr.
    destruct (buddy_free_spec s live1 live2 a Hr) as (s' & Hs' & Hwf' & _).
    exists s'. split; [done|]. apply (wf_nobuddy _ _ _ Hwf').
Qed.

Lemma alloc_free_roundtrip_witness :
  (reachable one_page [Mem 0] ∧
   buddy_alloc 5000 one_page = Some (two_blocks, Mem 8192) ∧ Mem 8192 ≠ NULL ∧
   ∃ s2, buddy_free (Mem 8192) two_blocks = Some s2 ∧
         free_area s2 = free_area one_page) ∧
  (reachable three_blocks ([Mem 8192; Mem 4096] ++ Mem 0 :: []) ∧
   ∃ s', buddy_free (Mem 0) three_blocks = Some s' ∧
     ∀ k l p, k < MAX_ORDER → free_list s' k = Some l → p ∈ l →
              buddy_index p k ∉ l).
Proof.
  assert (H : Mem 8192 ≠ NULL) by discriminate.
  assert (Hr : reachable three_blocks ([Mem 8192; Mem 4096] ++ Mem 0 :: [])).
  { eapply reach_alloc; [|apply alloc_three_blocks|done].
    eapply reach_alloc; [|apply alloc_two_pages|done].
    apply reachable_one_page. }
  split.
  - split; [exact reachable_one_page|]. split; [exact alloc_two_blocks|].
    split; [exact H|].
    exact (proj1 alloc_free_roundtrip one_page [Mem 0] 5000 two_blocks
             (Mem 8192) reachable_one_page alloc_two_blocks H).
  - split; [exact Hr|].
    exact (proj2 alloc_free_roundtrip three_blocks [Mem 8192; Mem 4096] []
             (Mem 0) Hr).
Defined.

(** * Further properties of the code *)

(** ** Blocks are nested or disjoint *)

Lemma block_nested (m a q j x y : Z) :
  block_ok m a → block_ok q j → a <= j →
  in_block x (m, a) → in_block x (q, j) → in_block y (m, a) →
  in_block y (q, j).
Proof.
  intros (Ha & _ & Hm) (Hj & _ & Hq) Hle Hx1 Hx2 Hy.
  unfold in_block in *. simpl in *.
  assert (0 < 2 ^ a) as Hpa by (apply pow2_pos; consts; lia).
  assert (2 ^ j = 2 ^ a * 2 ^ (j - a)) as Ej.
  { rewrite <- Z.pow_add_r by (consts; lia). f_equal. lia. }
  assert (0 < 2 ^ (j - a)) as He by (apply pow2_pos; lia).
  apply Z.mod_divide in Hm; [|lia]. destruct Hm as [A HA].
  apply Z.mod_divide in Hq; [|rewrite Ej; nia]. destruct Hq as [Q HQ].
  rewrite HA, HQ, Ej in *.
  set (E := 2 ^ (j - a)) in *. set (P := 2 ^ a) in *.
  assert (Q * E < A + 1) by nia.
  assert (A < Q * E + E) by nia.
  nia.
Qed.

Lemma block_same_start (p q k : Z) :
  block_ok p k → block_ok q k → in_block (p * PAGE_SIZE) (q, k) → p = q.
Proof.
  intros Hp Hq Hin.
  pose proof (block_nested q k p k _ (q * PAGE_SIZE) Hq Hp ltac:(lia)
                Hin (block_start_in _ _ Hp) (block_start_in _ _ Hq)) as H.
  unfold in_block in *. simpl in *. consts. lia.
Qed.

Lemma covers_pos (b : Z) (l : list block_t) :
  (0 < covers b l)%nat → ∃ blk, blk ∈ l ∧ in_block b blk.
Proof.
  unfold covers. destruct (filter (in_block b) l) as [|blk l'] eqn:E; simpl; [lia|].
  intros _. exists blk.
  assert (blk ∈ filter (in_block b) l) as Hin by (rewrite E; left).
  apply list_elem_of_filter in Hin as [? ?]. done.
Qed.

Lemma covers_two (b : Z) (l : list block_t) (blk1 blk2 : block_t) :
  blk1 ≠ blk2 → blk1 ∈ l → blk2 ∈ l → in_block b blk1 → in_block b blk2 →
  (2 <= covers b l)%nat.
Proof.
  intros Hne H1 H2 Hb1 Hb2. induction l as [|x l IH]; [by apply elem_of_nil in H1|].
  rewrite covers_cons, covers_one.
  apply elem_of_cons in H1 as [<-|H1], H2 as [<-|H2]; try done.
  - rewrite decide_True by done. pose proof (covers_elem _ _ _ H2 Hb2). lia.
  - rewrite decide_True by done. pose proof (covers_elem _ _ _ H1 Hb1). lia.
  - specialize (IH H1 H2). lia.
Qed.

(** With nothing handed out, no block is free below [MAX_ORDER]: its buddy
    would be free at the same order. *)
Lemma no_small_free (s : state) (n : nat) :
  wf s [] [] →
  ∀ k l p, k < MIN_ORDER + Z.of_nat n → k < MAX_ORDER →
           free_list s k = Some l → p ∈ l → False.
Proof.
  intros Hwf. induction n as [|n IH]; intros k l p Hk Hmax Hl Hp.
  - destruct (wf_free _ _ _ Hwf k l p Hl Hp) as (((? & _) & _) & _). lia.
  - destruct (decide (k < MIN_ORDER + Z.of_nat n)) as [|Hge]; [by eapply IH|].
    destruct (wf_free _ _ _ Hwf k l p Hl Hp) as (Hok & _).
    pose proof (buddy_ok p k Hok Hmax) as Hokb.
    set (b := buddy_index p k) in *.
    pose proof (block_start_in _ _ Hokb) as Hx.
    pose proof (wf_cover _ _ _ Hwf _ (block_in_arena _ _ _ Hokb Hx)) as Hc.
    rewrite covers_blocks in Hc. change (live_blocks s []) with (@nil block_t) in Hc.
    destruct (covers_pos (b * PAGE_SIZE) (free_blocks s)) as ([q j] & Hin & Hbq).
    { change (covers (b * PAGE_SIZE) []) with 0%nat in Hc. lia. }
    pose proof Hin as Hin'.
    apply elem_of_free_blocks in Hin' as (lj & Hlj & Hq); [|apply Hwf].
    destruct (wf_free _ _ _ Hwf j lj q Hlj Hq) as (Hokq & _).
    assert (k <= j) as Hkj.
    { destruct (decide (k <= j)); [done|]. exfalso.
      apply (IH j lj q); [lia|lia|done..]. }
    destruct (decide (j = k)) as [->|Hne].
    + assert (b = q) as <- by (by apply (block_same_start b q k)).
      assert (lj = l) as -> by congruence.
      by apply (wf_nobuddy _ _ _ Hwf k l p).
    + pose proof (parent_ok p k Hok Hmax) as Hokm.
      pose proof (covers_merge p k (b * PAGE_SIZE) Hok Hmax) as E1.
      pose proof (covers_merge p k (p * PAGE_SIZE) Hok Hmax) as E2.
      rewrite !covers_one in E1, E2. fold b in E1, E2, Hokm.
      rewrite (decide_True (P := in_block (b * PAGE_SIZE) (b, k))) in E1 by done.
      rewrite (decide_True (P := in_block (p * PAGE_SIZE) (p, k))) in E2
        by (by apply block_start_in).
      assert (in_block (b * PAGE_SIZE) (Z.min p b, k + 1)) as Hb1
        by (destruct (decide (in_block (b * PAGE_SIZE) (Z.min p b, k + 1)));
            [done|lia]).
      assert (in_block (p * PAGE_SIZE) (Z.min p b, k + 1)) as Hp1
        by (destruct (decide (in_block (p * PAGE_SIZE) (Z.min p b, k + 1)));
            [done|lia]).
      pose proof (block_nested _ _ q j _ _ Hokm Hokq ltac:(lia) Hb1 Hbq Hp1) as Hpq.
      assert ((p, k) ∈ free_blocks s) as Hpin.
      { apply elem_of_free_blocks; [apply Hwf|eauto]. }
      pose proof (covers_two (p * PAGE_SIZE) (free_blocks s) (p, k) (q, j)
                    ltac:(congruence) Hpin Hin (block_start_in _ _ Hok) Hpq).
      pose proof (wf_free_head_once _ _ _ Hwf p ltac:(apply Hok)). lia.
Qed.

(** With nothing handed out the free lists are the initial ones. *)
Lemma wf_idle_lists (s : state) :
  wf s [] [] → free_area s = free_area init_state.
Proof.
  intros Hr. pose proof wf_init as Hi.
  assert (Hsmall : ∀ k l, k < MAX_ORDER → free_list s k = Some l → l = []).
  { intros k l Hk Hl. destruct l as [|p l]; [done|]. exfalso.
    apply (no_small_free s (Z.to_nat MAX_ORDER) Hr k (p :: l) p);
      [consts; lia|done|done|left]. }
  assert (Hsmalli : ∀ k l, k < MAX_ORDER → free_list init_state k = Some l → l = []).
  { intros k l Hk Hl. destruct l as [|p l]; [done|]. exfalso.
    destruct (init_free_list k p _ Hl ltac:(left)). lia. }
  apply free_area_ext; [apply Hr|apply Hi|]. intros j.
  destruct (decide (0 <= j <= MAX_ORDER)) as [Hj|Hj].
  2:{ unfold free_list. by rewrite !decide_False. }
  destruct (free_list_is_Some s j) as [l Hl]; [apply Hr|done|].
  destruct (free_list_is_Some init_state j) as [li Hli]; [apply Hi|done|].
  rewrite Hl, Hli. f_equal.
  destruct (decide (j < MAX_ORDER)) as [Hlt|Hge].
  { by rewrite (Hsmall j l), (Hsmalli j li). }
  assert (j = MAX_ORDER) as -> by lia.
  assert (li = [0]) as -> by (vm_compute in Hli; congruence).
  assert (∀ p, p ∈ l → p = 0) as Hzero.
  { intros p Hp. destruct (wf_free _ _ _ Hr _ _ p Hl Hp) as ((_ & Hp0 & Hal) & _).
    apply Z.mod_divide in Hal; [|consts; lia]. destruct Hal as [q Hq].
    consts. lia. }
  pose proof (wf_free_NoDup _ _ _ Hr _ _ Hl) as Hnd.
  assert (0 ∈ l) as H0.
  { pose proof (wf_cover _ _ _ Hr 0 ltac:(consts; lia)) as Hc.
    rewrite covers_blocks in Hc.
    change (live_blocks s []) with (@nil block_t) in Hc.
    change (covers 0 []) with 0%nat in Hc.
    destruct (covers_pos 0 (free_blocks s) ltac:(lia)) as ([q k] & Hin & _).
    apply elem_of_free_blocks in Hin as (lk & Hlk & Hq); [|apply Hr].
    destruct (decide (k < MAX_ORDER)) as [Hk|Hk].
    { rewrite (Hsmall k lk Hk Hlk) in Hq. by apply elem_of_nil in Hq. }
    apply free_list_Some in Hlk as Hk'. assert (k = MAX_ORDER) as -> by lia.
    assert (lk = l) as -> by congruence. by rewrite <- (Hzero q Hq). }
  destruct l as [|p [|p' l]].
  - by apply elem_of_nil in H0.
  - by rewrite (Hzero p ltac:(left)).
  - exfalso. rewrite (Hzero p ltac:(left)), (Hzero p' ltac:(right; left)) in Hnd.
    apply NoDup_cons_1_1 in Hnd. apply Hnd. left.
Qed.

(** X1. Complete coalescing: in a reachable state in which every
    allocation has been released, the free lists are those of the freshly
    initialised allocator: the whole arena is one free block of order
    [MAX_ORDER] and every other list is empty. *)
Theorem all_released_restores_init (s : state) :
  reachable s [] → free_area s = free_area init_state.
Proof. intros Hr. apply wf_idle_lists. by apply reachable_wf. Qed.

(** ** Counting bytes *)

Lemma total_bytes_app (l1 l2 : list block_t) :
  total_bytes (l1 ++ l2) = total_bytes l1 + total_bytes l2.
Proof.
  induction l1 as [|blk l1 IH]; [done|].
  change (total_bytes ((blk :: l1) ++ l2))
    with (block_bytes blk + total_bytes (l1 ++ l2)).
  change (total_bytes (blk :: l1)) with (block_bytes blk + total_bytes l1). lia.
Qed.

Lemma byte_count_nil (n : nat) : byte_count n [] = 0.
Proof. induction n as [|n IH]; [done|]. cbn [byte_count]. rewrite IH. done. Qed.

Lemma byte_count_cons (n : nat) (blk : block_t) (l : list block_t) :
  byte_count n (blk :: l) = byte_count n [blk] + byte_count n l.
Proof.
  induction n as [|n IH]; [done|]. cbn [byte_count].
  rewrite IH, (covers_cons _ blk l). lia.
Qed.

(** A block inside the first [n] bytes is counted once for each of its
    bytes. *)
Lemma byte_count_block (n : nat) (p k : Z) :
  0 <= p * PAGE_SIZE → 0 <= k →
  byte_count n [(p, k)] =
  Z.max 0 (Z.min (Z.of_nat n) (p * PAGE_SIZE + 2 ^ k) - p * PAGE_SIZE).
Proof.
  intros Hp Hk. pose proof (pow2_pos k Hk) as Hpos.
  induction n as [|n IH]; [cbn [byte_count]; lia|].
  cbn [byte_count]. rewrite IH, covers_one.
  unfold in_block. cbn [fst snd]. case_decide; lia.
Qed.

Lemma byte_count_total (n : nat) (l : list block_t) :
  (∀ p k, (p, k) ∈ l →
          0 <= k ∧ 0 <= p * PAGE_SIZE ∧ p * PAGE_SIZE + 2 ^ k <= Z.of_nat n) →
  byte_count n l = total_bytes l.
Proof.
  induction l as [|[p k] l IH]; intros Hl; [apply byte_count_nil|].
  rewrite byte_count_cons, IH by (intros; apply Hl; by right).
  destruct (Hl p k ltac:(left)) as (Hk & Hp & Hn).
  rewrite byte_count_block by done.
  change (total_bytes ((p, k) :: l)) with (2 ^ k + total_bytes l).
  pose proof (pow2_pos k Hk). lia.
Qed.

Lemma byte_count_partition (n : nat) (l : list block_t) :
  (∀ b, 0 <= b < Z.of_nat n → covers b l = 1%nat) →
  byte_count n l = Z.of_nat n.
Proof.
  induction n as [|n IH]; intros Hc; [done|].
  cbn [byte_count]. rewrite IH by (intros; apply Hc; lia).
  rewrite Hc by lia. lia.
Qed.

Lemma wf_blocks_ok (s : state) (live : list ptr) (p k : Z) :
  wf s live [] → (p, k) ∈ blocks s live → block_ok p k.
Proof.
  intros Hwf [Hin|Hin]%elem_of_app.
  - apply elem_of_free_blocks in Hin as (l & Hl & Hp); [|apply Hwf].
    by destruct (wf_free _ _ _ Hwf k l p Hl Hp).
  - apply list_elem_of_omap in Hin as (a & Ha & Hblk).
    destruct (wf_live _ _ _ Hwf a Ha) as (q & pg & -> & Hpg & _ & Hok).
    rewrite (live_block_page _ _ _ Hpg) in Hblk. by injection Hblk as <- <-.
Qed.

(** The free and the live blocks together have the bytes of the arena. *)
Lemma wf_total_bytes (s : state) (live : list ptr) :
  wf s live [] →
  total_bytes (free_blocks s) + total_bytes (live_blocks s live) = 2 ^ MAX_ORDER.
Proof.
  intros Hwf. rewrite <- total_bytes_app. fold (blocks s live).
  rewrite <- (byte_count_total (Z.to_nat (2 ^ MAX_ORDER))).
  - rewrite byte_count_partition; [consts; lia|].
    intros b Hb. pose proof (wf_cover _ _ _ Hwf b ltac:(consts; lia)) as Hc.
    by rewrite app_nil_r in Hc.
  - intros p k Hin. pose proof (wf_blocks_ok _ _ _ _ Hwf Hin) as Hok.
    pose proof (block_in_arena p k (p * PAGE_SIZE + 2 ^ k - 1) Hok) as Hlast.
    pose proof (block_ok_pos _ _ Hok).
    destruct Hok as (Hk & Hp & _).
    unfold in_block in Hlast. cbn [fst snd] in Hlast. consts. lia.
Qed.

(** X2. Conservation of memory: in every reachable state the sizes of the
    blocks on the free lists and of the blocks handed out add up to the
    [2^MAX_ORDER] bytes of the arena; no byte is lost or counted twice. *)
Theorem bytes_conserved (s : state) (live : list ptr) :
  reachable s live →
  total_bytes (free_blocks s) + total_bytes (live_blocks s live) = 2 ^ MAX_ORDER.
Proof. intros Hr. apply wf_total_bytes. by apply reachable_wf. Qed.

(** ** What [buddy_dump] reports *)

Lemma total_bytes_tag (k : Z) (l : list Z) :
  total_bytes ((λ p, (p, k)) <$> l) = Z.of_nat (length l) * 2 ^ k.
Proof.
  induction l as [|p l IH]; [done|].
  change (total_bytes ((λ p, (p, k)) <$> p :: l))
    with (2 ^ k + total_bytes ((λ p, (p, k)) <$> l)).
  rewrite IH. cbn [length]. lia.
Qed.

Lemma line_kib_tag_blocks (ll : list (list Z)) :
  ∀ k0, 10 <= k0 →
  1024 * line_kib (zip ((λ l, Z.of_nat (length l)) <$> ll)
                       ((λ o, Z.shiftl 1 o / 1024)
                          <$> seqZ k0 (Z.of_nat (length ll)))) =
  total_bytes (tag_blocks k0 ll).
Proof.
  induction ll as [|l ll IH]; intros k0 Hk; [done|].
  rewrite seqZ_cons by (cbn [length]; lia).
  replace (Z.pred (Z.of_nat (length (l :: ll)))) with (Z.of_nat (length ll))
    by (cbn [length]; lia).
  cbn [tag_blocks]. rewrite total_bytes_app, total_bytes_tag.
  rewrite <- (IH (k0 + 1)) by lia.
  rewrite !fmap_cons. cbn [zip zip_with].
  change (line_kib (?e :: ?r)) with (e.1 * e.2 + line_kib r). cbn [fst snd].
  rewrite Z.shiftl_1_l.
  assert (2 ^ k0 = 2 ^ (k0 - 10) * 1024) as E.
  { change 1024 with (2 ^ 10). rewrite <- Z.pow_add_r by lia. f_equal. lia. }
  assert (2 ^ k0 / 1024 = 2 ^ (k0 - 10)) as -> by (rewrite E; apply Z.div_mul; lia).
  rewrite E. replace (Z.succ k0) with (k0 + 1) by lia. lia.
Qed.

Lemma wf_dump_line (s : state) (live : list ptr) :
  wf s live [] →
  1024 * line_kib (buddy_dump_line s) = total_bytes (free_blocks s).
Proof.
  intros Hwf. pose proof (wf_heads _ _ _ Hwf) as Hlen.
  pose proof (wf_low _ _ _ Hwf) as Hlow.
  destruct s as [fa pgs]. cbn [free_area] in Hlen.
  change (Z.to_nat (MAX_ORDER + 1)) with 21%nat in Hlen.
  do 21 (destruct fa as [|? fa]; [done|]).
  destruct fa; [|done].
  pose proof (Hlow 0 ltac:(consts; lia)) as H0.
  pose proof (Hlow 1 ltac:(consts; lia)) as H1.
  pose proof (Hlow 2 ltac:(consts; lia)) as H2.
  pose proof (Hlow 3 ltac:(consts; lia)) as H3.
  pose proof (Hlow 4 ltac:(consts; lia)) as H4.
  pose proof (Hlow 5 ltac:(consts; lia)) as H5.
  pose proof (Hlow 6 ltac:(consts; lia)) as H6.
  pose proof (Hlow 7 ltac:(consts; lia)) as H7.
  pose proof (Hlow 8 ltac:(consts; lia)) as H8.
  pose proof (Hlow 9 ltac:(consts; lia)) as H9.
  pose proof (Hlow 10 ltac:(consts; lia)) as H10.
  pose proof (Hlow 11 ltac:(consts; lia)) as H11.
  clear Hlow Hwf.
  vm_compute in H0, H1, H2, H3, H4, H5, H6, H7, H8, H9, H10, H11.
  simplify_eq.
  lazymatch goal with
  | |- context [mk_state ?ll _] =>
      exact (line_kib_tag_blocks (drop 12 ll) 12 ltac:(lia))
  end.
Qed.

(** X3. What [buddy_dump] prints accounts for all the free memory: in a
    reachable state the counts of the printed line, each multiplied by
    the block size in KiB printed next to it, add up to the size of the
    arena less the blocks that are handed out. *)
Theorem dump_accounts_free_memory (s : state) (live : list ptr) :
  reachable s live →
  1024 * line_kib (buddy_dump_line s) =
  2 ^ MAX_ORDER - total_bytes (live_blocks s live).
Proof.
  intros Hr. apply reachable_wf in Hr.
  rewrite (wf_dump_line _ _ Hr). pose proof (wf_total_bytes _ _ Hr). lia.
Qed.

(** ** The live addresses *)

Lemma wf_live_fresh (s : state) (a : ptr) (live : list ptr) :
  wf s (a :: live) [] → a ∉ live.
Proof.
  intros Hwf Hin.
  destruct (wf_live _ _ _ Hwf a ltac:(left)) as (p & pg & -> & Hpg & _ & Hok).
  pose proof (live_block_page _ _ _ Hpg) as Hblk.
  pose proof (wf_cover _ _ _ Hwf _ (block_in_arena _ _ _ Hok (block_start_in _ _ Hok)))
    as Hc.
  rewrite covers_blocks, (live_blocks_cons _ _ _ _ Hblk), covers_cons, covers_one in Hc.
  rewrite decide_True in Hc by (by apply block_start_in).
  assert ((p, pg_order pg) ∈ live_blocks s live) as Hin'.
  { apply list_elem_of_omap. eauto. }
  pose proof (covers_elem _ _ _ Hin' (block_start_in _ _ Hok)). lia.
Qed.

Lemma total_bytes_lower (l : list block_t) :
  (∀ p k, (p, k) ∈ l → MIN_ORDER <= k) →
  PAGE_SIZE * Z.of_nat (length l) <= total_bytes l.
Proof.
  induction l as [|[p k] l IH]; intros Hl; [done|].
  change (total_bytes ((p, k) :: l)) with (2 ^ k + total_bytes l).
  specialize (IH ltac:(intros; eapply Hl; by right)).
  pose proof (Hl p k ltac:(left)) as Hk.
  assert (2 ^ MIN_ORDER <= 2 ^ k) by (apply Z.pow_le_mono_r; consts; lia).
  cbn [length]. consts. lia.
Qed.

Lemma total_bytes_nonneg (l : list block_t) : 0 <= total_bytes l.
Proof.
  induction l as [|[p k] l IH]; [done|].
  change (total_bytes ((p, k) :: l)) with (2 ^ k + total_bytes l).
  pose proof (Z.pow_nonneg 2 k). lia.
Qed.

Lemma wf_live_blocks_length (s : state) (live : list ptr) (holes : list block_t) :
  wf s live holes → length (live_blocks s live) = length live.
Proof.
  intros Hwf. pose proof (wf_live _ _ _ Hwf) as Hl. clear Hwf.
  induction live as [|a live IH]; [done|].
  destruct (Hl a ltac:(left)) as (p & pg & -> & Hpg & _).
  rewrite (live_blocks_cons _ _ _ _ (live_block_page _ _ _ Hpg)).
  cbn [length]. rewrite IH; [done|]. intros; apply Hl. by right.
Qed.

(** X4. No address is handed out twice: in every reachable state the
    live addresses are pairwise distinct, so [buddy_alloc] never returns
    an address that is still live. *)
Theorem live_addresses_distinct (s : state) (live : list ptr) :
  reachable s live → NoDup live.
Proof.
  induction 1 as [s Hs|s live size s' a Hr IH Ha Hnn|s live size s' _ IH Ha
                  |s live1 a live2 s' _ IH Hf].
  - constructor.
  - constructor; [|done]. apply (wf_live_fresh s').
    apply reachable_wf. by eapply reach_alloc.
  - done.
  - apply list.NoDup_app in IH as (H1 & H12 & H2). apply list.NoDup_app.
    split_and!; [done| |by eapply NoDup_cons_1_2].
    intros x Hx Hx2. apply (H12 x Hx). by right.
Qed.

(** X5. Bound on the outstanding allocations: every live block has at
    least [PAGE_SIZE] bytes, so a reachable state never has more live
    addresses than the arena has pages. *)
Theorem live_count_bounded (s : state) (live : list ptr) :
  reachable s live → Z.of_nat (length live) <= N_PAGES.
Proof.
  intros Hr. apply reachable_wf in Hr.
  pose proof (wf_total_bytes _ _ Hr) as Ht.
  pose proof (total_bytes_nonneg (free_blocks s)).
  pose proof (total_bytes_lower (live_blocks s live)) as Hlow.
  rewrite (wf_live_blocks_length _ _ _ Hr) in Hlow.
  assert (∀ p k, (p, k) ∈ live_blocks s live → MIN_ORDER <= k) as Hk.
  { intros p k Hin.
    destruct (wf_blocks_ok s live p k Hr) as ((? & _) & _); [|done].
    apply elem_of_app. by right. }
  specialize (Hlow Hk). consts. lia.
Qed.

(** ** When a request succeeds *)

Lemma orderFor_page (size : Z) : size <= PAGE_SIZE → orderFor size = MIN_ORDER.
Proof.
  intros Hs. destruct (orderFor_cases size) as [[_ Hall]|(Hr & _ & Hmin)].
  - specialize (Hall MIN_ORDER ltac:(consts; lia)). consts. lia.
  - destruct (decide (orderFor size = MIN_ORDER)) as [|Hne]; [done|].
    specialize (Hmin MIN_ORDER ltac:(lia)). consts. lia.
Qed.

Lemma orderFor_arena (size : Z) :
  2 ^ (MAX_ORDER - 1) < size <= 2 ^ MAX_ORDER → orderFor size = MAX_ORDER.
Proof.
  intros Hs. destruct (orderFor_cases size) as [[_ Hall]|(Hr & Hfit & _)].
  - specialize (Hall MAX_ORDER ltac:(consts; lia)). lia.
  - destruct (decide (orderFor size = MAX_ORDER)) as [|Hne]; [done|].
    assert (2 ^ orderFor size <= 2 ^ (MAX_ORDER - 1))
      by (apply Z.pow_le_mono_r; lia).
    lia.
Qed.

Lemma orderFor_fits (size : Z) :
  size <= 2 ^ MAX_ORDER → MIN_ORDER <= orderFor size <= MAX_ORDER.
Proof.
  intros Hs. destruct (orderFor_cases size) as [[_ Hall]|(Hr & _)]; [|done].
  specialize (Hall MAX_ORDER ltac:(consts; lia)). lia.
Qed.

Lemma free_blocks_nil (s : state) (live : list ptr) :
  wf s live [] →
  (∀ j, MIN_ORDER <= j <= MAX_ORDER → free_list s j = Some []) →
  free_blocks s = [].
Proof.
  intros Hwf Hall. destruct (free_blocks s) as [|[p k] l] eqn:E; [done|].
  assert ((p, k) ∈ free_blocks s) as Hin by (rewrite E; left).
  apply elem_of_free_blocks in Hin as (lk & Hlk & Hp); [|apply Hwf].
  destruct (wf_free _ _ _ Hwf k lk p Hlk Hp) as ((Hk & _) & _).
  rewrite (Hall k Hk) in Hlk. injection Hlk as <-. by apply elem_of_nil in Hp.
Qed.

(** X6. A request of at most one page fails only when the arena is full:
    on a reachable state [buddy_alloc], called with a size of at most
    [PAGE_SIZE], returns [NULL] exactly when the blocks handed out hold
    all [2^MAX_ORDER] bytes. *)
Theorem page_request_fails_only_when_full (s : state) (live : list ptr)
    (size : Z) :
  reachable s live → size <= PAGE_SIZE →
  ∃ s' r, buddy_alloc size s = Some (s', r) ∧
    (r = NULL ↔ total_bytes (live_blocks s live) = 2 ^ MAX_ORDER).
Proof.
  intros Hr Hs. apply reachable_wf in Hr.
  pose proof (orderFor_page size Hs) as Ho.
  pose proof (wf_total_bytes _ _ Hr) as Ht.
  destruct (buddy_alloc_spec s live size Hr)
    as [[Ha [Hbad|[_ Hall]]]|(i & p & rest & s' & _ & _ & _ & Hl & _ & Ha)].
  - consts. lia.
  - exists s, NULL. split; [done|]. split; [intros _|done].
    rewrite Ho in Hall. rewrite (free_blocks_nil _ _ Hr Hall) in Ht.
    change (total_bytes []) with 0 in Ht. lia.
  - exists s', (PAGE_TO_ADDR p). split; [done|]. split; [done|]. intros Hfull.
    exfalso. assert ((p, i) ∈ free_blocks s) as Hin.
    { apply elem_of_free_blocks; [apply Hr|]. exists (p :: rest). split; [done|left]. }
    destruct (wf_free _ _ _ Hr i _ p Hl ltac:(left)) as (Hok & _).
    apply list_elem_of_split in Hin as (l1 & l2 & E).
    rewrite E, total_bytes_app in Ht.
    change (total_bytes ((p, i) :: l2)) with (2 ^ i + total_bytes l2) in Ht.
    pose proof (total_bytes_nonneg l1). pose proof (total_bytes_nonneg l2).
    pose proof (block_ok_pos _ _ Hok). lia.
Qed.

(** X7. The whole arena can be handed out exactly when nothing is live:
    on a reachable state a request of more than half the arena (and at
    most the arena) succeeds if and only if there is no live address. *)
Theorem arena_request_needs_idle (s : state) (live : list ptr) (size : Z) :
  reachable s live → 2 ^ (MAX_ORDER - 1) < size <= 2 ^ MAX_ORDER →
  ∃ s' r, buddy_alloc size s = Some (s', r) ∧ (r ≠ NULL ↔ live = []).
Proof.
  intros Hr Hs. apply reachable_wf in Hr.
  pose proof (orderFor_arena size Hs) as Ho.
  destruct (buddy_alloc_spec s live size Hr)
    as [[Ha [Hbad|[_ Hall]]]|(i & p & rest & s' & Hoi & Hi & _ & Hl & _ & Ha)].
  - consts. lia.
  - exists s, NULL. split; [done|]. split; [done|]. intros ->. exfalso.
    specialize (Hall MAX_ORDER ltac:(lia)).
    assert (free_list s MAX_ORDER = free_list init_state MAX_ORDER) as E.
    { unfold free_list. by rewrite (wf_idle_lists _ Hr). }
    rewrite Hall in E. vm_compute in E. discriminate.
  - exists s', (PAGE_TO_ADDR p). split; [done|]. split; [intros _|done].
    assert (i = MAX_ORDER) as -> by lia.
    destruct live as [|a live]; [done|]. exfalso.
    destruct (wf_free _ _ _ Hr _ _ p Hl ltac:(left)) as (Hok & _).
    destruct (wf_live_block _ _ _ Hr a ltac:(left))
      as (q & pg & -> & Hpg & _ & Hokq & Hin).
    pose proof (block_start_in _ _ Hokq) as Hq.
    pose proof (block_in_arena _ _ _ Hokq Hq) as Hb.
    pose proof (wf_cover _ _ _ Hr _ Hb) as Hc. rewrite covers_blocks in Hc.
    pose proof (covers_elem _ _ _ Hin Hq).
    assert ((p, MAX_ORDER) ∈ free_blocks s) as Hinp.
    { apply elem_of_free_blocks; [apply Hr|]. exists (p :: rest). split; [done|left]. }
    assert (in_block (q * PAGE_SIZE) (p, MAX_ORDER)) as Hqp.
    { destruct Hok as (_ & Hp & Hal).
      apply Z.mod_divide in Hal; [|consts; lia]. destruct Hal as [c Hc'].
      unfold in_block. cbn [fst snd]. consts. lia. }
    pose proof (covers_elem _ _ _ Hinp Hqp). lia.
Qed.

(** X8. With nothing handed out every request that fits the arena is
    served from its start: on a reachable state without live addresses
    [buddy_alloc], called with a size of at most [2^MAX_ORDER], returns
    the address of [g_memory] itself. *)
Theorem idle_alloc_returns_base (s : state) (size : Z) :
  reachable s [] → size <= 2 ^ MAX_ORDER →
  ∃ s', buddy_alloc size s = Some (s', Mem 0).
Proof.
  intros Hr Hs. apply reachable_wf in Hr.
  pose proof (orderFor_fits size Hs) as Ho.
  assert (∀ j, free_list s j = free_list init_state j) as E.
  { intros j. unfold free_list. by rewrite (wf_idle_lists _ Hr). }
  destruct (buddy_alloc_spec s [] size Hr)
    as [[Ha [Hbad|[_ Hall]]]|(i & p & rest & s' & Hoi & Hi & _ & Hl & _ & Ha)].
  - consts. lia.
  - specialize (Hall MAX_ORDER ltac:(lia)). rewrite E in Hall.
    vm_compute in Hall. discriminate.
  - exists s'. rewrite Ha. rewrite E in Hl.
    destruct (init_free_list _ p _ Hl ltac:(left)) as [_ ->]. done.
Qed.


(** ** What a release leaves behind *)

Lemma in_block_parent (p k b : Z) :
  block_ok p k → k < MAX_ORDER → in_block b (p, k) →
  in_block b (Z.min p (buddy_index p k), k + 1).
Proof.
  intros Hok Hk Hin. pose proof (covers_merge p k b Hok Hk) as E.
  rewrite !covers_one in E. rewrite (decide_True (P := in_block b (p, k))) in E by done.
  destruct (decide (in_block b (Z.min p (buddy_index p k), k + 1))); [done|lia].
Qed.

(** The block the loop of [buddy_free] ends with contains the block it
    started with. *)
Lemma free_loop_contains (fuel : nat) :
  ∀ (s : state) (live : list ptr) (holes : list block_t) (p k : Z),
  wf s live ((p, k) :: holes) → (Z.to_nat (MAX_ORDER - k) <= fuel)%nat →
  ∃ s' p' k', free_loop fuel p k s = Some (s', p', k') ∧ k <= k' ∧
    ∀ b, in_block b (p, k) → in_block b (p', k').
Proof.
  induction fuel as [|fuel IH]; intros s live holes p k Hwf Hfuel.
  - exists s, p, k. simpl. rewrite decide_False by lia. split_and!; (done || lia).
  - destruct (decide (k < MAX_ORDER)) as [Hk|Hk].
    2:{ exists s, p, k. simpl. rewrite decide_False by done.
        split_and!; (done || lia). }
    destruct (wf_holes _ _ _ Hwf p k ltac:(left)) as (Hok & _).
    destruct (free_list_is_Some s k) as [l Hl]; [apply Hwf| |].
    { destruct Hok as ((? & ?) & _). consts. lia. }
    destruct (decide (buddy_index p k ∈ l)) as [Hin|Hnin].
    + destruct (free_loop_merge s live holes p k l fuel Hwf Hk Hl Hin)
        as (s1 & _ & Hstep & Hwf1 & _).
      destruct (IH s1 live holes _ (k + 1) Hwf1 ltac:(lia))
        as (s' & p' & k' & Hloop & Hle & Hsub).
      exists s', p', k'. rewrite Hstep. split_and!; [done|lia|].
      intros b Hb. by apply Hsub, in_block_parent.
    + exists s, p, k. split_and!; [|lia|done].
      apply (free_loop_stop s live holes); [done..|]. congruence.
Qed.

Lemma buddy_free_result (s : state) (live1 live2 : list ptr) (a : ptr) :
  wf s (live1 ++ a :: live2) [] →
  ∃ p pg s' p' k' l, a = PAGE_TO_ADDR p ∧ page_at s p = Some pg ∧
    buddy_free a s = Some s' ∧ wf s' (live1 ++ live2) [] ∧
    pg_order pg <= k' <= MAX_ORDER ∧ free_list s' k' = Some (p' :: l) ∧
    ∀ b, in_block b (p, pg_order pg) → in_block b (p', k').
Proof.
  intros Hwf.
  destruct (take_live _ _ _ _ _ Hwf) as (p & pg & -> & Hpg & Hself & Hwf0).
  destruct (free_loop_spec (Z.to_nat (MAX_ORDER - pg_order pg)) s _ _ p _ Hwf0
              ltac:(lia)) as (s1 & p' & k' & Hloop & Hwf1 & Hbud & Hlive1).
  destruct (free_loop_contains (Z.to_nat (MAX_ORDER - pg_order pg)) s _ _ p _ Hwf0
              ltac:(lia)) as (s1' & p'' & k'' & Hloop' & Hle & Hsub).
  rewrite Hloop in Hloop'. injection Hloop' as <- <- <-.
  destruct (put_free _ _ _ _ _ Hwf1 Hbud)
    as (s2 & s3 & l & Hs2 & Hs3 & Hwf3 & Hl & Hfa & _).
  destruct (wf_holes _ _ _ Hwf1 p' k' ltac:(left)) as (((_ & Hmax) & _) & _).
  exists p, pg, s3, p', k', l. split_and!; try done.
  - unfold buddy_free.
    rewrite ADDR_TO_PAGE_page by (by eapply page_at_Some).
    cbn [mbind option_bind]. rewrite Hpg. cbn [mbind option_bind].
    rewrite Hloop. cbn [mbind option_bind]. rewrite Hs2. done.
  - pose proof (free_list_insert s1 (g_pages s3) k' k' l (p' :: l) Hl) as E.
    rewrite decide_True in E by done. rewrite <- E.
    unfold free_list. by rewrite Hfa.
Qed.

Lemma orderFor_le (size k : Z) :
  MIN_ORDER <= k <= MAX_ORDER → size <= 2 ^ k →
  MIN_ORDER <= orderFor size <= k.
Proof.
  intros Hk Hs. destruct (orderFor_cases size) as [[_ Hall]|(Hr & _ & Hmin)].
  - specialize (Hall k Hk). lia.
  - split; [lia|]. destruct (decide (orderFor size <= k)); [done|].
    specialize (Hmin k ltac:(lia)). lia.
Qed.

(** X9. A release returns the whole block to the free lists: after
    [buddy_free] on a live address of a reachable state, one free block,
    at the head of the free list of its order, contains every byte of
    the released block; its order is at least the order of the released
    block. *)
Theorem released_block_is_free (s : state) (live1 live2 : list ptr) (a : ptr)
    (p k : Z) :
  reachable s (live1 ++ a :: live2) → live_block s a = Some (p, k) →
  ∃ s' p' k' l, buddy_free a s = Some s' ∧ k <= k' <= MAX_ORDER ∧
    free_list s' k' = Some (p' :: l) ∧
    ∀ b, in_block b (p, k) → in_block b (p', k').
Proof.
  intros Hr Hblk. apply reachable_wf in Hr.
  destruct (buddy_free_result _ _ _ _ Hr)
    as (q & pg & s' & p' & k' & l & -> & Hpg & Hfree & _ & Hle & Hl & Hsub).
  rewrite (live_block_page _ _ _ Hpg) in Hblk. injection Hblk as <- <-.
  by exists s', p', k', l.
Qed.

(** X10. Released memory can be handed out again: after [buddy_free] on
    a live address of a reachable state, a request that fits the block
    just released succeeds. *)
Theorem release_makes_room (s : state) (live1 live2 : list ptr) (a : ptr)
    (p k size : Z) :
  reachable s (live1 ++ a :: live2) → live_block s a = Some (p, k) →
  size <= 2 ^ k →
  ∃ s1 s2 r, buddy_free a s = Some s1 ∧ buddy_alloc size s1 = Some (s2, r) ∧
             r ≠ NULL.
Proof.
  intros Hr Hblk Hsize. apply reachable_wf in Hr.
  destruct (buddy_free_result _ _ _ _ Hr)
    as (q & pg & s' & p' & k' & l & -> & Hpg & Hfree & Hwf' & Hle & Hl & _).
  rewrite (live_block_page _ _ _ Hpg) in Hblk. injection Hblk as <- <-.
  destruct (wf_live _ _ _ Hr (PAGE_TO_ADDR q)) as (q' & pg' & E & Hpg' & _ & Hok).
  { apply elem_of_app. right. left. }
  apply PAGE_TO_ADDR_inj in E as <-. assert (pg' = pg) as -> by congruence.
  destruct Hok as (Hk & _).
  pose proof (orderFor_le size _ Hk Hsize) as Ho.
  exists s'. destruct (buddy_alloc_spec s' _ size Hwf')
    as [[_ [Hbad|[_ Hall]]]|(i & p & rest & s2 & _ & _ & _ & _ & _ & Ha)].
  - consts. lia.
  - rewrite (Hall k' ltac:(lia)) in Hl. discriminate.
  - exists s2, (PAGE_TO_ADDR p). done.
Qed.

(** ** [buddy_init] on a used allocator *)

Lemma page_at_imap (fa : list (list Z)) (f : nat → page_t → page_t)
    (pgs : list page_t) (i : Z) :
  page_at (mk_state fa (imap f pgs)) i =
  f (Z.to_nat i) <$> page_at (mk_state fa pgs) i.
Proof.
  unfold page_at. case_decide; [|done]. cbn [g_pages].
  by rewrite list_lookup_imap.
Qed.

Lemma init_heads (fa : list (list Z)) :
  length fa = Z.to_nat (MAX_ORDER + 1) →
  (∀ k, 0 <= k < MIN_ORDER → fa !! Z.to_nat k = Some []) →
  imap (λ k l, if decide (MIN_ORDER <= Z.of_nat k <= MAX_ORDER) then [] else l) fa
  = replicate (Z.to_nat (MAX_ORDER + 1)) [].
Proof.
  intros Hlen Hlow. apply list_eq. intros k. rewrite list_lookup_imap.
  destruct (fa !! k) as [l|] eqn:E.
  - pose proof (lookup_lt_Some _ _ _ E) as Hk.
    rewrite lookup_replicate_2 by lia. cbn [fmap option_fmap option_map].
    case_decide as Hd; [done|]. f_equal.
    specialize (Hlow (Z.of_nat k) ltac:(consts; lia)).
    rewrite Nat2Z.id in Hlow. congruence.
  - apply lookup_ge_None in E. symmetry. apply lookup_replicate_None. lia.
Qed.

(** X11. [buddy_init] resets the allocator whatever state it is in: when
    the heads below [MIN_ORDER], which no function touches, hold nothing,
    it returns with the free lists of the initial state, the whole arena
    being one free block, and with order -1, the own index and the own
    address in every descriptor.  The list entry of every descriptor but
    the first is left as it was. *)
Theorem buddy_init_resets (s : state) :
  length (g_pages s) = Z.to_nat N_PAGES →
  length (free_area s) = Z.to_nat (MAX_ORDER + 1) →
  (∀ k, 0 <= k < MIN_ORDER → free_list s k = Some []) →
  ∃ s', buddy_init s = Some s' ∧ free_area s' = free_area init_state ∧
    ∀ i pg, page_at s i = Some pg →
      page_at s' i =
      Some {| pg_list := if decide (i = 0) then LH_linked else pg_list pg;
              pg_order := -1; pg_index := i; pg_mem := PAGE_TO_ADDR i |}.
Proof.
  intros Hpages Hlen Hlow.
  destruct (page_at_is_Some s 0 Hpages ltac:(consts; lia)) as [pg0 Hpg0].
  set (pages := imap (λ i pg, init_page (Z.of_nat i) pg) (g_pages s)).
  set (heads := replicate (Z.to_nat (MAX_ORDER + 1)) (@nil Z)).
  assert (buddy_init s = list_add 0 MAX_ORDER (mk_state heads pages)) as ->.
  { unfold buddy_init, heads. rewrite init_heads; [done..|].
    intros k Hk. specialize (Hlow k Hk). unfold free_list in Hlow.
    by rewrite decide_True in Hlow by (consts; lia). }
  assert (∀ i, page_at (mk_state heads pages) i = init_page i <$> page_at s i) as Hp.
  { intros i. unfold pages. rewrite page_at_imap.
    unfold page_at. case_decide; [|done]. by rewrite Z2Nat.id by lia. }
  unfold list_add.
  assert (free_list (mk_state heads pages) MAX_ORDER = Some []) as -> by reflexivity.
  cbn [mbind option_bind]. rewrite Hp, Hpg0.
  cbn [fmap option_fmap option_map mbind option_bind].
  rewrite decide_False by (vm_compute; by intros ?%elem_of_nil).
  eexists. split; [done|]. split; [reflexivity|].
  intros i pg Hpg. cbn [g_pages].
  rewrite (page_at_alter (mk_state heads pages)) by done.
  rewrite Hp, Hpg. case_decide; done.
Qed.

(** ** The macros *)

Lemma lxor_pow2_flip (a o : Z) :
  0 <= o →
  Z.lxor a (2 ^ o) = if Z.testbit a o then a - 2 ^ o else a + 2 ^ o.
Proof.
  intros Ho.
  assert (∀ c, Z.testbit c o = false → Z.lxor c (2 ^ o) = c + 2 ^ o) as Hclear.
  { intros c Hc. symmetry. apply Z.add_nocarry_lxor.
    apply Z.bits_inj'. intros n Hn.
    rewrite Z.land_spec, Z.bits_0, Z.pow2_bits_eqb by lia.
    destruct (Z.eqb_spec o n) as [<-|]; [|apply andb_false_r].
    by rewrite Hc. }
  destruct (Z.testbit a o) eqn:E; [|by apply Hclear].
  specialize (Hclear (Z.lxor a (2 ^ o))).
  rewrite Z.lxor_spec, E, Z.pow2_bits_true in Hclear by done.
  specialize (Hclear eq_refl).
  rewrite Z.lxor_assoc, Z.lxor_nilpotent, Z.lxor_0_r in Hclear. lia.
Qed.

Lemma ulong_lxor_pow2 (off o : Z) :
  0 <= o < 64 → ulong (Z.lxor (ulong off) (2 ^ o)) = Z.lxor (ulong off) (2 ^ o).
Proof.
  intros Ho. unfold ulong. apply Z.bits_inj'. intros n Hn.
  destruct (decide (n < 64)) as [Hlt|Hge].
  - by rewrite Z.mod_pow2_bits_low by lia.
  - rewrite Z.mod_pow2_bits_high by lia.
    rewrite Z.lxor_spec, Z.mod_pow2_bits_high, Z.pow2_bits_eqb by lia.
    by destruct (Z.eqb_spec o n); [lia|].
Qed.

(** X12. [BUDDY_ADDR] pairs the two halves of a block: applied to an
    address and an order it yields the address [2^o] bytes above or
    below, inside the same block of order [o + 1], and applied to that
    address it yields the first one again. *)
Theorem BUDDY_ADDR_pairs (off o off' : Z) :
  0 <= off < 2 ^ 64 → BUDDY_ADDR (Mem off) o = Some (Mem off') →
  BUDDY_ADDR (Mem off') o = Some (Mem off) ∧
  Z.abs (off' - off) = 2 ^ o ∧
  off' / 2 ^ (o + 1) = off / 2 ^ (o + 1).
Proof.
  intros Hoff. unfold BUDDY_ADDR, shl1. case_decide as Ho; [|done].
  cbn [mbind option_bind]. rewrite Z.shiftl_1_l. intros [= <-].
  assert (ulong off = off) as Hu by (unfold ulong; apply Z.mod_small; lia).
  pose proof (ulong_lxor_pow2 off o ltac:(lia)) as Hu'. rewrite Hu in *.
  rewrite Hu'. split_and!.
  - by rewrite Z.lxor_assoc, Z.lxor_nilpotent, Z.lxor_0_r.
  - rewrite lxor_pow2_flip by lia. pose proof (pow2_pos o ltac:(lia)).
    destruct (Z.testbit off o); lia.
  - rewrite <- !Z.shiftr_div_pow2 by lia.
    rewrite Z.shiftr_lxor, (Z.shiftr_div_pow2 (2 ^ o)) by lia.
    rewrite Z.div_small, Z.lxor_0_r; [done|].
    pose proof (pow2_pos o ltac:(lia)). rewrite pow2_succ by lia. lia.
Qed.

(** X13. [buddy_free] looks only at the page of the address: on a
    reachable state, an address anywhere inside the first page of a live
    block is released like the address [buddy_alloc] returned for that
    block. *)
Theorem free_within_first_page (s : state) (live1 live2 : list ptr) (p d : Z) :
  reachable s (live1 ++ PAGE_TO_ADDR p :: live2) → 0 <= d < PAGE_SIZE →
  ∃ s', buddy_free (PAGE_TO_ADDR p) s = Some s' ∧
        buddy_free (Mem (p * PAGE_SIZE + d)) s = Some s'.
Proof.
  intros Hr Hd. apply reachable_wf in Hr.
  destruct (buddy_free_spec _ _ _ _ Hr) as (s' & Hfree & _).
  exists s'. split; [done|]. rewrite <- Hfree.
  destruct (wf_live _ _ _ Hr (PAGE_TO_ADDR p)) as (q & pg & E & Hpg & _).
  { apply elem_of_app. right. left. }
  apply PAGE_TO_ADDR_inj in E as <-. apply page_at_Some in Hpg.
  unfold buddy_free. rewrite ADDR_TO_PAGE_page by done.
  unfold ADDR_TO_PAGE, ulong.
  rewrite Z.mod_small by (consts; lia).
  replace ((p * PAGE_SIZE + d) / PAGE_SIZE) with p; [done|].
  consts. apply Z.div_unique with d; lia.
Qed.

(** ** The free memory before and after a call *)

Lemma total_bytes_live_remove (s : state) (live1 live2 : list ptr) (a : ptr)
    (blk : block_t) :
  live_block s a = Some blk →
  total_bytes (live_blocks s (live1 ++ a :: live2)) =
  block_bytes blk + total_bytes (live_blocks s (live1 ++ live2)).
Proof.
  intros Hblk. unfold live_blocks. rewrite !omap_app, !total_bytes_app.
  change (omap (live_block s) (a :: live2)) with (live_blocks s (a :: live2)).
  rewrite (live_blocks_cons _ _ _ _ Hblk).
  change (total_bytes (blk :: live_blocks s live2))
    with (block_bytes blk + total_bytes (live_blocks s live2)).
  unfold live_blocks. lia.
Qed.

(** X14. A successful allocation takes exactly its block out of the free
    memory: on a reachable state, after [buddy_alloc] has returned an
    address, what [buddy_dump] prints accounts for [2^order] bytes less
    than before, [order] being the order computed for the size. *)
Theorem alloc_takes_block_bytes (s : state) (live : list ptr) (size : Z)
    (s' : state) (a : ptr) :
  reachable s live → buddy_alloc size s = Some (s', a) → a ≠ NULL →
  1024 * line_kib (buddy_dump_line s') =
  1024 * line_kib (buddy_dump_line s) - 2 ^ orderFor size.
Proof.
  intros Hr Ha Hnn. apply reachable_wf in Hr.
  destruct (buddy_alloc_spec s live size Hr)
    as [[Hnull _]|(i & p & rest & s'' & Ho & Hi & _ & Hl & Hfrom & Hsome)];
    [congruence|].
  rewrite Hsome in Ha. injection Ha as <- <-.
  destruct (alloc_from_spec s live _ i p rest Hr Ho Hl)
    as (s1 & s2 & pg & _ & Hfrom' & Hwf' & Hpg & _ & Hord & _ & _ & _ & _ & Hlive).
  assert (s2 = s'') as -> by congruence.
  rewrite (wf_dump_line _ _ Hr), (wf_dump_line _ _ Hwf').
  pose proof (wf_total_bytes _ _ Hr) as Ht. pose proof (wf_total_bytes _ _ Hwf') as Ht'.
  pose proof (live_block_page _ _ _ Hpg) as Hblk. rewrite Hord in Hblk.
  rewrite (live_blocks_cons _ _ _ _ Hblk), (live_blocks_ext _ _ _ Hlive) in Ht'.
  change (total_bytes ((p, orderFor size) :: live_blocks s live))
    with (2 ^ orderFor size + total_bytes (live_blocks s live)) in Ht'.
  lia.
Qed.

(** X15. A release gives exactly its block back to the free memory: on a
    reachable state, after [buddy_free] on a live address whose
    descriptor records the order [k], what [buddy_dump] prints accounts
    for [2^k] bytes more than before. *)
Theorem free_returns_block_bytes (s : state) (live1 live2 : list ptr) (a : ptr)
    (p k : Z) :
  reachable s (live1 ++ a :: live2) → live_block s a = Some (p, k) →
  ∃ s', buddy_free a s = Some s' ∧
    1024 * line_kib (buddy_dump_line s') =
    1024 * line_kib (buddy_dump_line s) + 2 ^ k.
Proof.
  intros Hr Hblk. apply reachable_wf in Hr.
  destruct (buddy_free_spec _ _ _ _ Hr) as (s' & Hfree & Hwf' & Hlive).
  exists s'. split; [done|].
  rewrite (wf_dump_line _ _ Hr), (wf_dump_line _ _ Hwf').
  pose proof (wf_total_bytes _ _ Hr) as Ht. pose proof (wf_total_bytes _ _ Hwf') as Ht'.
  rewrite (total_bytes_live_remove _ _ _ _ _ Hblk) in Ht.
  rewrite (live_blocks_ext _ _ _ Hlive) in Ht'.
  change (block_bytes (p, k)) with (2 ^ k) in Ht. lia.
Qed.

(** ** Releasing a block that is free *)


(** ** How many blocks of one order can be free *)

Lemma block_same (p q k b : Z) :
  block_ok p k → block_ok q k → in_block b (p, k) → in_block b (q, k) → p = q.
Proof.
  intros Hp Hq Hbp Hbq. apply (block_same_start p q k); [done..|].
  by apply (block_nested p k q k b); [..|apply block_start_in].
Qed.

Lemma filter_length_le1 {A} (Q : A → Prop) `{∀ x, Decision (Q x)} (l : list A) :
  NoDup l → (∀ x y, x ∈ l → y ∈ l → Q x → Q y → x = y) →
  (length (filter Q l) <= 1)%nat.
Proof.
  intros Hnd Heq.
  destruct (filter Q l) as [|x [|y l']] eqn:E; cbn [length]; [lia..|]. exfalso.
  assert (NoDup (filter Q l)) as Hnd' by (by apply list.NoDup_filter).
  assert (x ∈ filter Q l ∧ y ∈ filter Q l) as [Hx Hy].
  { rewrite E. split; [left|right; left]. }
  apply list_elem_of_filter in Hx as [? ?], Hy as [? ?].
  rewrite E in Hnd'. apply NoDup_cons_1_1 in Hnd'. apply Hnd'.
  rewrite (Heq x y) by done. left.
Qed.

Lemma byte_count_le (n : nat) (l : list block_t) :
  (∀ b, 0 <= b < Z.of_nat n → (covers b l <= 1)%nat) →
  byte_count n l <= Z.of_nat n.
Proof.
  induction n as [|n IH]; intros Hc; [done|].
  cbn [byte_count]. specialize (IH ltac:(intros; apply Hc; lia)).
  specialize (Hc (Z.of_nat n) ltac:(lia)). lia.
Qed.

Lemma wf_parents_distinct (s : state) (live : list ptr) (k : Z) (l : list Z)
    (p q : Z) :
  wf s live [] → k < MAX_ORDER → free_list s k = Some l → p ∈ l → q ∈ l →
  Z.min p (buddy_index p k) = Z.min q (buddy_index q k) → p = q.
Proof.
  intros Hwf Hk Hl Hp Hq E.
  destruct (wf_free _ _ _ Hwf k l p Hl Hp) as (Hokp & _).
  destruct (wf_free _ _ _ Hwf k l q Hl Hq) as (Hokq & _).
  pose proof (wf_nobuddy _ _ _ Hwf k l p Hk Hl Hp) as Hnp.
  pose proof (wf_nobuddy _ _ _ Hwf k l q Hk Hl Hq) as Hnq.
  pose proof (buddy_involutive p k Hokp Hk) as Hip.
  pose proof (buddy_involutive q k Hokq Hk) as Hiq.
  destruct (decide (p = q)) as [|Hne]; [done|]. exfalso.
  destruct (Z.min_spec p (buddy_index p k)) as [[_ E1]|[_ E1]],
           (Z.min_spec q (buddy_index q k)) as [[_ E2]|[_ E2]];
    rewrite E1, E2 in E.
  - done.
  - apply Hnq. by rewrite <- E.
  - apply Hnp. by rewrite E.
  - apply Hne. by rewrite <- Hip, E, Hiq.
Qed.

(** X17. Never two free buddies, counted: on a reachable state the free
    list of an order [k] below [MAX_ORDER] holds at most one block out
    of every pair of buddies, so its blocks take up at most half of the
    arena; [buddy_dump] never prints a count above [2^(MAX_ORDER-1-k)]
    for it. *)
Theorem free_list_length_bounded (s : state) (live : list ptr) (k : Z)
    (l : list Z) :
  reachable s live → k < MAX_ORDER → free_list s k = Some l →
  Z.of_nat (length l) * 2 ^ (k + 1) <= 2 ^ MAX_ORDER.
Proof.
  intros Hr Hk Hl. apply reachable_wf in Hr.
  set (parents := (λ q, Z.min q (buddy_index q k)) <$> l).
  assert (∀ m, m ∈ parents → block_ok m (k + 1)) as Hok.
  { intros m (q & -> & Hq)%list_elem_of_fmap.
    destruct (wf_free _ _ _ Hr k l q Hl Hq) as (Hokq & _). by apply parent_ok. }
  assert (NoDup parents) as Hnd.
  { apply NoDup_fmap_2_strong; [|by eapply wf_free_NoDup].
    intros p q Hp Hq. by apply (wf_parents_distinct s live k l). }
  pose proof (byte_count_le (Z.to_nat (2 ^ MAX_ORDER))
                ((λ m, (m, k + 1)) <$> parents)) as Hle.
  rewrite byte_count_total, total_bytes_tag in Hle.
  - assert (length parents = length l) as E by apply length_fmap.
    rewrite E in Hle. etrans; [apply Hle|consts; lia].
    intros b _. rewrite covers_fmap. apply filter_length_le1; [done|].
    intros x y Hx Hy Hbx Hby. apply (block_same x y (k + 1) b); auto.
  - intros p j (m & [= -> ->] & Hm)%list_elem_of_fmap.
    specialize (Hok m Hm).
    pose proof (block_in_arena m (k + 1) (m * PAGE_SIZE + 2 ^ (k + 1) - 1) Hok)
      as Hlast.
    pose proof (block_ok_pos _ _ Hok).
    destruct Hok as (Hk1 & Hm1 & _).
    unfold in_block in Hlast. cbn [fst snd] in Hlast. consts. lia.
Qed.

(** ** The further properties on sample runs *)

Lemma free_released : buddy_free (Mem 0) one_page = Some released.
Proof. vm_compute. reflexivity. Qed.

Lemma reachable_released : reachable released [].
Proof.
  apply (reach_free one_page [] (Mem 0) []);
    [apply reachable_one_page|apply free_released].
Qed.

Lemma reachable_three_blocks :
  reachable three_blocks [Mem 8192; Mem 4096; Mem 0].
Proof.
  eapply reach_alloc; [|apply alloc_three_blocks|done].
  eapply reach_alloc; [|apply alloc_two_pages|done].
  apply reachable_one_page.
Qed.

Lemma all_released_restores_init_witness :
  reachable released [] ∧ free_area released = free_area init_state.
Proof.
  split; [exact reachable_released|].
  exact (all_released_restores_init released reachable_released).
Defined.

Lemma bytes_conserved_witness :
  reachable two_blocks [Mem 8192; Mem 0] ∧
  total_bytes (free_blocks two_blocks) +
  total_bytes (live_blocks two_blocks [Mem 8192; Mem 0]) = 2 ^ MAX_ORDER.
Proof.
  split; [exact reachable_two_blocks|].
  exact (bytes_conserved two_blocks [Mem 8192; Mem 0] reachable_two_blocks).
Defined.

Lemma dump_accounts_free_memory_witness :
  reachable two_blocks [Mem 8192; Mem 0] ∧
  1024 * line_kib (buddy_dump_line two_blocks) =
  2 ^ MAX_ORDER - total_bytes (live_blocks two_blocks [Mem 8192; Mem 0]).
Proof.
  split; [exact reachable_two_blocks|].
  exact (dump_accounts_free_memory two_blocks [Mem 8192; Mem 0]
           reachable_two_blocks).
Defined.

Lemma live_addresses_distinct_witness :
  reachable two_blocks [Mem 8192; Mem 0] ∧ NoDup [Mem 8192; Mem 0].
Proof.
  split; [exact reachable_two_blocks|].
  exact (live_addresses_distinct two_blocks [Mem 8192; Mem 0]
           reachable_two_blocks).
Defined.

Lemma live_count_bounded_witness :
  reachable two_blocks [Mem 8192; Mem 0] ∧
  Z.of_nat (length [Mem 8192; Mem 0]) <= N_PAGES.
Proof.
  split; [exact reachable_two_blocks|].
  exact (live_count_bounded two_blocks [Mem 8192; Mem 0] reachable_two_blocks).
Defined.

Lemma page_request_fails_only_when_full_witness :
  reachable exhausted [Mem 0] ∧ 4096 <= PAGE_SIZE ∧
  ∃ s' r, buddy_alloc 4096 exhausted = Some (s', r) ∧
    (r = NULL ↔ total_bytes (live_blocks exhausted [Mem 0]) = 2 ^ MAX_ORDER).
Proof.
  assert (H : 4096 <= PAGE_SIZE) by (consts; lia).
  split; [exact reachable_exhausted|]. split; [exact H|].
  exact (page_request_fails_only_when_full exhausted [Mem 0] 4096
           reachable_exhausted H).
Defined.

Lemma arena_request_needs_idle_witness :
  reachable one_page [Mem 0] ∧
  2 ^ (MAX_ORDER - 1) < 2 ^ MAX_ORDER <= 2 ^ MAX_ORDER ∧
  ∃ s' r, buddy_alloc (2 ^ MAX_ORDER) one_page = Some (s', r) ∧
          (r ≠ NULL ↔ [Mem 0] = []).
Proof.
  assert (H : 2 ^ (MAX_ORDER - 1) < 2 ^ MAX_ORDER <= 2 ^ MAX_ORDER)
    by (consts; lia).
  split; [exact reachable_one_page|]. split; [exact H|].
  exact (arena_request_needs_idle one_page [Mem 0] (2 ^ MAX_ORDER)
           reachable_one_page H).
Defined.

Lemma idle_alloc_returns_base_witness :
  reachable released [] ∧ 5000 <= 2 ^ MAX_ORDER ∧
  ∃ s', buddy_alloc 5000 released = Some (s', Mem 0).
Proof.
  assert (H : 5000 <= 2 ^ MAX_ORDER) by (consts; lia).
  split; [exact reachable_released|]. split; [exact H|].
  exact (idle_alloc_returns_base released 5000 reachable_released H).
Defined.

Lemma released_block_is_free_witness :
  reachable three_blocks ([Mem 8192; Mem 4096] ++ Mem 0 :: []) ∧
  live_block three_blocks (Mem 0) = Some (0, 12) ∧
  ∃ s' p' k' l, buddy_free (Mem 0) three_blocks = Some s' ∧
    12 <= k' <= MAX_ORDER ∧ free_list s' k' = Some (p' :: l) ∧
    ∀ b, in_block b (0, 12) → in_block b (p', k').
Proof.
  assert (H : live_block three_blocks (Mem 0) = Some (0, 12)) by reflexivity.
  split; [exact reachable_three_blocks|]. split; [exact H|].
  exact (released_block_is_free three_blocks [Mem 8192; Mem 4096] [] (Mem 0)
           0 12 reachable_three_blocks H).
Defined.

Lemma release_makes_room_witness :
  reachable three_blocks ([Mem 8192; Mem 4096] ++ Mem 0 :: []) ∧
  live_block three_blocks (Mem 0) = Some (0, 12) ∧ 4096 <= 2 ^ 12 ∧
  ∃ s1 s2 r, buddy_free (Mem 0) three_blocks = Some s1 ∧
             buddy_alloc 4096 s1 = Some (s2, r) ∧ r ≠ NULL.
Proof.
  assert (H : live_block three_blocks (Mem 0) = Some (0, 12)) by reflexivity.
  assert (H' : 4096 <= 2 ^ 12) by lia.
  split; [exact reachable_three_blocks|]. split; [exact H|]. split; [exact H'|].
  exact (release_makes_room three_blocks [Mem 8192; Mem 4096] [] (Mem 0)
           0 12 4096 reachable_three_blocks H H').
Defined.

Lemma buddy_init_resets_witness :
  length (g_pages two_blocks) = Z.to_nat N_PAGES ∧
  length (free_area two_blocks) = Z.to_nat (MAX_ORDER + 1) ∧
  (∀ k, 0 <= k < MIN_ORDER → free_list two_blocks k = Some []) ∧
  ∃ s', buddy_init two_blocks = Some s' ∧
    free_area s' = free_area init_state ∧
    ∀ i pg, page_at two_blocks i = Some pg →
      page_at s' i =
      Some {| pg_list := if decide (i = 0) then LH_linked else pg_list pg;
              pg_order := -1; pg_index := i; pg_mem := PAGE_TO_ADDR i |}.
Proof.
  assert (H1 : length (g_pages two_blocks) = Z.to_nat N_PAGES) by reflexivity.
  assert (H2 : length (free_area two_blocks) = Z.to_nat (MAX_ORDER + 1))
    by reflexivity.
  assert (H3 : ∀ k, 0 <= k < MIN_ORDER → free_list two_blocks k = Some []).
  { intros k Hk. unfold free_list. rewrite decide_True by (consts; lia).
    assert (∃ n, (n < 12)%nat ∧ Z.to_nat k = n) as (n & Hn & ->)
      by (exists (Z.to_nat k); consts; lia).
    do 12 (destruct n as [|n]; [reflexivity|]). lia. }
  split; [exact H1|]. split; [exact H2|]. split; [exact H3|].
  exact (buddy_init_resets two_blocks H1 H2 H3).
Defined.

Lemma BUDDY_ADDR_pairs_witness :
  0 <= 4096 < 2 ^ 64 ∧ BUDDY_ADDR (Mem 4096) 12 = Some (Mem 0) ∧
  BUDDY_ADDR (Mem 0) 12 = Some (Mem 4096) ∧
  Z.abs (0 - 4096) = 2 ^ 12 ∧ 0 / 2 ^ (12 + 1) = 4096 / 2 ^ (12 + 1).
Proof.
  assert (H : 0 <= 4096 < 2 ^ 64) by lia.
  assert (H' : BUDDY_ADDR (Mem 4096) 12 = Some (Mem 0)) by reflexivity.
  split; [exact H|]. split; [exact H'|].
  exact (BUDDY_ADDR_pairs 4096 12 0 H H').
Defined.

Lemma free_within_first_page_witness :
  reachable three_blocks ([Mem 8192; Mem 4096] ++ PAGE_TO_ADDR 0 :: []) ∧
  0 <= 100 < PAGE_SIZE ∧
  ∃ s', buddy_free (PAGE_TO_ADDR 0) three_blocks = Some s' ∧
        buddy_free (Mem (0 * PAGE_SIZE + 100)) three_blocks = Some s'.
Proof.
  assert (H : 0 <= 100 < PAGE_SIZE) by (consts; lia).
  split; [exact reachable_three_blocks|]. split; [exact H|].
  exact (free_within_first_page three_blocks [Mem 8192; Mem 4096] [] 0 100
           reachable_three_blocks H).
Defined.

Lemma alloc_takes_block_bytes_witness :
  reachable one_page [Mem 0] ∧
  buddy_alloc 5000 one_page = Some (two_blocks, Mem 8192) ∧ Mem 8192 ≠ NULL ∧
  1024 * line_kib (buddy_dump_line two_blocks) =
  1024 * line_kib (buddy_dump_line one_page) - 2 ^ orderFor 5000.
Proof.
  assert (H : Mem 8192 ≠ NULL) by discriminate.
  split; [exact reachable_one_page|]. split; [exact alloc_two_blocks|].
  split; [exact H|].
  exact (alloc_takes_block_bytes one_page [Mem 0] 5000 two_blocks (Mem 8192)
           reachable_one_page alloc_two_blocks H).
Defined.

Lemma free_returns_block_bytes_witness :
  reachable three_blocks ([Mem 8192; Mem 4096] ++ Mem 0 :: []) ∧
  live_block three_blocks (Mem 0) = Some (0, 12) ∧
  ∃ s', buddy_free (Mem 0) three_blocks = Some s' ∧
    1024 * line_kib (buddy_dump_line s') =
    1024 * line_kib (buddy_dump_line three_blocks) + 2 ^ 12.
Proof.
  assert (H : live_block three_blocks (Mem 0) = Some (0, 12)) by reflexivity.
  split; [exact reachable_three_blocks|]. split; [exact H|].
  exact (free_returns_block_bytes three_blocks [Mem 8192; Mem 4096] [] (Mem 0)
           0 12 reachable_three_blocks H).
Defined.


Lemma free_list_length_bounded_witness :
  reachable two_blocks [Mem 8192; Mem 0] ∧ 12 < MAX_ORDER ∧
  free_list two_blocks 12 = Some [1] ∧
  Z.of_nat (length [1]) * 2 ^ (12 + 1) <= 2 ^ MAX_ORDER.
Proof.
  assert (H : 12 < MAX_ORDER) by (consts; lia).
  assert (H' : free_list two_blocks 12 = Some [1]) by reflexivity.
  split; [exact reachable_two_blocks|]. split; [exact H|]. split; [exact H'|].
  exact (free_list_length_bounded two_blocks [Mem 8192; Mem 0] 12 [1]
           reachable_two_blocks H H').
Defined.
